(** * The block editor of the blog application (src/components/RichEditor.tsx)

    A shallow embedding of the editor component: JavaScript strings, the part
    of the browser's DOM the component drives, the component's state and its
    event handlers, followed by the properties proved of them. *)

From Stdlib Require Import Floats.
From Stdlib Require Import Strings.String Strings.Ascii.
From Stdlib Require Import List NArith ZArith QArith Qround Bool Arith Lia.
From Stdlib Require Import Permutation.
From Stdlib Require DecimalString.
Import ListNotations.
Close Scope Q_scope.

Set Implicit Arguments.

(* ===================================================================== *)
(** ** JavaScript strings *)
(* ===================================================================== *)

(** A JavaScript string is a sequence of UTF-16 code units; [.length] is the
    number of code units and [===] is equality of the sequences. *)
Module JS.

Definition jschar := N.
Definition jsstring := list jschar.

(** A string literal of the source, given by its ASCII characters. *)
Definition lit (s : string) : jsstring :=
  map N_of_ascii (list_ascii_of_string s).
Arguments lit s%_string.

(** A literal of the source that contains double quotes: in the text given
    here a backquote stands for each of them. *)
Definition tpl (s : string) : jsstring :=
  map (fun c => if N.eqb c 96 then 34%N else c) (lit s).

Fixpoint streq (a b : jsstring) : bool :=
  match a, b with
  | [], [] => true
  | x :: a', y :: b' => N.eqb x y && streq a' b'
  | _, _ => false
  end.

(** Truthiness of a string: the empty string is the only falsy one. *)
Definition truthy (s : jsstring) : bool :=
  match s with [] => false | _ :: _ => true end.

(** [a || b] on strings. *)
Definition orElse (a b : jsstring) : jsstring := if truthy a then a else b.

(** The characters matched by [\s] and stripped by [trim]: the WhiteSpace and
    LineTerminator code points of ECMAScript. *)
Definition isWhiteSpace (c : jschar) : bool :=
  (N.leb 9 c && N.leb c 13) || N.eqb c 32 || N.eqb c 160 || N.eqb c 5760
  || (N.leb 8192 c && N.leb c 8202) || N.eqb c 8232 || N.eqb c 8233
  || N.eqb c 8239 || N.eqb c 8287 || N.eqb c 12288 || N.eqb c 65279.

Fixpoint dropWhile (p : jschar -> bool) (s : jsstring) : jsstring :=
  match s with
  | [] => []
  | c :: r => if p c then dropWhile p r else s
  end.

Definition trimStart (s : jsstring) : jsstring := dropWhile isWhiteSpace s.
Definition trimEnd (s : jsstring) : jsstring :=
  rev (dropWhile isWhiteSpace (rev s)).
Definition trim (s : jsstring) : jsstring := trimEnd (trimStart s).

(** [s.split(/\s+/)]: the pieces of [s] between the maximal runs of white
    space ([sep] tells the separators).  [piece] is the piece being read; [inRun] tells that the previous
    character belonged to a separator, whose piece has been pushed already.
    The last piece is pushed at the end of the string, also when it is empty,
    so that the empty string splits into one empty piece. *)
Fixpoint splitRunsFrom (sep : jschar -> bool) (inRun : bool) (piece : jsstring)
  (s : jsstring) : list jsstring :=
  match s with
  | [] => [piece]
  | c :: r =>
      if sep c
      then if inRun then splitRunsFrom sep true piece r
           else piece :: splitRunsFrom sep true [] r
      else splitRunsFrom sep false (piece ++ [c]) r
  end.

Definition splitWs (s : jsstring) : list jsstring :=
  splitRunsFrom isWhiteSpace false [] s.

Fixpoint startsWith (s prefix : jsstring) : bool :=
  match prefix, s with
  | [], _ => true
  | p :: prefix', c :: s' => N.eqb p c && startsWith s' prefix'
  | _ :: _, [] => false
  end.

Definition endsWith (s suffix : jsstring) : bool :=
  startsWith (rev s) (rev suffix).

(** [s.includes(c)] for a one-character needle. *)
Definition includesChar (s : jsstring) (c : jschar) : bool :=
  existsb (N.eqb c) s.

(** [s.substring(a, b)] for [a <= b]. *)
Definition substring (a b : nat) (s : jsstring) : jsstring :=
  firstn (b - a) (skipn a s).

Definition isUpperAscii (c : jschar) : bool := N.leb 65 c && N.leb c 90.
Definition isLowerAscii (c : jschar) : bool := N.leb 97 c && N.leb c 122.
Definition isAsciiAlpha (c : jschar) : bool := isUpperAscii c || isLowerAscii c.

Definition toLowerAscii (s : jsstring) : jsstring :=
  map (fun c => if isUpperAscii c then (c + 32)%N else c) s.
Definition toUpperAscii (s : jsstring) : jsstring :=
  map (fun c => if isLowerAscii c then (c - 32)%N else c) s.

End JS.

Import JS.

(* ===================================================================== *)
(** ** Word count and reading time (the statistics effect) *)
(* ===================================================================== *)

(** [text.trim().split(/\s+/).filter(w => w.length > 0).length] *)
Definition countWords (text : jsstring) : nat :=
  length (filter (fun w => Nat.ltb 0 (length w)) (splitWs (trim text))).

(** [Math.ceil(words / 200)] *)
Definition computeReadingTime (words : nat) : Z :=
  Qceiling (inject_Z (Z.of_nat words) / 200)%Q.

(* ===================================================================== *)
(** ** The DOM: nodes, serialisation, rendered text *)
(* ===================================================================== *)

Module DOM.

(** A node is a text node or an element.  [nodeId] stands for the identity of
    the JavaScript object: two references denote the same node exactly when
    their identifiers agree.  [localName] is in lower case, as the
    serialisation prints it. *)
#[warnings="-register-all"]
Inductive Node : Type :=
| TextNode (nodeId : nat) (data : jsstring)
| Element (nodeId : nat) (localName : jsstring)
    (attributes : list (jsstring * jsstring)) (childNodes : list Node).

Definition nodeId (n : Node) : nat :=
  match n with TextNode i _ => i | Element i _ _ _ => i end.

Definition isElement (n : Node) : bool :=
  match n with TextNode _ _ => false | Element _ _ _ _ => true end.

(** [node.nodeType === 3] *)
Definition isText (n : Node) : bool := negb (isElement n).

(** [el.tagName]: the upper-cased name of an element ([undefined], here the
    empty string, on a text node). *)
Definition tagName (n : Node) : jsstring :=
  match n with TextNode _ _ => [] | Element _ nm _ _ => toUpperAscii nm end.

Fixpoint textContent (n : Node) : jsstring :=
  match n with
  | TextNode _ d => d
  | Element _ _ _ cs => flat_map textContent cs
  end.

Definition memStr (s : jsstring) (l : list jsstring) : bool :=
  existsb (streq s) l.

Definition voidElements : list jsstring :=
  map lit ["area"; "base"; "br"; "col"; "embed"; "hr"; "img"; "input";
           "link"; "meta"; "source"; "track"; "wbr"]%string.

Definition rawTextElements : list jsstring :=
  map lit ["style"; "script"; "xmp"; "iframe"; "noembed"; "noframes";
           "plaintext"]%string.

Definition isVoid (nm : jsstring) : bool := memStr nm voidElements.
Definition isRawText (nm : jsstring) : bool := memStr nm rawTextElements.

(** Escaping of text and of attribute values in the HTML fragment
    serialisation algorithm. *)
Definition escapeChar (inAttr : bool) (c : jschar) : jsstring :=
  if N.eqb c 38 then lit "&amp;"
  else if N.eqb c 160 then lit "&nbsp;"
  else if N.eqb c 60 then lit "&lt;"
  else if N.eqb c 62 then lit "&gt;"
  else if inAttr && N.eqb c 34 then lit "&quot;"
  else [c].

Definition escapeText (s : jsstring) : jsstring := flat_map (escapeChar false) s.
Definition escapeAttr (s : jsstring) : jsstring := flat_map (escapeChar true) s.

Definition serializeAttr (a : jsstring * jsstring) : jsstring :=
  lit " " ++ fst a ++ [61; 34]%N ++ escapeAttr (snd a) ++ [34%N].

(** The serialisation of one node; [raw] tells that the parent is an element
    whose text is printed without escaping. *)
Fixpoint serialize (raw : bool) (n : Node) : jsstring :=
  match n with
  | TextNode _ d => if raw then d else escapeText d
  | Element _ nm attrs cs =>
      lit "<" ++ nm ++ flat_map serializeAttr attrs ++ lit ">" ++
      (if isVoid nm then []
       else flat_map (serialize (isRawText nm)) cs ++ lit "</" ++ nm ++ lit ">")
  end.

(** The [innerHTML] getter of an element with children [cs] (the editable
    root is a [div]). *)
Definition innerHTML (cs : list Node) : jsstring := flat_map (serialize false) cs.

(** *** Rendered text

    [innerText] follows the HTML standard's algorithm for a rendered element:
    text nodes give their data (the editable root sets [white-space: pre-wrap],
    so white space is kept), [br] gives a line feed, a block-level element is
    surrounded by one required line break and a paragraph by two; line breaks
    at both ends are dropped and a run of them becomes as many line feeds as
    its largest count. *)
Inductive Item : Type := Str (s : jsstring) | Brk (n : nat).

Definition blockElements : list jsstring :=
  map lit ["div"; "h1"; "h2"; "h3"; "h4"; "h5"; "h6"; "blockquote"; "pre";
           "ul"; "ol"; "li"; "hr"; "table"; "section"; "article"; "figure";
           "header"; "footer"]%string.

Fixpoint items (n : Node) : list Item :=
  match n with
  | TextNode _ d => [Str d]
  | Element _ nm _ cs =>
      let inner := flat_map items cs in
      if streq nm (lit "br") then [Str [10%N]]
      else if streq nm (lit "p") then Brk 2 :: inner ++ [Brk 2]
      else if memStr nm blockElements then Brk 1 :: inner ++ [Brk 1]
      else inner
  end.

Definition isEmptyStr (i : Item) : bool :=
  match i with Str [] => true | _ => false end.

Fixpoint dropBreaks (l : list Item) : list Item :=
  match l with
  | Brk _ :: r => dropBreaks r
  | _ => l
  end.

(** Replaces every run of required line breaks by line feeds; [pending] is
    the largest count of the run being read. *)
Fixpoint renderItems (pending : nat) (l : list Item) : jsstring :=
  match l with
  | [] => repeat 10%N pending
  | Brk n :: r => renderItems (Nat.max pending n) r
  | Str s :: r => repeat 10%N pending ++ s ++ renderItems 0 r
  end.

Definition innerTextOf (cs : list Node) : jsstring :=
  let l := filter (fun i => negb (isEmptyStr i)) (flat_map items cs) in
  renderItems 0 (rev (dropBreaks (rev (dropBreaks l)))).

Definition innerText (n : Node) : jsstring :=
  match n with
  | TextNode _ d => d
  | Element _ _ _ cs => innerTextOf cs
  end.

(** *** Looking nodes up

    A forest is a list of sibling trees.  References are resolved by
    identifier. *)

Definition hasId (id : nat) (n : Node) : bool := Nat.eqb (nodeId n) id.

(** [n.contains(id)]: [n] itself or one of its descendants. *)
Fixpoint containsId (id : nat) (n : Node) : bool :=
  hasId id n ||
  match n with
  | TextNode _ _ => false
  | Element _ _ _ cs => existsb (containsId id) cs
  end.

Fixpoint firstSome {A B : Type} (f : A -> option B) (l : list A) : option B :=
  match l with
  | [] => None
  | a :: r => match f a with Some b => Some b | None => firstSome f r end
  end.

Fixpoint findNode (id : nat) (n : Node) : option Node :=
  if hasId id n then Some n
  else match n with
       | TextNode _ _ => None
       | Element _ _ _ cs => firstSome (findNode id) cs
       end.

(** The element, among [n] and its descendants, one of whose children is the
    node [id]. *)
Fixpoint parentWithin (id : nat) (n : Node) : option Node :=
  match n with
  | TextNode _ _ => None
  | Element _ _ _ cs =>
      if existsb (hasId id) cs then Some n
      else firstSome (parentWithin id) cs
  end.

Definition children (n : Node) : list Node :=
  match n with TextNode _ _ => [] | Element _ _ _ cs => cs end.

Fixpoint nextIn (id : nat) (cs : list Node) : option Node :=
  match cs with
  | [] => None
  | a :: r => if hasId id a then hd_error r else nextIn id r
  end.

Fixpoint prevIn (id : nat) (cs : list Node) : option Node :=
  match cs with
  | a :: (b :: _) as r => if hasId id b then Some a else prevIn id r
  | _ => None
  end.

(** *** Editing a forest *)

(** Every node [id] of the forest is replaced by the nodes [new]. *)
Fixpoint substNode (id : nat) (new : list Node) (n : Node) : Node :=
  match n with
  | TextNode _ _ => n
  | Element i nm a cs =>
      Element i nm a
        (flat_map (fun c => if hasId id c then new else [substNode id new c]) cs)
  end.

Definition substForest (id : nat) (new : list Node) (cs : list Node) : list Node :=
  flat_map (fun c => if hasId id c then new else [substNode id new c]) cs.

Definition removeForest (id : nat) (cs : list Node) : list Node :=
  substForest id [] cs.

(** [insertAt ref n cs]: [n] is put before the child [ref] of [cs], or at the
    end when [ref] is [None] (or is not there). *)
Fixpoint insertAt (ref : option nat) (n : Node) (cs : list Node) : list Node :=
  match cs with
  | [] => [n]
  | c :: r =>
      match ref with
      | Some i => if hasId i c then n :: cs else c :: insertAt ref n r
      | None => c :: insertAt ref n r
      end
  end.

(** [node.cloneNode(true)]: a copy whose nodes are new objects, numbered from
    [fresh] on; the result carries the next unused identifier. *)
Fixpoint cloneNode (fresh : nat) (n : Node) : Node * nat :=
  match n with
  | TextNode _ d => (TextNode fresh d, S fresh)
  | Element _ nm a cs =>
      let r := fold_left
                 (fun (acc : list Node * nat) c =>
                    let r := cloneNode (snd acc) c in
                    (fst acc ++ [fst r], snd r))
                 cs ([], S fresh) in
      (Element fresh nm a (fst r), snd r)
  end.

End DOM.

Import DOM.


(* ===================================================================== *)
(** ** The HTML fragment parser (the [innerHTML] setter, [insertHTML]) *)
(* ===================================================================== *)

(** The parser is the standard's tokenizer, one state per character read,
    feeding a tree builder with a stack of open elements.  It covers what the
    editor writes and reads back: text with the character references of the
    serialisation, start tags with attributes, end tags and void elements.
    Comments and declarations are skipped; implied end tags, raw-text elements
    and the table and formatting repairs of the full algorithm are left out. *)
Module HTML.

Record Tag : Type := mkTag {
  isEndTag : bool;
  tgName : jsstring;
  tgAttrs : list (jsstring * jsstring)
}.

Inductive Mode : Type :=
| Data
| TagOpen
| EndTagOpen
| TagNameSt (t : Tag)
| BeforeAttrName (t : Tag)
| AttrName (t : Tag) (n : jsstring)
| AfterAttrName (t : Tag) (n : jsstring)
| BeforeAttrValue (t : Tag) (n : jsstring)
| AttrValue (quote : jschar) (t : Tag) (n v : jsstring)
| AfterAttrValue (t : Tag)
| SelfClosing (t : Tag)
| Bogus.

(** An element whose end tag has not been read; its children are kept most
    recent first. *)
Record OpenElement : Type := mkOpen {
  oeId : nat;
  oeName : jsstring;
  oeAttrs : list (jsstring * jsstring);
  oeChildren : list Node
}.

Record Parser : Type := mkParser {
  mode : Mode;
  pending : jsstring;            (* text read since the last tag *)
  openElements : list OpenElement; (* innermost first *)
  finished : list Node;          (* top-level nodes, most recent first *)
  fresh : nat                    (* next unused node identifier *)
}.

Definition setMode (m : Mode) (p : Parser) : Parser :=
  mkParser m (pending p) (openElements p) (finished p) (fresh p).

Definition addPending (s : jsstring) (p : Parser) : Parser :=
  mkParser (mode p) (pending p ++ s) (openElements p) (finished p) (fresh p).

(** The character references the serialisation produces. *)
Definition entityAt (r : jsstring) : option (jschar * nat) :=
  if startsWith r (lit "amp;") then Some (38%N, 4%nat)
  else if startsWith r (lit "lt;") then Some (60%N, 3%nat)
  else if startsWith r (lit "gt;") then Some (62%N, 3%nat)
  else if startsWith r (lit "quot;") then Some (34%N, 5%nat)
  else if startsWith r (lit "nbsp;") then Some (160%N, 5%nat)
  else if startsWith r (lit "#39;") then Some (39%N, 4%nat)
  else None.

(** [skip] counts the characters of a reference still to be passed over. *)
Fixpoint decodeFrom (skip : nat) (s : jsstring) : jsstring :=
  match s with
  | [] => []
  | c :: r =>
      match skip with
      | S k => decodeFrom k r
      | O =>
          if N.eqb c 38
          then match entityAt r with
               | Some (ch, len) => ch :: decodeFrom len r
               | None => c :: decodeFrom 0 r
               end
          else c :: decodeFrom 0 r
      end
  end.

Definition decode (s : jsstring) : jsstring := decodeFrom 0 s.

(** *** Tree construction *)

Definition appendTo (n : Node) (cs : list Node) : list Node :=
  match n, cs with
  | TextNode _ d, TextNode i d0 :: r => TextNode i (d0 ++ d) :: r
  | _, _ => n :: cs
  end.

Definition appendNode (n : Node) (p : Parser) : Parser :=
  match openElements p with
  | [] => mkParser (mode p) (pending p) [] (appendTo n (finished p)) (S (fresh p))
  | o :: r =>
      mkParser (mode p) (pending p)
        (mkOpen (oeId o) (oeName o) (oeAttrs o) (appendTo n (oeChildren o)) :: r)
        (finished p) (S (fresh p))
  end.

Definition flushText (p : Parser) : Parser :=
  match pending p with
  | [] => p
  | _ :: _ =>
      appendNode (TextNode (fresh p) (decode (pending p)))
        (mkParser (mode p) [] (openElements p) (finished p) (fresh p))
  end.

Definition closed (o : OpenElement) : Node :=
  Element (oeId o) (oeName o) (oeAttrs o) (rev (oeChildren o)).

(** Pops the innermost open element and hands it to its parent. *)
Definition popElement (p : Parser) : Parser :=
  match openElements p with
  | [] => p
  | o :: r =>
      match r with
      | [] => mkParser (mode p) (pending p) [] (closed o :: finished p) (fresh p)
      | o' :: r' =>
          mkParser (mode p) (pending p)
            (mkOpen (oeId o') (oeName o') (oeAttrs o') (closed o :: oeChildren o') :: r')
            (finished p) (fresh p)
      end
  end.

(** Closes the open elements up to and including the innermost one called
    [nm]; [stack] is the part of the stack still to inspect. *)
Fixpoint closeUpTo (nm : jsstring) (stack : list OpenElement) (p : Parser) : Parser :=
  match stack with
  | [] => p
  | o :: r =>
      if streq (oeName o) nm then popElement p
      else closeUpTo nm r (popElement p)
  end.

Definition emitTag (t : Tag) (p0 : Parser) : Parser :=
  let p := setMode Data (flushText p0) in
  if isEndTag t then
    if existsb (fun o => streq (oeName o) (tgName t)) (openElements p)
    then closeUpTo (tgName t) (openElements p) p
    else p
  else if isVoid (tgName t) then
    appendNode (Element (fresh p) (tgName t) (tgAttrs t) []) p
  else
    mkParser Data (pending p)
      (mkOpen (fresh p) (tgName t) (tgAttrs t) [] :: openElements p)
      (finished p) (S (fresh p)).

(** An attribute repeated in a tag keeps its first value. *)
Definition addAttr (t : Tag) (n v : jsstring) : Tag :=
  if existsb (fun a => streq (fst a) n) (tgAttrs t) then t
  else mkTag (isEndTag t) (tgName t) (tgAttrs t ++ [(n, v)]).

Definition lower (c : jschar) : jschar :=
  if isUpperAscii c then (c + 32)%N else c.

Definition isTagSpace (c : jschar) : bool :=
  N.eqb c 9 || N.eqb c 10 || N.eqb c 12 || N.eqb c 13 || N.eqb c 32.

(** What the states before, between and after attributes do with a character
    that starts an attribute name. *)
Definition beforeAttr (t : Tag) (c : jschar) (p : Parser) : Parser :=
  if isTagSpace c then setMode (BeforeAttrName t) p
  else if N.eqb c 47 then setMode (SelfClosing t) p
  else if N.eqb c 62 then emitTag t p
  else setMode (AttrName t [lower c]) p.

(** One character of input. *)
Definition step (p : Parser) (c : jschar) : Parser :=
  match mode p with
  | Data =>
      if N.eqb c 60 then setMode TagOpen p else addPending [c] p
  | TagOpen =>
      if isAsciiAlpha c then setMode (TagNameSt (mkTag false [lower c] [])) p
      else if N.eqb c 47 then setMode EndTagOpen p
      else if N.eqb c 33 || N.eqb c 63 then setMode Bogus p
      else if N.eqb c 60 then addPending [60%N] p
      else setMode Data (addPending [60%N; c] p)
  | EndTagOpen =>
      if isAsciiAlpha c then setMode (TagNameSt (mkTag true [lower c] [])) p
      else if N.eqb c 62 then setMode Data p
      else setMode Bogus p
  | TagNameSt t =>
      if isTagSpace c then setMode (BeforeAttrName t) p
      else if N.eqb c 47 then setMode (SelfClosing t) p
      else if N.eqb c 62 then emitTag t p
      else setMode (TagNameSt (mkTag (isEndTag t) (tgName t ++ [lower c]) (tgAttrs t))) p
  | BeforeAttrName t => beforeAttr t c p
  | AttrName t n =>
      if isTagSpace c then setMode (AfterAttrName t n) p
      else if N.eqb c 47 then setMode (SelfClosing (addAttr t n [])) p
      else if N.eqb c 62 then emitTag (addAttr t n []) p
      else if N.eqb c 61 then setMode (BeforeAttrValue t n) p
      else setMode (AttrName t (n ++ [lower c])) p
  | AfterAttrName t n =>
      if isTagSpace c then p
      else if N.eqb c 61 then setMode (BeforeAttrValue t n) p
      else beforeAttr (addAttr t n []) c p
  | BeforeAttrValue t n =>
      if isTagSpace c then p
      else if N.eqb c 34 || N.eqb c 39 then setMode (AttrValue c t n []) p
      else if N.eqb c 62 then emitTag (addAttr t n []) p
      else setMode (AttrValue 0%N t n [c]) p
  | AttrValue q t n v =>
      if N.eqb q 0 then
        if isTagSpace c then setMode (BeforeAttrName (addAttr t n (decode v))) p
        else if N.eqb c 62 then emitTag (addAttr t n (decode v)) p
        else setMode (AttrValue q t n (v ++ [c])) p
      else
        if N.eqb c q then setMode (AfterAttrValue (addAttr t n (decode v))) p
        else setMode (AttrValue q t n (v ++ [c])) p
  | AfterAttrValue t => beforeAttr t c p
  | SelfClosing t => beforeAttr t c p
  | Bogus => if N.eqb c 62 then setMode Data p else p
  end.

(** Closes the elements still open at the end of the input; [stack] is the
    part of the stack still to close. *)
Fixpoint closeAll (stack : list OpenElement) (p : Parser) : Parser :=
  match stack with
  | [] => p
  | _ :: r => closeAll r (popElement p)
  end.

(** The end of the input: a tag cut short is dropped, a lone [<] is text. *)
Definition finish (p : Parser) : list Node * nat :=
  let p1 := match mode p with
            | TagOpen => addPending [60%N] p
            | EndTagOpen => addPending [60%N; 47%N] p
            | _ => p
            end in
  let p2 := flushText p1 in
  let p3 := closeAll (openElements p2) p2 in
  (rev (finished p3), fresh p3).

(** The nodes of the fragment [html], numbered from [fresh] on, and the next
    unused identifier. *)
Definition parse (html : jsstring) (fresh : nat) : list Node * nat :=
  finish (fold_left step html (mkParser Data [] [] [] fresh)).

End HTML.

Import HTML.

(* ===================================================================== *)
(** ** The page: the editable root, the selection, the focus *)
(* ===================================================================== *)

Module Browser.

(** A reference to a node: the editable root ([editorRef.current]) or a node
    below it or elsewhere. *)
Inductive NodeRef : Type := EditorRoot | Ref (id : nat).

(** A boundary point of a range: a node and an offset into its data (a text
    node) or its children (an element). *)
Record Boundary : Type := mkBoundary { container : NodeRef; offset : nat }.

(** The one range of [window.getSelection()]. *)
Record Selection : Type := mkSelection { anchor : Boundary; focus : Boundary }.

Record Page : Type := mkPage {
  editor : option (list Node); (* the children of [editorRef.current]; [None] while it is null *)
  scrollTop : float;           (* [editorRef.current.scrollTop] *)
  others : list Node;          (* trees outside the root: the rest of the document, detached nodes *)
  nextId : nat;                (* identifier of the next node created *)
  editorFocused : bool;        (* [document.activeElement === editorRef.current] *)
  selection : option Selection (* [None] when [rangeCount] is 0 *)
}.

Definition setEditor (e : option (list Node)) (pg : Page) : Page :=
  mkPage e (scrollTop pg) (others pg) (nextId pg) (editorFocused pg) (selection pg).
Definition setOthers (o : list Node) (pg : Page) : Page :=
  mkPage (editor pg) (scrollTop pg) o (nextId pg) (editorFocused pg) (selection pg).
Definition setNextId (n : nat) (pg : Page) : Page :=
  mkPage (editor pg) (scrollTop pg) (others pg) n (editorFocused pg) (selection pg).
Definition setFocused (b : bool) (pg : Page) : Page :=
  mkPage (editor pg) (scrollTop pg) (others pg) (nextId pg) b (selection pg).
Definition setSelection (s : option Selection) (pg : Page) : Page :=
  mkPage (editor pg) (scrollTop pg) (others pg) (nextId pg) (editorFocused pg) s.

Definition editorNodes (pg : Page) : list Node :=
  match editor pg with Some cs => cs | None => [] end.

Definition allNodes (pg : Page) : list Node := editorNodes pg ++ others pg.

(** The node a reference denotes. *)
Definition resolve (pg : Page) (id : nat) : option Node :=
  firstSome (findNode id) (allNodes pg).

Definition refEqb (a b : NodeRef) : bool :=
  match a, b with
  | EditorRoot, EditorRoot => true
  | Ref i, Ref j => Nat.eqb i j
  | _, _ => false
  end.

Definition boundaryEqb (a b : Boundary) : bool :=
  refEqb (container a) (container b) && Nat.eqb (offset a) (offset b).

(** [selection.isCollapsed] *)
Definition isCollapsed (s : Selection) : bool := boundaryEqb (anchor s) (focus s).

(** [node.parentNode] *)
Inductive Parent : Type := NoParent | RootParent | ElementParent (p : Node).

Definition parentNode (pg : Page) (id : nat) : Parent :=
  if existsb (hasId id) (editorNodes pg) then RootParent
  else match firstSome (parentWithin id) (allNodes pg) with
       | Some p => ElementParent p
       | None => NoParent
       end.

Definition parentRef (pg : Page) (id : nat) : option NodeRef :=
  match parentNode pg id with
  | NoParent => None
  | RootParent => Some EditorRoot
  | ElementParent p => Some (Ref (nodeId p))
  end.

Definition siblings (pg : Page) (id : nat) : list Node :=
  match parentNode pg id with
  | NoParent => []
  | RootParent => editorNodes pg
  | ElementParent p => children p
  end.

Definition nextSibling (pg : Page) (id : nat) : option nat :=
  option_map nodeId (nextIn id (siblings pg id)).
Definition previousSibling (pg : Page) (id : nat) : option nat :=
  option_map nodeId (prevIn id (siblings pg id)).

(** [editorRef.current.contains(node)] *)
Definition editorContains (pg : Page) (r : NodeRef) : bool :=
  match editor pg, r with
  | None, _ => false
  | Some _, EditorRoot => true
  | Some cs, Ref id => existsb (containsId id) cs
  end.

(** [node.textContent] *)
Definition textContentOf (pg : Page) (r : NodeRef) : jsstring :=
  match r with
  | EditorRoot => flat_map textContent (editorNodes pg)
  | Ref id => match resolve pg id with Some n => textContent n | None => [] end
  end.

(** The number of units a boundary offset may range over: the length of the
    data of a text node, the number of children of an element. *)
Definition nodeLength (pg : Page) (r : NodeRef) : nat :=
  match r with
  | EditorRoot => length (editorNodes pg)
  | Ref id => match resolve pg id with
              | Some (TextNode _ d) => length d
              | Some (Element _ _ _ cs) => length cs
              | None => 0
              end
  end.

(** *** The text of a range

    [prefixIn id off n] is the text of [n] that lies before the boundary point
    [(id, off)], when the point is in [n]. *)
Fixpoint prefixIn (id off : nat) (n : Node) : option jsstring :=
  match n with
  | TextNode i d => if Nat.eqb i id then Some (firstn off d) else None
  | Element i _ _ cs =>
      if Nat.eqb i id then Some (flat_map textContent (firstn off cs))
      else (fix go (l : list Node) : option jsstring :=
              match l with
              | [] => None
              | c :: r =>
                  match prefixIn id off c with
                  | Some t => Some t
                  | None => option_map (app (textContent c)) (go r)
                  end
              end) cs
  end.

Fixpoint prefixForest (id off : nat) (l : list Node) : option jsstring :=
  match l with
  | [] => None
  | c :: r =>
      match prefixIn id off c with
      | Some t => Some t
      | None => option_map (app (textContent c)) (prefixForest id off r)
      end
  end.

(** The text of the page before a boundary point. *)
Definition textBefore (pg : Page) (b : Boundary) : jsstring :=
  match container b with
  | EditorRoot => flat_map textContent (firstn (offset b) (editorNodes pg))
  | Ref id => match prefixForest id (offset b) (allNodes pg) with
              | Some t => t
              | None => []
              end
  end.

(** [selection.toString()] and [range.toString()]: the text data between the
    two boundary points (the stringifier of a range; a selection within one
    block has no line breaks of its own to add). *)
Definition selectionText (pg : Page) (s : Selection) : jsstring :=
  let a := textBefore pg (anchor s) in
  let f := textBefore pg (focus s) in
  if Nat.leb (length a) (length f) then skipn (length a) f else skipn (length f) a.

(** *** Mutations *)

(** [Rejection] is the reason of a rejected promise, rethrown by [await]. *)
Inductive Exn : Type := NotFoundError | IndexSizeError | TypeError | Rejection.

Inductive Result (A : Type) : Type :=
| Ok (a : A)
| Throw (e : Exn).
Arguments Ok {A} a.
Arguments Throw {A} e.

Fixpoint indexOf (id : nat) (cs : list Node) : nat :=
  match cs with
  | [] => 0
  | c :: r => if hasId id c then 0 else S (indexOf id r)
  end.

Definition mapBoundaries (f : Boundary -> Boundary) (pg : Page) : Page :=
  setSelection
    (option_map (fun s => mkSelection (f (anchor s)) (f (focus s))) (selection pg))
    pg.

(** What the removal of the node [id] does to a boundary point of a live
    range: a point inside the removed tree moves to where the tree was, a
    point after it in the same parent moves one child back ([shift]; not when
    another node takes the place at once). *)
Definition afterRemoval (shift : bool) (pg : Page) (id : nat) (b : Boundary)
  : Boundary :=
  match parentRef pg id with
  | None => b
  | Some p =>
      let i := indexOf id (siblings pg id) in
      let inside := match container b, resolve pg id with
                    | Ref c, Some n => containsId c n
                    | _, _ => false
                    end in
      if inside then mkBoundary p i
      else if shift && refEqb (container b) p && Nat.ltb i (offset b)
           then mkBoundary p (offset b - 1)
           else b
  end.

(** The node [id] is taken out of every forest of the page. *)
Definition unlink (id : nat) (pg : Page) : Page :=
  let pg1 := mapBoundaries (afterRemoval true pg id) pg in
  setOthers (removeForest id (others pg1))
    (setEditor (option_map (removeForest id) (editor pg1)) pg1).

(** [node.remove()]: the node leaves its parent and stays around, detached. *)
Definition removeNode (id : nat) (pg : Page) : Page :=
  match parentNode pg id, resolve pg id with
  | NoParent, _ => pg
  | _, None => pg
  | _, Some n => let pg1 := unlink id pg in setOthers (others pg1 ++ [n]) pg1
  end.

Definition afterRootInsertion (i : nat) (b : Boundary) : Boundary :=
  if refEqb (container b) EditorRoot && Nat.ltb i (offset b)
  then mkBoundary EditorRoot (S (offset b))
  else b.

(** [editorRef.current.insertBefore(node, ref)].  A reference child that is
    not a child of the root raises [NotFoundError]; a node inserted before
    itself goes before its next sibling, that is, stays in place. *)
Definition insertBefore (node : nat) (ref : option nat) (pg : Page) : Result Page :=
  match editor pg with
  | None => Throw TypeError
  | Some cs =>
      let refOk := match ref with
                   | Some r => existsb (hasId r) cs
                   | None => true
                   end in
      if negb refOk then Throw NotFoundError
      else
        let ref' := match ref with
                    | Some r => if Nat.eqb r node then nextSibling pg node else ref
                    | None => None
                    end in
        match resolve pg node with
        | None => Ok pg
        | Some n =>
            let pg1 := unlink node pg in
            let cs1 := editorNodes pg1 in
            let i := match ref' with Some r => indexOf r cs1 | None => length cs1 end in
            Ok (mapBoundaries (afterRootInsertion i)
                  (setEditor (Some (insertAt ref' n cs1)) pg1))
        end
  end.

(** [editorRef.current.appendChild(node)] *)
Definition appendChild (node : nat) (pg : Page) : Result Page :=
  insertBefore node None pg.

(** [document.createElement(name)] and [document.createTextNode(data)]: a new
    node, detached. *)
Definition createElement (nm : jsstring) (pg : Page) : nat * Page :=
  (nextId pg,
   setNextId (S (nextId pg)) (setOthers (others pg ++ [Element (nextId pg) nm [] []]) pg)).

Definition createTextNode (d : jsstring) (pg : Page) : nat * Page :=
  (nextId pg,
   setNextId (S (nextId pg)) (setOthers (others pg ++ [TextNode (nextId pg) d]) pg)).

(** Every node [id] of the page is replaced by [new]. *)
Definition substPage (id : nat) (new : list Node) (pg : Page) : Page :=
  setOthers (substForest id new (others pg))
    (setEditor (option_map (substForest id new) (editor pg)) pg).

(** [el.innerHTML = html] on the element [id]. *)
Definition setInnerHTMLOf (id : nat) (html : jsstring) (pg : Page) : Page :=
  match resolve pg id with
  | Some (Element i nm a old) =>
      let r := parse html (nextId pg) in
      let pg1 := substPage id [Element i nm a (fst r)] pg in
      setNextId (snd r) (setOthers (others pg1 ++ old) pg1)
  | _ => pg
  end.

(** [editorRef.current.innerHTML = html]: the children are replaced by the
    parsed fragment; the old ones are detached and the boundary points that
    were in the root collapse to its start. *)
Definition setEditorHTML (html : jsstring) (pg : Page) : Page :=
  match editor pg with
  | None => pg
  | Some old =>
      let r := parse html (nextId pg) in
      let moved := fun b => if editorContains pg (container b)
                            then mkBoundary EditorRoot 0 else b in
      setNextId (snd r)
        (setOthers (others pg ++ old)
           (setEditor (Some (fst r)) (mapBoundaries moved pg)))
  end.

(** [el.replaceWith(new)], [new] being a detached node: [el] leaves its
    parent and [new] takes its place. *)
Definition replaceWith (el new : nat) (pg : Page) : Page :=
  match parentNode pg el, resolve pg el, resolve pg new with
  | NoParent, _, _ => pg
  | _, Some e, Some n =>
      let pg1 := mapBoundaries (afterRemoval false pg el) pg in
      let pg2 := setOthers (removeForest new (others pg1)) pg1 in
      let pg3 := substPage el [n] pg2 in
      setOthers (others pg3 ++ [e]) pg3
  | _, _, _ => pg
  end.

(** *** The class list of an element *)

Fixpoint getAttr (k : jsstring) (attrs : list (jsstring * jsstring)) : option jsstring :=
  match attrs with
  | [] => None
  | a :: r => if streq (fst a) k then Some (snd a) else getAttr k r
  end.

Fixpoint setAttr (k v : jsstring) (attrs : list (jsstring * jsstring))
  : list (jsstring * jsstring) :=
  match attrs with
  | [] => [(k, v)]
  | a :: r => if streq (fst a) k then (k, v) :: r else a :: setAttr k v r
  end.

Fixpoint dedup (l : list jsstring) : list jsstring :=
  match l with
  | [] => []
  | t :: r => t :: filter (fun x => negb (streq x t)) (dedup r)
  end.

(** The token set of a [class] value and its serialisation. *)
Definition classTokens (v : jsstring) : list jsstring :=
  dedup (filter truthy (splitRunsFrom isTagSpace false [] v)).

Definition joinTokens (l : list jsstring) : jsstring :=
  match l with
  | [] => []
  | t :: r => t ++ flat_map (fun x => 32%N :: x) r
  end.

Definition classAttr : jsstring := lit "class".

(** [el.classList.add(tok)] and [el.classList.remove(tok)] as functions of the
    element. *)
Definition addClass (tok : jsstring) (n : Node) : Node :=
  match n with
  | TextNode _ _ => n
  | Element i nm a cs =>
      let toks := classTokens (match getAttr classAttr a with Some v => v | None => [] end) in
      let toks' := if memStr tok toks then toks else toks ++ [tok] in
      Element i nm (setAttr classAttr (joinTokens toks') a) cs
  end.

Definition removeClass (tok : jsstring) (n : Node) : Node :=
  match n with
  | TextNode _ _ => n
  | Element i nm a cs =>
      match getAttr classAttr a with
      | None => n
      | Some v =>
          Element i nm
            (setAttr classAttr
               (joinTokens (filter (fun x => negb (streq x tok)) (classTokens v))) a)
            cs
      end
  end.

(** A text node has no [classList]: reading it raises [TypeError]. *)
Definition updateClassList (f : Node -> Node) (id : nat) (pg : Page) : Result Page :=
  match resolve pg id with
  | Some (Element i nm a cs) => Ok (substPage id [f (Element i nm a cs)] pg)
  | Some (TextNode _ _) => Throw TypeError
  | None => Ok pg
  end.

(** *** Ranges *)

(** [range.setStart(node, s); range.setEnd(node, e)]: an offset beyond the
    length of the node raises [IndexSizeError]. *)
Definition makeRange (pg : Page) (node : NodeRef) (s e : nat) : Result Selection :=
  if Nat.ltb (nodeLength pg node) s || Nat.ltb (nodeLength pg node) e
  then Throw IndexSizeError
  else Ok (mkSelection (mkBoundary node (Nat.min s e)) (mkBoundary node e)).

(** [range.selectNodeContents(editorRef.current); range.collapse(false)] *)
Definition endOfEditor (pg : Page) : Selection :=
  let b := mkBoundary EditorRoot (length (editorNodes pg)) in mkSelection b b.

(** *** Editing commands ([document.execCommand])

    The commands the editor relies on, for a selection that lies in the
    editable root with both ends in one node: [delete], [insertHTML] and
    [formatBlock].  The result is [None] when the command does nothing (it is
    not enabled for the selection, or it is not one of the three): the
    formatting, list and alignment commands are left to the browser and have
    no effect here. *)

Definition lowOffset (s : Selection) : nat :=
  Nat.min (offset (anchor s)) (offset (focus s)).
Definition highOffset (s : Selection) : nat :=
  Nat.max (offset (anchor s)) (offset (focus s)).

Definition sameContainer (s : Selection) : bool :=
  refEqb (container (anchor s)) (container (focus s)).

Definition caretAt (r : NodeRef) (o : nat) : Selection :=
  mkSelection (mkBoundary r o) (mkBoundary r o).

(** The selection a command can act on. *)
Definition editableSelection (pg : Page) : option Selection :=
  match selection pg with
  | Some s =>
      if sameContainer s && editorContains pg (container (anchor s))
      then Some s else None
  | None => None
  end.

(** [delete]: the selected characters of a text node, or the character before
    the caret. *)
Definition execDelete (pg : Page) : option Page :=
  match editableSelection pg with
  | Some s =>
      match container (anchor s) with
      | Ref t =>
          match resolve pg t with
          | Some (TextNode _ d) =>
              let a := if isCollapsed s then lowOffset s - 1 else lowOffset s in
              let b := highOffset s in
              if Nat.ltb a b
              then Some (setSelection (Some (caretAt (Ref t) a))
                           (substPage t [TextNode t (firstn a d ++ skipn b d)] pg))
              else None
          | _ => None
          end
      | EditorRoot => None
      end
  | None => None
  end.

(** A text node for the data [d], or nothing when [d] is empty. *)
Definition textPiece (id : nat) (d : jsstring) : list Node :=
  match d with [] => [] | _ :: _ => [TextNode id d] end.

(** The caret at the end of the content of [n], if [n] can hold one. *)
Fixpoint caretAtEnd (n : Node) : option Boundary :=
  match n with
  | TextNode i d => Some (mkBoundary (Ref i) (length d))
  | Element i nm _ cs =>
      if isVoid nm then None
      else match fold_left (fun _ c => Some (caretAtEnd c)) cs None with
           | None => Some (mkBoundary (Ref i) 0)
           | Some (Some b) => Some b
           | Some None => Some (mkBoundary (Ref i) (length cs))
           end
  end.

(** The caret after inserted nodes [new] that end at child [after] of [p]. *)
Definition caretAfterInsertion (new : list Node) (p : NodeRef) (after : nat)
  : Selection :=
  match fold_left (fun _ c => Some (caretAtEnd c)) new None with
  | Some (Some b) => mkSelection b b
  | _ => caretAt p after
  end.

(** [insertHTML]: the selected content is replaced by the parsed fragment and
    the caret is left at the end of what was inserted.  The fragment is put
    where the selection is; the re-parenting of block content that a browser
    may add is not described. *)
Definition execInsertHTML (html : jsstring) (pg : Page) : option Page :=
  match editableSelection pg with
  | Some s =>
      let a := lowOffset s in
      let b := highOffset s in
      let r := parse html (nextId pg) in
      let new := fst r in
      match container (anchor s) with
      | EditorRoot =>
          let cs := editorNodes pg in
          Some (setSelection (Some (caretAfterInsertion new EditorRoot (a + length new)))
                  (setNextId (snd r)
                     (setOthers (others pg ++ firstn (b - a) (skipn a cs))
                        (setEditor (Some (firstn a cs ++ new ++ skipn b cs)) pg))))
      | Ref t =>
          match resolve pg t with
          | Some (TextNode _ d) =>
              let before := textPiece t (firstn a d) in
              let after := textPiece (snd r) (skipn b d) in
              let p := match parentRef pg t with Some p => p | None => EditorRoot end in
              let i := indexOf t (siblings pg t) in
              Some (setSelection
                      (Some (caretAfterInsertion new p (i + length before + length new)))
                      (setNextId (S (snd r))
                         (substPage t (before ++ new ++ after) pg)))
          | Some (Element i nm at0 cs) =>
              Some (setSelection (Some (caretAfterInsertion new (Ref t) (a + length new)))
                      (setNextId (snd r)
                         (setOthers (others pg ++ firstn (b - a) (skipn a cs))
                            (substPage t
                               [Element i nm at0 (firstn a cs ++ new ++ skipn b cs)] pg))))
          | None => None
          end
      end
  | None => None
  end.

(** [formatBlock]: the block that holds the anchor becomes an element of the
    given name with the same children. *)
Definition execFormatBlock (value : jsstring) (pg : Page) : option Page :=
  match editableSelection pg with
  | Some s =>
      match container (anchor s) with
      | Ref id =>
          match find (containsId id) (editorNodes pg) with
          | Some (Element i nm a cs) =>
              let new := Element (nextId pg) (toLowerAscii value) [] cs in
              Some (setNextId (S (nextId pg))
                      (setOthers (others pg ++ [Element i nm a []])
                         (setEditor
                            (Some (map (fun c => if hasId i c then new else c)
                                     (editorNodes pg))) pg)))
          | _ => None
          end
      | EditorRoot => None
      end
  | None => None
  end.

Definition nativeExecCommand (command : jsstring) (value : option jsstring)
  (pg : Page) : option Page :=
  if streq command (lit "delete") then execDelete pg
  else if streq command (lit "insertHTML") then
    execInsertHTML (match value with Some v => v | None => [] end) pg
  else if streq command (lit "formatBlock") then
    execFormatBlock (match value with Some v => v | None => [] end) pg
  else None.

End Browser.

Import Browser.

(* ===================================================================== *)
(** ** The component: state, effects and event handlers *)
(* ===================================================================== *)

Module RichEditor.

(** *** Geometry

    The coordinates that the layout engine answers, the positions of the
    pointer and the positions the component computes from them are JavaScript
    numbers: IEEE 754 binary64 values.  They are the floats of the kernel,
    and [+], [-], [/] and [<?] on them are the operations of the processor,
    each rounding to the nearest value. *)

Record Rect : Type := mkRect { top : float; left : float; width : float; height : float }.
Definition bottom (r : Rect) : float := (top r + height r)%float.

(** What the layout engine answers for a page: the bounding rectangle of the
    root and of each node, and that of the range of the selection. *)
Record Layout : Type := mkLayout { rectOf : NodeRef -> Rect; rangeRect : Rect }.

(** *** The state of the component (its [useState] cells) *)

Inductive AiMode : Type := AiNone | AiPrompt | AiLoading.
Inductive DropPos : Type := Before | After.

Record Pos : Type := mkPos { posTop : float; posLeft : float }.
Record Indicator : Type :=
  mkIndicator { indTop : float; indLeft : float; indWidth : float }.
Record DropTarget : Type := mkDropTarget { el : nat; pos : DropPos }.

Record State : Type := mkState {
  showMenu : bool;
  menuPos : Pos;
  activeBlock : option nat;
  activeBlockTop : float;
  showSideControls : bool;
  showBlockOptions : bool;
  isDragging : bool;
  dropIndicator : option Indicator;
  dropTargetInfo : option DropTarget;
  showBubbleMenu : bool;
  bubbleMenuPos : Pos;
  selectionRange : option Selection;
  aiMode : AiMode;
  aiPrompt : jsstring;
  wordCount : nat;
  readingTime : Z
}.

Definition initialState : State :=
  mkState false (mkPos 0 0) None 0 false false false None None
          false (mkPos 0 0) None AiNone [] 0 0.

Definition setShowMenu (b : bool) (s : State) : State :=
  mkState b (menuPos s) (activeBlock s) (activeBlockTop s) (showSideControls s)
    (showBlockOptions s) (isDragging s) (dropIndicator s) (dropTargetInfo s)
    (showBubbleMenu s) (bubbleMenuPos s) (selectionRange s) (aiMode s) (aiPrompt s)
    (wordCount s) (readingTime s).
Definition setMenuPos (p : Pos) (s : State) : State :=
  mkState (showMenu s) p (activeBlock s) (activeBlockTop s) (showSideControls s)
    (showBlockOptions s) (isDragging s) (dropIndicator s) (dropTargetInfo s)
    (showBubbleMenu s) (bubbleMenuPos s) (selectionRange s) (aiMode s) (aiPrompt s)
    (wordCount s) (readingTime s).
Definition setActiveBlock (b : option nat) (s : State) : State :=
  mkState (showMenu s) (menuPos s) b (activeBlockTop s) (showSideControls s)
    (showBlockOptions s) (isDragging s) (dropIndicator s) (dropTargetInfo s)
    (showBubbleMenu s) (bubbleMenuPos s) (selectionRange s) (aiMode s) (aiPrompt s)
    (wordCount s) (readingTime s).
Definition setActiveBlockTop (t : float) (s : State) : State :=
  mkState (showMenu s) (menuPos s) (activeBlock s) t (showSideControls s)
    (showBlockOptions s) (isDragging s) (dropIndicator s) (dropTargetInfo s)
    (showBubbleMenu s) (bubbleMenuPos s) (selectionRange s) (aiMode s) (aiPrompt s)
    (wordCount s) (readingTime s).
Definition setShowSideControls (b : bool) (s : State) : State :=
  mkState (showMenu s) (menuPos s) (activeBlock s) (activeBlockTop s) b
    (showBlockOptions s) (isDragging s) (dropIndicator s) (dropTargetInfo s)
    (showBubbleMenu s) (bubbleMenuPos s) (selectionRange s) (aiMode s) (aiPrompt s)
    (wordCount s) (readingTime s).
Definition setShowBlockOptions (b : bool) (s : State) : State :=
  mkState (showMenu s) (menuPos s) (activeBlock s) (activeBlockTop s) (showSideControls s)
    b (isDragging s) (dropIndicator s) (dropTargetInfo s)
    (showBubbleMenu s) (bubbleMenuPos s) (selectionRange s) (aiMode s) (aiPrompt s)
    (wordCount s) (readingTime s).
Definition setIsDragging (b : bool) (s : State) : State :=
  mkState (showMenu s) (menuPos s) (activeBlock s) (activeBlockTop s) (showSideControls s)
    (showBlockOptions s) b (dropIndicator s) (dropTargetInfo s)
    (showBubbleMenu s) (bubbleMenuPos s) (selectionRange s) (aiMode s) (aiPrompt s)
    (wordCount s) (readingTime s).
Definition setDropIndicator (i : option Indicator) (s : State) : State :=
  mkState (showMenu s) (menuPos s) (activeBlock s) (activeBlockTop s) (showSideControls s)
    (showBlockOptions s) (isDragging s) i (dropTargetInfo s)
    (showBubbleMenu s) (bubbleMenuPos s) (selectionRange s) (aiMode s) (aiPrompt s)
    (wordCount s) (readingTime s).
Definition setDropTargetInfo (d : option DropTarget) (s : State) : State :=
  mkState (showMenu s) (menuPos s) (activeBlock s) (activeBlockTop s) (showSideControls s)
    (showBlockOptions s) (isDragging s) (dropIndicator s) d
    (showBubbleMenu s) (bubbleMenuPos s) (selectionRange s) (aiMode s) (aiPrompt s)
    (wordCount s) (readingTime s).
Definition setShowBubbleMenu (b : bool) (s : State) : State :=
  mkState (showMenu s) (menuPos s) (activeBlock s) (activeBlockTop s) (showSideControls s)
    (showBlockOptions s) (isDragging s) (dropIndicator s) (dropTargetInfo s)
    b (bubbleMenuPos s) (selectionRange s) (aiMode s) (aiPrompt s)
    (wordCount s) (readingTime s).
Definition setBubbleMenuPos (p : Pos) (s : State) : State :=
  mkState (showMenu s) (menuPos s) (activeBlock s) (activeBlockTop s) (showSideControls s)
    (showBlockOptions s) (isDragging s) (dropIndicator s) (dropTargetInfo s)
    (showBubbleMenu s) p (selectionRange s) (aiMode s) (aiPrompt s)
    (wordCount s) (readingTime s).
Definition setSelectionRange (r : option Selection) (s : State) : State :=
  mkState (showMenu s) (menuPos s) (activeBlock s) (activeBlockTop s) (showSideControls s)
    (showBlockOptions s) (isDragging s) (dropIndicator s) (dropTargetInfo s)
    (showBubbleMenu s) (bubbleMenuPos s) r (aiMode s) (aiPrompt s)
    (wordCount s) (readingTime s).
Definition setAiMode (m : AiMode) (s : State) : State :=
  mkState (showMenu s) (menuPos s) (activeBlock s) (activeBlockTop s) (showSideControls s)
    (showBlockOptions s) (isDragging s) (dropIndicator s) (dropTargetInfo s)
    (showBubbleMenu s) (bubbleMenuPos s) (selectionRange s) m (aiPrompt s)
    (wordCount s) (readingTime s).
Definition setAiPrompt (p : jsstring) (s : State) : State :=
  mkState (showMenu s) (menuPos s) (activeBlock s) (activeBlockTop s) (showSideControls s)
    (showBlockOptions s) (isDragging s) (dropIndicator s) (dropTargetInfo s)
    (showBubbleMenu s) (bubbleMenuPos s) (selectionRange s) (aiMode s) p
    (wordCount s) (readingTime s).
Definition setWordCount (n : nat) (s : State) : State :=
  mkState (showMenu s) (menuPos s) (activeBlock s) (activeBlockTop s) (showSideControls s)
    (showBlockOptions s) (isDragging s) (dropIndicator s) (dropTargetInfo s)
    (showBubbleMenu s) (bubbleMenuPos s) (selectionRange s) (aiMode s) (aiPrompt s)
    n (readingTime s).
Definition setReadingTime (t : Z) (s : State) : State :=
  mkState (showMenu s) (menuPos s) (activeBlock s) (activeBlockTop s) (showSideControls s)
    (showBlockOptions s) (isDragging s) (dropIndicator s) (dropTargetInfo s)
    (showBubbleMenu s) (bubbleMenuPos s) (selectionRange s) (aiMode s) (aiPrompt s)
    (wordCount s) t.

(** *** The world a handler runs in *)

(** Callbacks handed to [setTimeout] and [requestAnimationFrame]. *)
Inductive Task : Type :=
| UpdateActiveBlockTask   (* [setTimeout(updateActiveBlock, d)] *)
| CheckSelectionTask      (* the frame callback of [checkSelection] *)
| DimBlockTask.           (* the frame callback of [handleDragStart] *)

(** A scheduled callback keeps the state of the render it was created in. *)
Record Timer : Type := mkTimer { task : Task; delay : nat; closure : State }.

Record World : Type := mkWorld {
  page : Page;
  ui : State;
  emitted : list jsstring;                  (* the arguments of the calls of [onChange], oldest first *)
  aiRequests : list (jsstring * jsstring);  (* the arguments of the calls of [onAiRequest] *)
  aiPending : nat;                          (* the promises of [onAiRequest] not settled yet *)
  timers : list Timer;
  hasOnAiRequest : bool;                    (* the optional prop [onAiRequest] is given *)
  rendered : option jsstring                (* the [content] prop of the last render *)
}.

Definition setPage (pg : Page) (w : World) : World :=
  mkWorld pg (ui w) (emitted w) (aiRequests w) (aiPending w) (timers w) (hasOnAiRequest w)
    (rendered w).
Definition setUi (s : State) (w : World) : World :=
  mkWorld (page w) s (emitted w) (aiRequests w) (aiPending w) (timers w) (hasOnAiRequest w)
    (rendered w).
Definition upd (f : State -> State) (w : World) : World := setUi (f (ui w)) w.

(** [onChange(html)] *)
Definition onChange (html : jsstring) (w : World) : World :=
  mkWorld (page w) (ui w) (emitted w ++ [html]) (aiRequests w) (aiPending w)
    (timers w) (hasOnAiRequest w)
    (rendered w).

Definition onAiRequest (text instruction : jsstring) (w : World) : World :=
  mkWorld (page w) (ui w) (emitted w) (aiRequests w ++ [(text, instruction)])
    (S (aiPending w)) (timers w) (hasOnAiRequest w)
    (rendered w).

(** The promise of a request settles. *)
Definition settle (w : World) : World :=
  mkWorld (page w) (ui w) (emitted w) (aiRequests w) (aiPending w - 1) (timers w)
    (hasOnAiRequest w)
    (rendered w).

Definition schedule (t : Task) (d : nat) (r : State) (w : World) : World :=
  mkWorld (page w) (ui w) (emitted w) (aiRequests w) (aiPending w)
    (timers w ++ [mkTimer t d r]) (hasOnAiRequest w)
    (rendered w).

(** A handler returns, or an exception leaves it with the world as it was
    when it was raised. *)
Inductive Outcome : Type :=
| Done (w : World)
| Raised (e : Exn) (w : World).

Definition final (o : Outcome) : World :=
  match o with Done w => w | Raised _ w => w end.

Definition andThen (o : Outcome) (k : World -> Outcome) : Outcome :=
  match o with Done w => k w | Raised e w => Raised e w end.

Notation "'do' w <- o ; k" := (andThen o (fun w => k))
  (at level 10, w name, o at level 100, k at level 200).

Definition liftPage (r : Result Page) (w : World) : Outcome :=
  match r with Ok pg => Done (setPage pg w) | Throw e => Raised e w end.

(** [editorRef.current?.innerHTML || ''] *)
Definition currentHTML (w : World) : jsstring :=
  match editor (page w) with Some cs => innerHTML cs | None => [] end.

Section Handlers.

(** The layout engine of the browser. *)
Variable layoutOf : Page -> Layout.

(** In every handler [r] is the state of the render the handler was created
    in: reads of state variables go to [r], the setters act on the world. *)

(** *** Synchronisation with the [content] prop *)

Definition syncEffect (content : jsstring) (w : World) : World :=
  match editor (page w) with
  | Some cs =>
      let currentHTML := innerHTML cs in
      if negb (streq content currentHTML) then
        let isFocused := editorFocused (page w) in
        if negb isFocused
           || Z.ltb 10 (Z.abs (Z.of_nat (length content) - Z.of_nat (length currentHTML)))
           || streq content []
        then setPage (setEditorHTML content (page w)) w
        else w
      else w
  | None => w
  end.

Definition statsEffect (w : World) : World :=
  let text := match editor (page w) with
              | Some cs => orElse (innerTextOf cs) []
              | None => []
              end in
  let words := countWords text in
  upd (setReadingTime (computeReadingTime words)) (upd (setWordCount words) w).

(** The effects run, in this order, when the [content] prop has changed. *)
Definition contentEffects (content : jsstring) (w : World) : World :=
  statsEffect (syncEffect content w).

(** *** The active block *)

(** The walk from a node up to the child of the root that holds it. *)
Definition topAncestor (pg : Page) (r : NodeRef) : option Node :=
  match r with
  | EditorRoot => None
  | Ref id => find (containsId id) (editorNodes pg)
  end.

Definition updateActiveBlock (r : State) (w : World) : Outcome :=
  let hide := fun w => if isDragging r then w else upd (setShowSideControls false) w in
  match selection (page w), editor (page w) with
  | Some sel, Some _ =>
      match topAncestor (page w) (container (anchor sel)) with
      | Some el =>
          if isElement el then
            let editorRect := rectOf (layoutOf (page w)) EditorRoot in
            let blockRect := rectOf (layoutOf (page w)) (Ref (nodeId el)) in
            Done (upd (setShowSideControls true)
                 (upd (setActiveBlockTop
                         (top blockRect - top editorRect + scrollTop (page w))%float)
                 (upd (setActiveBlock (Some (nodeId el))) w)))
          else Raised TypeError w
      | None => Done (hide w)
      end
  | _, _ => Done (hide w)
  end.

Definition handleInput (r : State) (w0 : World) : Outcome :=
  match editor (page w0) with
  | None => Done w0
  | Some cs =>
      do w <- updateActiveBlock r (onChange (innerHTML cs) w0);
      match selection (page w) with
      | Some sel =>
          let text := orElse (textContentOf (page w) (container (focus sel))) [] in
          if endsWith text (lit "/") && negb (showMenu r) then
            let rect := rangeRect (layoutOf (page w)) in
            let editorRect := rectOf (layoutOf (page w)) EditorRoot in
            Done (upd (setShowMenu true)
                 (upd (setMenuPos
                         (mkPos (bottom rect - top editorRect + scrollTop (page w) + 5)%float
                                (left rect - left editorRect)%float)) w))
          else if negb (includesChar text 47%N) then
            Done (upd (setShowMenu false) w)
          else Done w
      | None => Done w
      end
  end.

(** [document.execCommand(command, false, value)]: a command that acts fires
    an [input] event on the root, which [handleInput] receives; an exception
    in that listener does not reach the caller. *)
Definition documentExecCommand (r : State) (command : jsstring)
  (value : option jsstring) (w : World) : World :=
  match nativeExecCommand command value (page w) with
  | Some pg => final (handleInput r (setPage pg w))
  | None => w
  end.

(** *** Drag and drop *)

Definition dimClass : jsstring := lit "opacity-40".

Definition handleDragStart (r : State) (w : World) : Outcome :=
  match activeBlock r with
  | None => Done w
  | Some _ =>
      Done (schedule DimBlockTask 0 r
           (upd (setShowBlockOptions false) (upd (setIsDragging true) w)))
  end.

(** The frame callback of [handleDragStart]. *)
Definition dimBlock (r : State) (w : World) : Outcome :=
  match activeBlock r with
  | Some b => liftPage (updateClassList (addClass dimClass) b (page w)) w
  | None => Done w
  end.

Definition handleDragEnd (r : State) (w0 : World) : Outcome :=
  let w := upd (setDropTargetInfo None)
             (upd (setDropIndicator None) (upd (setIsDragging false) w0)) in
  match activeBlock r with
  | Some b => liftPage (updateClassList (removeClass dimClass) b (page w)) w
  | None => Done w
  end.

(** [rect.top + rect.height / 2] *)
Definition center (rect : Rect) : float := (top rect + height rect / 2)%float.

(** The body of the [forEach] of [handleDragOver], on the pair
    [(closest, minDiff)]. *)
Definition scanChild (lay : Layout) (active : nat) (clientY : float)
  (acc : option nat * float) (child : Node) : option nat * float :=
  if hasId active child then acc
  else
    let rect := rectOf lay (Ref (nodeId child)) in
    let diff := PrimFloat.abs (clientY - center rect) in
    if (diff <? snd acc)%float && (diff <? 150)%float
    then (Some (nodeId child), diff)
    else acc.

(** [editorRef.current.children]: the element children. *)
Definition elementChildren (cs : list Node) : list Node := filter isElement cs.

(** [closest] after the scan; [minDiff] starts at [Infinity]. *)
Definition closestBlock (lay : Layout) (active : nat) (clientY : float) (cs : list Node)
  : option nat :=
  fst (fold_left (scanChild lay active clientY) (elementChildren cs)
         (None, PrimFloat.infinity)).

Definition handleDragOver (clientY : float) (r : State) (w : World) : Outcome :=
  match isDragging r, editor (page w), activeBlock r with
  | true, Some cs, Some active =>
      let lay := layoutOf (page w) in
      match closestBlock lay active clientY cs with
      | Some closest =>
          let rect := rectOf lay (Ref closest) in
          let isBefore := (clientY <? top rect + height rect / 2)%float in
          Done (upd (setDropTargetInfo
                       (Some (mkDropTarget closest (if isBefore then Before else After))))
               (upd (setDropIndicator
                       (Some (mkIndicator (if isBefore then top rect else bottom rect)
                                (left rect) (width rect)))) w))
      | None =>
          Done (upd (setDropTargetInfo None) (upd (setDropIndicator None) w))
      end
  | _, _, _ => Done w
  end.

Definition handleDrop (r : State) (w0 : World) : Outcome :=
  match isDragging r, activeBlock r, dropTargetInfo r, editor (page w0) with
  | true, Some active, Some target, Some _ =>
      do w <- liftPage
                (match pos target with
                 | Before => insertBefore active (Some (el target)) (page w0)
                 | After => insertBefore active (nextSibling (page w0) (el target)) (page w0)
                 end) w0;
      do w <- handleDragEnd r (onChange (currentHTML w) w);
      Done (schedule UpdateActiveBlockTask 50 r w)
  | _, _, _, _ => handleDragEnd r w0
  end.

(** *** Inline code *)

(** The element [toggleInlineCode] and [handleKeyDown] inspect: the anchor
    node, or its parent when the anchor is a text node.  The root itself and
    no node at all both give [None]. *)
Definition anchorElement (pg : Page) (sel : Selection) : option Node :=
  match container (anchor sel) with
  | EditorRoot => None
  | Ref id =>
      match resolve pg id with
      | Some (TextNode _ _) =>
          match parentNode pg id with
          | ElementParent p => Some p
          | _ => None
          end
      | other => other
      end
  end.

Definition codeOpen : jsstring :=
  tpl "<code class=`bg-neutral-200 dark:bg-[#2a2a2a] text-red-500 dark:text-[#EB5757] px-1.5 py-0.5 rounded text-[0.9em] font-mono border border-neutral-300 dark:border-white/5 mx-0.5`>".

Definition codeClose : jsstring := lit "</code>".

(** [el && el.tagName === 'CODE'] *)
Definition isCodeElement (e : option Node) : bool :=
  match e with
  | Some n => streq (tagName n) (lit "CODE")
  | None => false
  end.

Definition toggleInlineCode (r : State) (w0 : World) : Outcome :=
  match selection (page w0) with
  | None => Done w0
  | Some sel =>
      let e := anchorElement (page w0) sel in
      let w :=
        match e with
        | Some n =>
            if isCodeElement e then
              let t := createTextNode (innerText n) (page w0) in
              let w1 := setPage (replaceWith (nodeId n) (fst t) (snd t)) w0 in
              onChange (currentHTML w1) w1
            else
              let text := selectionText (page w0) sel in
              if truthy text then
                upd (setShowBubbleMenu false)
                  (documentExecCommand r (lit "insertHTML")
                     (Some (codeOpen ++ text ++ codeClose)) w0)
              else w0
        | None =>
            let text := selectionText (page w0) sel in
            if truthy text then
              upd (setShowBubbleMenu false)
                (documentExecCommand r (lit "insertHTML")
                   (Some (codeOpen ++ text ++ codeClose)) w0)
            else w0
        end in
      Done (onChange (currentHTML w) w)
  end.

(** *** Keys and the selection *)

(** The keys [handleKeyDown] tells apart: Ctrl or Cmd with E, and the rest
    (Enter inside a [pre] or a [blockquote], which inserts a line break by
    hand, is not described). *)
Inductive Key : Type := KeyToggleCode | KeyOther.

Definition handleKeyDown (k : Key) (r : State) (w : World) : Outcome :=
  match k with
  | KeyToggleCode => toggleInlineCode r w
  | KeyOther => Done (schedule UpdateActiveBlockTask 0 r w)
  end.

Definition checkSelection (r : State) (w : World) : Outcome :=
  Done (schedule CheckSelectionTask 0 r w).

(** The frame callback of [checkSelection]. *)
Definition checkSelectionFrame (r : State) (w0 : World) : Outcome :=
  do w <- updateActiveBlock r w0;
  let closeIfIdle := fun w =>
    match aiMode r with
    | AiNone => Done (upd (setShowBubbleMenu false) w)
    | _ => Done w
    end in
  match selection (page w) with
  | Some sel =>
      if negb (isCollapsed sel) && editorContains (page w) (container (anchor sel)) then
        let text := trim (selectionText (page w) sel) in
        if Nat.ltb 0 (length text) then
          let rect := rangeRect (layoutOf (page w)) in
          let editorRect := rectOf (layoutOf (page w)) EditorRoot in
          Done (upd (setShowBubbleMenu true)
               (upd (setBubbleMenuPos
                       (mkPos (top rect - top editorRect + scrollTop (page w) - 60)%float
                              (left rect - left editorRect + width rect / 2 - 220)%float))
               (upd (setSelectionRange (Some sel)) w)))
        else closeIfIdle w
      else closeIfIdle w
  | None => closeIfIdle w
  end.

(** A click in the editor (the image lightbox is not described). *)
Definition handleEditorClick (r : State) (w : World) : Outcome := checkSelection r w.

(** *** Commands *)

(** [editorRef.current?.focus()] *)
Definition focusEditor (pg : Page) : Page :=
  match editor pg with Some _ => setFocused true pg | None => pg end.

Definition execCommand (command : jsstring) (value : option jsstring) (r : State)
  (w0 : World) : Outcome :=
  let w1 := documentExecCommand r command value w0 in
  let w2 := setPage (focusEditor (page w1)) w1 in
  let w3 := onChange (currentHTML w2) w2 in
  if negb (streq command (lit "hiliteColor")) && negb (streq command (lit "backColor"))
     && negb (startsWith command (lit "justify"))
  then Done (upd (setShowMenu false) w3)
  else Done w3.

Definition insertHtml (html : jsstring) (r : State) (w0 : World) : Outcome :=
  match editor (page w0) with
  | None => Done w0
  | Some _ =>
      let w1 := setPage (focusEditor (page w0)) w0 in
      let inEditor := match selection (page w1) with
                      | Some sel => editorContains (page w1) (container (anchor sel))
                      | None => false
                      end in
      let w2 := if inEditor then w1
                else setPage (setSelection (Some (endOfEditor (page w1))) (page w1)) w1 in
      do w3 <-
        match selection (page w2) with
        | Some sel =>
            let node := container (focus sel) in
            let text := textContentOf (page w2) node in
            if endsWith text (lit "/") then
              match makeRange (page w2) node (length text - 1) (length text) with
              | Ok range =>
                  Done (documentExecCommand r (lit "delete") None
                          (setPage (setSelection (Some range) (page w2)) w2))
              | Throw e => Raised e w2
              end
            else Done w2
        | None => Done w2
        end;
      let w4 := documentExecCommand r (lit "insertHTML") (Some html) w3 in
      Done (upd (setShowMenu false) (onChange (currentHTML w4) w4))
  end.

Definition handleAddNextLine (r : State) (w0 : World) : Outcome :=
  match activeBlock r, editor (page w0) with
  | Some active, Some _ =>
      let created := createElement (lit "p") (page w0) in
      let newBlock := fst created in
      let pg1 := setInnerHTMLOf newBlock (lit "<br>") (snd created) in
      do w1 <- liftPage
                 (match nextSibling pg1 active with
                  | Some next => insertBefore newBlock (Some next) pg1
                  | None => appendChild newBlock pg1
                  end) (setPage pg1 w0);
      let w2 := setPage (setSelection (Some (caretAt (Ref newBlock) 0)) (page w1)) w1 in
      do w3 <- updateActiveBlock r w2;
      let rect := rectOf (layoutOf (page w3)) (Ref newBlock) in
      let editorRect := rectOf (layoutOf (page w3)) EditorRoot in
      Done (upd (setShowMenu true)
           (upd (setMenuPos
                   (mkPos (bottom rect - top editorRect + scrollTop (page w3) + 5)%float 0)) w3))
  | _, _ => Done w0
  end.

(** [handleAiAction] up to its [await]: the request is handed to the host. *)
Definition handleAiAction (instruction : jsstring) (customPrompt : option jsstring)
  (r : State) (w : World) : Outcome :=
  match selectionRange r, hasOnAiRequest w with
  | Some range, true =>
      Done (onAiRequest (selectionText (page w) range)
              (match customPrompt with
               | Some p => orElse p instruction
               | None => instruction
               end)
              (upd (setAiMode AiLoading) w))
  | _, _ => Done w
  end.

(** How the promise returned by [onAiRequest] settles. *)
Inductive Settled : Type := Fulfilled | Rejected.

(** [handleAiAction] after its [await]: the statements that follow run when
    the promise is fulfilled; a rejection is rethrown by [await] and ends the
    function there. *)
Definition handleAiActionResume (s : Settled) (w0 : World) : Outcome :=
  let w := settle w0 in
  match s with
  | Fulfilled =>
      Done (upd (setAiPrompt []) (upd (setShowBubbleMenu false) (upd (setAiMode AiNone) w)))
  | Rejected => Raised Rejection w
  end.

(** *** The host's [onAiRequest]

    The page of the application mounts the editor with its [handleAiImprove]
    as [onAiRequest].  That function returns
    [new Promise(async (resolve) => { try { ... } catch (e) { ... } finally { resolve(); } })]:
    the [try] block awaits the request and puts the answer in the place of
    the selection with the operations of its range, the [catch] block reports
    a failure, and the [finally] block calls [resolve].  [TryEnd] is how the
    [try] block ends, with the page as the operations on the range have left
    it.  The notifications go to the store of the application, which is no
    part of this world. *)
Inductive TryEnd : Type :=
| Completed (pg : Page)          (* the request was answered and the answer put in *)
| Failed (e : Exn) (pg : Page).  (* the request was rejected, or an operation raised *)

(** The run of [handleAiImprove] from the end of its [try] block on: how its
    promise settles, and the world it leaves. *)
Definition handleAiImprove (t : TryEnd) (w : World) : Settled * World :=
  let caught :=
    match t with
    | Completed pg => setPage pg w  (* [addNotification('success', 'Content refined')] *)
    | Failed _ pg => setPage pg w   (* [catch]: [addNotification('error', 'Improvement failed')] *)
    end in
  (Fulfilled, caught).              (* [finally]: [resolve()] *)

Inductive BlockAction : Type := ActionDelete | ActionDuplicate | ActionUp | ActionDown.

(** [activeBlock.cloneNode(true)] *)
Definition cloneOf (id : nat) (pg : Page) : nat * Page :=
  match resolve pg id with
  | Some n =>
      let c := cloneNode (nextId pg) n in
      (nextId pg, setNextId (snd c) (setOthers (others pg ++ [fst c]) pg))
  | None => (nextId pg, pg)
  end.

Definition handleBlockAction (action : BlockAction) (r : State) (w0 : World) : Outcome :=
  match activeBlock r, editor (page w0) with
  | Some active, Some _ =>
      let pg := page w0 in
      do w <-
        match action with
        | ActionDelete => Done (setPage (removeNode active pg) w0)
        | ActionDuplicate =>
            let c := cloneOf active pg in
            liftPage (insertBefore (fst c) (nextSibling (snd c) active) (snd c))
              (setPage (snd c) w0)
        | ActionUp =>
            match previousSibling pg active with
            | Some prev => liftPage (insertBefore active (Some prev) pg) w0
            | None => Done w0
            end
        | ActionDown =>
            match nextSibling pg active with
            | Some next => liftPage (insertBefore next (Some active) pg) w0
            | None => Done w0
            end
        end;
      Done (schedule UpdateActiveBlockTask 0 r
           (upd (setShowBlockOptions false) (onChange (currentHTML w) w)))
  | _, _ => Done w0
  end.

(** *** The block menu *)

Definition quoteHtml : jsstring :=
  tpl "<blockquote class=`border-l-4 border-neutral-900 dark:border-white pl-5 py-1 text-xl italic text-neutral-800 dark:text-white my-6`>Empty quote</blockquote>".

Definition calloutHtml : jsstring :=
  tpl "<div class=`flex items-start gap-4 p-4 bg-neutral-100 dark:bg-neutral-900 rounded-lg my-6 border border-neutral-200 dark:border-neutral-800`><span class=`text-xl`>"
  ++ [55357%N; 56481%N]
  ++ tpl "</span><div class=`flex-1`><strong class=`text-neutral-900 dark:text-white block mb-0.5`>Idea</strong><p class=`m-0 text-neutral-600 dark:text-neutral-400 text-sm`>Enter content...</p></div></div>".

Definition codeBlockHtml : jsstring :=
  tpl "<pre class=`bg-neutral-900 p-4 rounded-lg text-sm font-mono text-neutral-200 my-6 overflow-x-auto border border-white/5`><code>// Code</code></pre>".

Definition dividerHtml : jsstring :=
  tpl "<hr class=`border-neutral-200 dark:border-neutral-800 my-8` />".

Definition videoHtml (videoId : jsstring) : jsstring :=
  tpl "
            <div class=`relative w-full aspect-video my-6 rounded-xl overflow-hidden bg-neutral-900 shadow-xl group` contenteditable=`false`>
                <iframe 
                    src=`https://www.youtube.com/embed/"
  ++ videoId
  ++ tpl "` 
                    class=`absolute inset-0 w-full h-full` 
                    frameborder=`0` 
                    allow=`accelerometer; autoplay; clipboard-write; encrypted-media; gyroscope; picture-in-picture` 
                    allowfullscreen
                ></iframe>
                <div class=`absolute inset-0 pointer-events-none border border-white/5 rounded-xl`></div>
            </div>
        ".

Definition placeholderHtml (id promptText : jsstring) : jsstring :=
  tpl "
          <div id=`"
  ++ id
  ++ tpl "` class=`my-8 p-12 rounded-lg bg-neutral-100 dark:bg-neutral-900 border border-dashed border-neutral-300 dark:border-neutral-800 flex flex-col items-center justify-center text-neutral-500 gap-4 animate-pulse select-none` contenteditable=`false`>
              <span class=`text-3xl animate-spin`>"
  ++ [10024%N]
  ++ tpl "</span> 
              <span className=`font-medium`>Generating `"
  ++ promptText
  ++ tpl "`...</span>
          </div>
      ".

Definition imageHtml (src : jsstring) : jsstring :=
  tpl "
            <div class=`my-6 select-none group relative` contenteditable=`false`>
                <img src=`"
  ++ src
  ++ tpl "` class=`w-full rounded-xl shadow-lg` />
            </div>
        ".

Definition galleryItemHtml (src : jsstring) : jsstring :=
  tpl "<div class=`relative aspect-square overflow-hidden rounded-lg border border-neutral-200 dark:border-white/10 group cursor-pointer`>
                <img src=`"
  ++ src
  ++ tpl "` class=`w-full h-full object-cover transition-transform duration-700 group-hover:scale-110` />
            </div>".

Definition galleryHtml (imagesHtml : jsstring) : jsstring :=
  tpl "
            <div class=`my-2 select-none` contenteditable=`false`>
                <div class=`grid grid-cols-2 md:grid-cols-3 gap-2`>
                    "
  ++ imagesHtml
  ++ tpl "
                </div>
            </div>
        ".

(** [handleVideoEmbed]: [url] is the answer to the prompt and [videoId] the
    first group of the match of the address against the pattern of the
    source, both given by the caller. *)
Definition handleVideoEmbed (url videoId : option jsstring) (r : State) (w : World)
  : Outcome :=
  match url with
  | Some (_ :: _) =>
      match videoId with
      | Some (c :: v) => insertHtml (videoHtml (c :: v)) r w
      | _ => Done (upd (setShowMenu false) w)
      end
  | _ => Done (upd (setShowMenu false) w)
  end.

(** [handleGenerateAiImage] up to its first [await]: [promptText] is the
    answer to the prompt and [now] the decimal digits of [Date.now()]. *)
Definition handleGenerateAiImage (promptText : option jsstring) (now : jsstring)
  (r : State) (w : World) : Outcome :=
  match promptText with
  | Some (c :: t) => insertHtml (placeholderHtml (lit "loading-" ++ now) (c :: t)) r w
  | _ => Done (upd (setShowMenu false) w)
  end.

(** The [onload] callbacks of the file readers of [handleImageUpload] and
    [handleGalleryUpload]. *)
Definition imageLoaded (src : jsstring) (r : State) (w : World) : Outcome :=
  insertHtml (imageHtml src) r w.

Definition galleryLoaded (images : list jsstring) (r : State) (w : World) : Outcome :=
  insertHtml (galleryHtml (flat_map galleryItemHtml images)) r w.

(** The entries of [blockTypes], in order; the two entries that ask the user
    carry the answers. *)
Inductive MenuEntry : Type :=
| EntryText | EntryHeading1 | EntryHeading2 | EntryHeading3
| EntryBulletedList | EntryNumberedList
| EntryQuote | EntryCallout | EntryCodeBlock | EntryDivider
| EntryImage
| EntryAiImage (promptText : option jsstring) (now : jsstring)
| EntryGallery
| EntryVideo (url videoId : option jsstring).

Definition entryLabel (e : MenuEntry) : jsstring :=
  match e with
  | EntryText => lit "Text"
  | EntryHeading1 => lit "Heading 1"
  | EntryHeading2 => lit "Heading 2"
  | EntryHeading3 => lit "Heading 3"
  | EntryBulletedList => lit "Bulleted List"
  | EntryNumberedList => lit "Numbered List"
  | EntryQuote => lit "Quote"
  | EntryCallout => lit "Callout"
  | EntryCodeBlock => lit "Code Block"
  | EntryDivider => lit "Divider"
  | EntryImage => lit "Image"
  | EntryAiImage _ _ => lit "AI Image"
  | EntryGallery => lit "Gallery"
  | EntryVideo _ _ => lit "Video"
  end.

(** The [action] of an entry.  The image and gallery entries open a file
    picker and do nothing else. *)
Definition entryAction (e : MenuEntry) (r : State) (w : World) : Outcome :=
  match e with
  | EntryText => execCommand (lit "formatBlock") (Some (lit "P")) r w
  | EntryHeading1 => execCommand (lit "formatBlock") (Some (lit "H1")) r w
  | EntryHeading2 => execCommand (lit "formatBlock") (Some (lit "H2")) r w
  | EntryHeading3 => execCommand (lit "formatBlock") (Some (lit "H3")) r w
  | EntryBulletedList => execCommand (lit "insertUnorderedList") None r w
  | EntryNumberedList => execCommand (lit "insertOrderedList") None r w
  | EntryQuote => insertHtml quoteHtml r w
  | EntryCallout => insertHtml calloutHtml r w
  | EntryCodeBlock => insertHtml codeBlockHtml r w
  | EntryDivider => insertHtml dividerHtml r w
  | EntryImage => Done w
  | EntryAiImage promptText now => handleGenerateAiImage promptText now r w
  | EntryGallery => Done w
  | EntryVideo url videoId => handleVideoEmbed url videoId r w
  end.

(** *** Scheduled callbacks *)

Definition runTask (t : Task) (r : State) (w : World) : Outcome :=
  match t with
  | UpdateActiveBlockTask => updateActiveBlock r w
  | CheckSelectionTask => checkSelectionFrame r w
  | DimBlockTask => dimBlock r w
  end.

Definition setRendered (content : option jsstring) (w : World) : World :=
  mkWorld (page w) (ui w) (emitted w) (aiRequests w) (aiPending w) (timers w)
    (hasOnAiRequest w) content.

Definition setTimers (l : list Timer) (w : World) : World :=
  mkWorld (page w) (ui w) (emitted w) (aiRequests w) (aiPending w) l (hasOnAiRequest w)
    (rendered w).

(** The [n]-th pending callback runs. *)
Definition fire (n : nat) (w : World) : Outcome :=
  match nth_error (timers w) n with
  | Some tm =>
      runTask (task tm) (closure tm)
        (setTimers (firstn n (timers w) ++ skipn (S n) (timers w)) w)
  | None => Done w
  end.

(** *** Events *)

(** A character typed by the user: it replaces the selected characters of a
    text node of the root, and the caret follows it. *)
Definition nativeInsertText (c : jschar) (pg : Page) : option Page :=
  match editableSelection pg with
  | Some s =>
      match container (anchor s) with
      | Ref t =>
          match resolve pg t with
          | Some (TextNode _ d) =>
              let a := lowOffset s in
              let b := highOffset s in
              Some (setSelection (Some (caretAt (Ref t) (S a)))
                      (substPage t [TextNode t (firstn a d ++ [c] ++ skipn b d)] pg))
          | _ => None
          end
      | EditorRoot => None
      end
  | None => None
  end.

(** The formatting buttons of the bubble menu. *)
Inductive BubbleCommand : Type :=
| Bold | Italic | StrikeThrough | JustifyLeft | JustifyCenter | JustifyRight | Highlight.

Definition bubbleCommand (c : BubbleCommand) (r : State) (w : World) : Outcome :=
  match c with
  | Bold => execCommand (lit "bold") None r w
  | Italic => execCommand (lit "italic") None r w
  | StrikeThrough => execCommand (lit "strikeThrough") None r w
  | JustifyLeft => execCommand (lit "justifyLeft") None r w
  | JustifyCenter => execCommand (lit "justifyCenter") None r w
  | JustifyRight => execCommand (lit "justifyRight") None r w
  | Highlight => execCommand (lit "backColor") (Some (lit "#fde047")) r w
  end.

Inductive Event : Type :=
| Render (content : jsstring)          (* the host renders the editor with this [content] *)
| UserTypes (c : jschar)               (* a character typed, and the [input] event it fires *)
| UserSelects (sel : option Selection) (* the caret or the selection is moved by the user *)
| UserFocuses (inEditor : bool)        (* the focus enters or leaves the root *)
| KeyDown (k : Key)
| KeyUp
| MouseUp
| Click
| DragStart
| DragEnd
| DragOver (clientY : float)
| Drop
| ClickAddNextLine
| ClickGrip
| ClickBlockOverlay
| ClickBlockAction (a : BlockAction)
| ClickMenuOverlay
| ClickMenuEntry (e : MenuEntry)
| FileLoaded (src : jsstring)
| GalleryFilesLoaded (images : list jsstring)
| ClickBubbleCommand (c : BubbleCommand)
| ClickInlineCode
| ClickAi (instruction customPrompt : jsstring)
| ClickAskAi
| PromptChange (value : jsstring)
| PromptSubmit
| PromptEscape
| AiSettles (t : TryEnd)               (* the [try] block of the host's [onAiRequest] ends *)
| TimerFires (n : nat).

Definition dispatch (e : Event) (w : World) : Outcome :=
  let r := ui w in
  match e with
  | Render content =>
      (* the effects depend on [content]: they run after the first render
         and after a render with another [content] *)
      match rendered w with
      | Some previous =>
          if streq previous content then Done w
          else Done (contentEffects content (setRendered (Some content) w))
      | None => Done (contentEffects content (setRendered (Some content) w))
      end
  | UserTypes c =>
      match nativeInsertText c (page w) with
      | Some pg => handleInput r (setPage pg w)
      | None => Done w
      end
  | UserSelects sel => Done (setPage (setSelection sel (page w)) w)
  | UserFocuses b => Done (setPage (setFocused b (page w)) w)
  | KeyDown k => handleKeyDown k r w
  | KeyUp => checkSelection r w
  | MouseUp => checkSelection r w
  | Click => handleEditorClick r w
  | DragStart => handleDragStart r w
  | DragEnd => handleDragEnd r w
  | DragOver clientY => handleDragOver clientY r w
  | Drop => handleDrop r w
  | ClickAddNextLine => handleAddNextLine r w
  | ClickGrip => Done (upd (setShowBlockOptions (negb (showBlockOptions r))) w)
  | ClickBlockOverlay => Done (upd (setShowBlockOptions false) w)
  | ClickBlockAction a => handleBlockAction a r w
  | ClickMenuOverlay => Done (upd (setShowMenu false) w)
  | ClickMenuEntry en => entryAction en r w
  | FileLoaded src => imageLoaded src r w
  | GalleryFilesLoaded images => galleryLoaded images r w
  | ClickBubbleCommand c => bubbleCommand c r w
  | ClickInlineCode => toggleInlineCode r w
  | ClickAi instruction customPrompt => handleAiAction instruction (Some customPrompt) r w
  | ClickAskAi => Done (upd (setAiMode AiPrompt) w)
  | PromptChange value => Done (upd (setAiPrompt value) w)
  | PromptSubmit => handleAiAction (lit "custom") (Some (aiPrompt r)) r w
  | PromptEscape => Done (upd (setAiMode AiNone) w)
  | AiSettles t =>
      let host := handleAiImprove t w in
      handleAiActionResume (fst host) (snd host)
  | TimerFires n => fire n w
  end.

(** The controls an event comes from must be on screen, and a promise that
    settles must be pending. *)
Definition enabled (e : Event) (w : World) : bool :=
  let s := ui w in
  let side := showSideControls s && match activeBlock s with Some _ => true | None => false end in
  match e with
  | DragStart | ClickAddNextLine | ClickGrip => side
  | ClickBlockOverlay | ClickBlockAction _ => side && showBlockOptions s
  | ClickMenuOverlay | ClickMenuEntry _ => showMenu s
  | ClickBubbleCommand _ | ClickInlineCode | ClickAi _ _ | ClickAskAi =>
      showBubbleMenu s && match aiMode s with AiNone => true | _ => false end
  | PromptChange _ | PromptSubmit | PromptEscape =>
      showBubbleMenu s && match aiMode s with AiPrompt => true | _ => false end
  | AiSettles _ => Nat.ltb 0 (aiPending w)
  | _ => true
  end.

(** The component as mounted: an empty root, the initial state. *)
Definition initialWorld (withAi : bool) : World :=
  mkWorld (mkPage (Some []) 0 [] 0 false None) initialState [] [] 0 [] withAi None.

Inductive step : World -> World -> Prop :=
| step_event (e : Event) (w : World) :
    enabled e w = true -> step w (final (dispatch e w)).

Inductive reachable : World -> Prop :=
| reach_init (withAi : bool) : reachable (initialWorld withAi)
| reach_step (w w' : World) : reachable w -> step w w' -> reachable w'.

End Handlers.

End RichEditor.

Import RichEditor.

(* ===================================================================== *)
(** ** The records of the application (src/types.ts) *)
(* ===================================================================== *)

(** An optional property of a record is an [option]: [None] is the property
    left out. *)
Module User.

Inductive UserRole : Type := ADMIN | AUTHOR | READER.

Record t : Type := mk {
  id : jsstring;
  name : jsstring;
  email : jsstring;
  avatarUrl : option jsstring;
  role : UserRole
}.

(** [Partial<User>] *)
Record partial : Type := mkPartial {
  id' : option jsstring;
  name' : option jsstring;
  email' : option jsstring;
  avatarUrl' : option jsstring;
  role' : option UserRole
}.

End User.

Module BlogPost.

Inductive BlogStatus : Type := DRAFT | PUBLISHED | SCHEDULED.

Record t : Type := mk {
  id : jsstring;
  title : jsstring;
  slug : jsstring;
  content : jsstring;
  summary : jsstring;
  tags : list jsstring;
  authorId : jsstring;
  authorName : jsstring;
  status : BlogStatus;
  createdAt : jsstring;
  updatedAt : jsstring;
  scheduledAt : option jsstring;
  coverImage : option jsstring
}.

End BlogPost.

Module Comment.

(** [parentId] is optional and may be [null]: [Some None] is [null].
    [replies], a list of comments, is optional as well. *)
#[warnings="-register-all"]
Inductive t : Type :=
  mk (id postId : jsstring) (author : User.t) (content : jsstring)
     (parentId : option (option jsstring)) (createdAt : jsstring)
     (replies : option (list t)).

Definition id (c : t) : jsstring := match c with mk i _ _ _ _ _ _ => i end.
Definition postId (c : t) : jsstring := match c with mk _ p _ _ _ _ _ => p end.
Definition author (c : t) : User.t := match c with mk _ _ a _ _ _ _ => a end.
Definition content (c : t) : jsstring := match c with mk _ _ _ x _ _ _ => x end.
Definition createdAt (c : t) : jsstring := match c with mk _ _ _ _ _ d _ => d end.

End Comment.

Module Notification.

Inductive Kind : Type := success | error | info | warning.

Record t : Type := mk {
  id : jsstring;
  type : Kind;
  message : jsstring;
  timestamp : Z;
  read : bool
}.

End Notification.

(** [MOCK_AUTHOR] of src/constants.ts *)
Definition MOCK_USER_ID : jsstring := lit "user-123".

Definition MOCK_AUTHOR : User.t :=
  User.mk MOCK_USER_ID (lit "Alex Rivera") (lit "alex@nexis.ai")
    (Some (lit "https://picsum.photos/seed/alex/100/100")) User.AUTHOR.

(* ===================================================================== *)
(** ** The local storage of the browser *)
(* ===================================================================== *)

(** The application keeps four entries in [localStorage].  Three of them are
    only ever written as [JSON.stringify] of a value of one type and read
    back with [JSON.parse], which returns that value: such an entry is
    modelled by the value itself.  [None] is a key without entry, for which
    [getItem] answers [null]. *)
Record LocalStorage : Type := mkLocalStorage {
  lumina_user : option User.t;
  lumina_posts : option (list BlogPost.t);
  lumina_comments : option (list Comment.t);
  nexis_theme : option jsstring
}.

Definition setLuminaUser (u : option User.t) (ls : LocalStorage) : LocalStorage :=
  mkLocalStorage u (lumina_posts ls) (lumina_comments ls) (nexis_theme ls).
Definition setLuminaPosts (p : option (list BlogPost.t)) (ls : LocalStorage)
  : LocalStorage :=
  mkLocalStorage (lumina_user ls) p (lumina_comments ls) (nexis_theme ls).
Definition setLuminaComments (c : option (list Comment.t)) (ls : LocalStorage)
  : LocalStorage :=
  mkLocalStorage (lumina_user ls) (lumina_posts ls) c (nexis_theme ls).
Definition setNexisTheme (t : option jsstring) (ls : LocalStorage) : LocalStorage :=
  mkLocalStorage (lumina_user ls) (lumina_posts ls) (lumina_comments ls) t.

(** [Array.prototype.findIndex]; [None] is the answer -1. *)
Fixpoint findIndex {A : Type} (p : A -> bool) (l : list A) : option nat :=
  match l with
  | [] => None
  | x :: r => if p x then Some 0%nat
              else match findIndex p r with Some i => Some (S i) | None => None end
  end.

(** [l[index] = x] for an index within the array. *)
Fixpoint assignAt {A : Type} (index : nat) (x : A) (l : list A) : list A :=
  match l, index with
  | [], _ => []
  | _ :: r, O => x :: r
  | y :: r, S i => y :: assignAt i x r
  end.

(* ===================================================================== *)
(** ** The storage service (src/services/storageService.ts) *)
(* ===================================================================== *)

Module StorageService.

Import BlogPost.

Section Service.

(** [new Date(s)] for a string: its time value in milliseconds, or [None] for
    an invalid date; and [toISOString] of the date with a given time value. *)
Variable parseDate : jsstring -> option Z.
Variable toISOString : Z -> jsstring.

Definition setStatus (s : BlogStatus) (p : BlogPost.t) : BlogPost.t :=
  mk (id p) (title p) (slug p) (content p) (summary p) (tags p) (authorId p)
    (authorName p) s (createdAt p) (updatedAt p) (scheduledAt p) (coverImage p).

Definition setUpdatedAt (u : jsstring) (p : BlogPost.t) : BlogPost.t :=
  mk (id p) (title p) (slug p) (content p) (summary p) (tags p) (authorId p)
    (authorName p) (status p) (createdAt p) u (scheduledAt p) (coverImage p).

(** [seedData], run once when the module is loaded; [now] is the time, taken
    to be the same at every reading of the clock during that run. *)
Definition initialPosts (now : Z) : list BlogPost.t :=
  [
  BlogPost.mk (lit "1")
    (lit "The Future of AI in Web Development")
    (lit "future-of-ai-web-dev")
    (lit "<p>Artificial Intelligence is rapidly transforming how we build web applications. From code generation to automated testing, the landscape is shifting...</p><h2>The Rise of Large Language Models</h2><p>Tools like Gemini are enabling developers to prototype faster than ever before.</p>")
    (lit "An exploration of how AI tools like Gemini are changing the developer landscape.")
    [lit "AI"; lit "Web Development"; lit "Future"]
    (User.id MOCK_AUTHOR) (User.name MOCK_AUTHOR) PUBLISHED
    (toISOString (now - 86400000 * 2)) (toISOString now) None
    (Some (lit "https://images.unsplash.com/photo-1677442136019-21780ecad995?auto=format&fit=crop&q=80&w=800"));
  BlogPost.mk (lit "2")
    (lit "Mastering Minimalist Design")
    (lit "mastering-minimalist-design")
    (lit "<p>Minimalism is not just about having less; it is about making room for more of what matters. In UI design, this translates to cleaner interfaces and better user journeys.</p>")
    (lit "How to apply minimalist principles to your UI/UX workflows for better conversion.")
    [lit "Design"; lit "UX"; lit "Minimalism"]
    (lit "user-2") (lit "Sarah Jenkins") PUBLISHED
    (toISOString (now - 86400000 * 5)) (toISOString now) None
    (Some (lit "https://images.unsplash.com/photo-1507721999472-8ed4421c4af2?auto=format&fit=crop&q=80&w=800"));
  BlogPost.mk (lit "3")
    (lit "The Guide to React Performance")
    (lit "react-performance-guide")
    (lit "<p>Performance is a feature. In this guide, we deep dive into React.memo, useMemo, and virtualization techniques to keep your apps 60fps.</p>")
    (lit "Optimization techniques for large scale React applications.")
    [lit "Web Development"; lit "React"; lit "Performance"]
    (lit "user-3") (lit "David Chen") PUBLISHED
    (toISOString (now - 86400000 * 10)) (toISOString now) None
    (Some (lit "https://images.unsplash.com/photo-1633356122544-f134324a6cee?auto=format&fit=crop&q=80&w=800"))
  ].

Definition seedData (now : Z) (ls : LocalStorage) : LocalStorage :=
  let ls :=
    match lumina_posts ls with
    | None => setLuminaPosts (Some (initialPosts now)) ls
    | Some _ => ls
    end in
  match lumina_comments ls with
  | None => setLuminaComments (Some []) ls
  | Some _ => ls
  end.

(** The callback of the [map] of [getPosts], with the value it leaves in
    [hasUpdates] when it sets it. *)
Definition checkScheduled (now : Z) (post : BlogPost.t) : BlogPost.t * bool :=
  match status post, scheduledAt post with
  | SCHEDULED, Some s =>
      if truthy s then
        match parseDate s with
        | Some scheduleTime =>
            if Z.leb scheduleTime now
            then (setUpdatedAt (toISOString now) (setStatus PUBLISHED post), true)
            else (post, false)
        | None => (post, false)
        end
      else (post, false)
  | _, _ => (post, false)
  end.

(** [getPosts], from the end of its delay on; [now] is the time then. *)
Definition getPosts (now : Z) (ls : LocalStorage) : list BlogPost.t * LocalStorage :=
  let posts := match lumina_posts ls with Some data => data | None => [] end in
  let checked := map (checkScheduled now) posts in
  let posts := map fst checked in
  let hasUpdates := existsb snd checked in
  (posts, if hasUpdates then setLuminaPosts (Some posts) ls else ls).

Definition getPostById (now : Z) (id : jsstring) (ls : LocalStorage)
  : option BlogPost.t * LocalStorage :=
  let r := getPosts now ls in
  (find (fun p => streq (BlogPost.id p) id) (fst r), snd r).

(** [savePost]: [now] is the time at which its [getPosts] reads the posts and
    [stamp] the time of the [new Date()] that follows. *)
Definition savePost (now stamp : Z) (post : BlogPost.t) (ls : LocalStorage)
  : BlogPost.t * LocalStorage :=
  let r := getPosts now ls in
  let posts := fst r in
  let posts :=
    match findIndex (fun p => streq (BlogPost.id p) (BlogPost.id post)) posts with
    | Some index => assignAt index (setUpdatedAt (toISOString stamp) post) posts
    | None => post :: posts
    end in
  (post, setLuminaPosts (Some posts) (snd r)).

Definition deletePost (now : Z) (id : jsstring) (ls : LocalStorage) : LocalStorage :=
  let r := getPosts now ls in
  let filtered := filter (fun p => negb (streq (BlogPost.id p) id)) (fst r) in
  setLuminaPosts (Some filtered) (snd r).

Definition getComments (postId : jsstring) (ls : LocalStorage) : list Comment.t :=
  let allComments := match lumina_comments ls with Some data => data | None => [] end in
  filter (fun c => streq (Comment.postId c) postId) allComments.

Definition addComment (comment : Comment.t) (ls : LocalStorage)
  : Comment.t * LocalStorage :=
  let allComments := match lumina_comments ls with Some data => data | None => [] end in
  (comment, setLuminaComments (Some (allComments ++ [comment])) ls).

End Service.

End StorageService.

(* ===================================================================== *)
(** ** The store of the application (src/store/useStore.ts) *)
(* ===================================================================== *)

Module UseStore.

Inductive Theme : Type := dark | light.

Record AppState : Type := mkAppState {
  user : option User.t;
  isLoadingAuth : bool;
  posts : list BlogPost.t;
  isLoadingPosts : bool;
  activeView : jsstring;
  currentPostId : option jsstring;
  notifications : list Notification.t;
  theme : Theme
}.

Definition setUser (u : option User.t) (s : AppState) : AppState :=
  mkAppState u (isLoadingAuth s) (posts s) (isLoadingPosts s) (activeView s)
    (currentPostId s) (notifications s) (theme s).
Definition setIsLoadingAuth (b : bool) (s : AppState) : AppState :=
  mkAppState (user s) b (posts s) (isLoadingPosts s) (activeView s)
    (currentPostId s) (notifications s) (theme s).
Definition setPosts (p : list BlogPost.t) (s : AppState) : AppState :=
  mkAppState (user s) (isLoadingAuth s) p (isLoadingPosts s) (activeView s)
    (currentPostId s) (notifications s) (theme s).
Definition setIsLoadingPosts (b : bool) (s : AppState) : AppState :=
  mkAppState (user s) (isLoadingAuth s) (posts s) b (activeView s)
    (currentPostId s) (notifications s) (theme s).
Definition setView (v : jsstring) (s : AppState) : AppState :=
  mkAppState (user s) (isLoadingAuth s) (posts s) (isLoadingPosts s) v
    (currentPostId s) (notifications s) (theme s).
Definition setCurrentPostId (p : option jsstring) (s : AppState) : AppState :=
  mkAppState (user s) (isLoadingAuth s) (posts s) (isLoadingPosts s) (activeView s)
    p (notifications s) (theme s).
Definition setNotifications (n : list Notification.t) (s : AppState) : AppState :=
  mkAppState (user s) (isLoadingAuth s) (posts s) (isLoadingPosts s) (activeView s)
    (currentPostId s) n (theme s).
Definition setTheme (t : Theme) (s : AppState) : AppState :=
  mkAppState (user s) (isLoadingAuth s) (posts s) (isLoadingPosts s) (activeView s)
    (currentPostId s) (notifications s) t.

(** The state the store is created with. *)
Definition initialState : AppState :=
  mkAppState None true [] false (lit "landing") None [] dark.

(** The store and what its actions reach outside it: the local storage,
    whether the root element of the document carries the class [dark], and
    the scroll position of the window. *)
Record App : Type := mkApp {
  state : AppState;
  localStorage : LocalStorage;
  rootDark : bool;
  scroll : Z * Z
}.

Definition set (f : AppState -> AppState) (a : App) : App :=
  mkApp (f (state a)) (localStorage a) (rootDark a) (scroll a).
Definition store (f : LocalStorage -> LocalStorage) (a : App) : App :=
  mkApp (state a) (f (localStorage a)) (rootDark a) (scroll a).
Definition setRootDark (b : bool) (a : App) : App :=
  mkApp (state a) (localStorage a) b (scroll a).
Definition scrollTo (x y : Z) (a : App) : App :=
  mkApp (state a) (localStorage a) (rootDark a) (x, y).

Definition themeName (t : Theme) : jsstring :=
  match t with dark => lit "dark" | light => lit "light" end.

(** *** Notifications *)

(** [addNotification]; [id] is the text made from [Math.random()] and [now]
    is [Date.now()]. *)
Definition addNotification (id : jsstring) (now : Z) (type : Notification.Kind)
  (message : jsstring) (a : App) : App :=
  let newNotification := Notification.mk id type message now false in
  set (fun s => setNotifications (newNotification :: notifications s) s) a.

Definition markRead (n : Notification.t) : Notification.t :=
  Notification.mk (Notification.id n) (Notification.type n) (Notification.message n)
    (Notification.timestamp n) true.

Definition markNotificationRead (id : jsstring) (a : App) : App :=
  set (fun s =>
         setNotifications
           (map (fun n => if streq (Notification.id n) id then markRead n else n)
              (notifications s)) s) a.

Definition clearNotifications (a : App) : App := set (setNotifications []) a.

(** *** Authentication *)

Definition checkAuth (a : App) : App :=
  let a :=
    match lumina_user (localStorage a) with
    | Some stored => set (fun s => setIsLoadingAuth false (setUser (Some stored) s)) a
    | None => set (fun s => setIsLoadingAuth false (setUser None s)) a
    end in
  let isDark := rootDark a in
  set (setTheme (if isDark then dark else light)) a.

(** [login] up to its [await]. *)
Definition login (a : App) : App := set (setIsLoadingAuth true) a.

(** [login] after the delay. *)
Definition loginResume (id : jsstring) (now : Z) (a : App) : App :=
  let mockUser := MOCK_AUTHOR in
  let a := store (setLuminaUser (Some mockUser)) a in
  let a := set (fun s => setIsLoadingAuth false (setUser (Some mockUser) s)) a in
  addNotification id now Notification.success
    (lit "Welcome back, " ++ User.name mockUser) a.

Definition logout (id : jsstring) (now : Z) (a : App) : App :=
  let a := store (setLuminaUser None) a in
  let a := set (fun s => setView (lit "landing") (setUser None s)) a in
  addNotification id now Notification.info (lit "You have been logged out") a.

(** [{ ...currentUser, ...updates }] *)
Definition merge (u : User.t) (updates : User.partial) : User.t :=
  User.mk
    (match User.id' updates with Some x => x | None => User.id u end)
    (match User.name' updates with Some x => x | None => User.name u end)
    (match User.email' updates with Some x => x | None => User.email u end)
    (match User.avatarUrl' updates with Some x => Some x | None => User.avatarUrl u end)
    (match User.role' updates with Some x => x | None => User.role u end).

Definition updateUser (id : jsstring) (now : Z) (updates : User.partial) (a : App)
  : App :=
  match user (state a) with
  | None => a
  | Some currentUser =>
      let updatedUser := merge currentUser updates in
      let a := set (setUser (Some updatedUser)) a in
      let a := store (setLuminaUser (Some updatedUser)) a in
      addNotification id now Notification.success
        (lit "Profile updated successfully") a
  end.

(** *** Posts *)

Section Posts.

Variable parseDate : jsstring -> option Z.
Variable toISOString : Z -> jsstring.

(** [fetchPosts] up to its [await]. *)
Definition fetchPosts (a : App) : App := set (setIsLoadingPosts true) a.

(** [fetchPosts] when [getPosts] answers, at the time [now]. *)
Definition fetchPostsResume (now : Z) (a : App) : App :=
  let r := StorageService.getPosts parseDate toISOString now (localStorage a) in
  let a := store (fun _ => snd r) a in
  set (fun s => setIsLoadingPosts false (setPosts (fst r) s)) a.

(** [deletePost]: nothing happens before the [deletePost] of the service has
    run, at the time [now]; the rest follows at once, [notifId] and [stamp]
    being the identity and the time given to the notification. *)
Definition deletePost (now : Z) (id : jsstring) (notifId : jsstring) (stamp : Z)
  (a : App) : App :=
  let a := store (StorageService.deletePost parseDate toISOString now id) a in
  let a := set (fun s =>
                  setPosts (filter (fun p => negb (streq (BlogPost.id p) id)) (posts s))
                    s) a in
  addNotification notifId stamp Notification.success
    (lit "Post deleted successfully") a.

End Posts.

(** *** The view and the theme *)

Definition setActiveView (view : jsstring) (postId : option jsstring) (a : App) : App :=
  scrollTo 0 0 (set (fun s => setCurrentPostId postId (setView view s)) a).

Definition toggleTheme (a : App) : App :=
  let current := theme (state a) in
  let next := match current with dark => light | light => dark end in
  let a :=
    match next with
    | dark => store (setNexisTheme (Some (lit "dark"))) (setRootDark true a)
    | light => store (setNexisTheme (Some (lit "light"))) (setRootDark false a)
    end in
  set (setTheme next) a.

End UseStore.

(** [unreadCount] of the navigation bar (src/components/Navbar.tsx). *)
Definition unreadCount (notifications : list Notification.t) : nat :=
  length (filter (fun n => negb (Notification.read n)) notifications).

(* ===================================================================== *)
(** ** The page that hosts the editor (src/pages/EditorPage.tsx) *)
(* ===================================================================== *)

Module EditorPage.

(** *** Text helpers of the handlers *)

(** [content.replace(/<[^>]*>?/gm, '')]: a match starts at every [<] outside
    a match and runs up to the next [>], or to the end of the string when
    there is none; [inTag] tells that a match is being read. *)
Fixpoint stripTagsFrom (inTag : bool) (s : jsstring) : jsstring :=
  match s with
  | [] => []
  | c :: r =>
      if inTag then stripTagsFrom (negb (N.eqb c 62)) r
      else if N.eqb c 60 then stripTagsFrom true r
      else c :: stripTagsFrom false r
  end.

Definition stripTags (content : jsstring) : jsstring := stripTagsFrom false content.

(** The class [[a-z0-9]]. *)
Definition isSlugChar (c : jschar) : bool :=
  isLowerAscii c || (N.leb 48 c && N.leb c 57).

(** [s.replace(/[^a-z0-9]+/g, '-')]: every maximal run of other characters
    becomes one dash; [inRun] tells that the previous character belonged to
    such a run. *)
Fixpoint dashRunsFrom (inRun : bool) (s : jsstring) : jsstring :=
  match s with
  | [] => []
  | c :: r =>
      if isSlugChar c then c :: dashRunsFrom false r
      else if inRun then dashRunsFrom true r
      else 45%N :: dashRunsFrom true r
  end.

Definition dashRuns (s : jsstring) : jsstring := dashRunsFrom false s.

Definition dropDash (s : jsstring) : jsstring :=
  match s with
  | c :: r => if N.eqb c 45 then r else s
  | [] => []
  end.

(** [s.replace(/(^-|-$)+/g, '')]: without the [m] flag [^-] matches a dash
    at the start only and [-$] a dash at the end only, so that the matches
    are the first character when it is a dash and the last character when it
    is a dash (one match, [--], when the string is just that). *)
Definition trimDashes (s : jsstring) : jsstring := rev (dropDash (rev (dropDash s))).

Section Slug.

(** [String.prototype.toLowerCase], the lower-case mapping of Unicode. *)
Variable toLowerCase : jsstring -> jsstring.

Definition slugOf (title : jsstring) : jsstring :=
  trimDashes (dashRuns (toLowerCase title)).

End Slug.

(** The decimal numeral of a number, as in a template literal. *)
Definition decimal (n : nat) : jsstring :=
  lit (DecimalString.NilZero.string_of_uint (Nat.to_uint n)).

(** *** State *)

Record State : Type := mkState {
  title : jsstring;
  content : jsstring;
  tags : list jsstring;
  tagInput : jsstring;
  coverImage : jsstring;
  isAiLoading : bool;
  isTitleGenerating : bool;
  isTagGenerating : bool;
  saving : bool;
  isSidebarOpen : bool;
  focusMode : bool;
  showScheduleDialog : bool;
  scheduleDate : jsstring
}.

Definition initialState : State :=
  mkState [] [] [] [] [] false false false false true false false [].

Definition setTitle (x : jsstring) (s : State) : State :=
  mkState x (content s) (tags s) (tagInput s) (coverImage s) (isAiLoading s)
    (isTitleGenerating s) (isTagGenerating s) (saving s) (isSidebarOpen s)
    (focusMode s) (showScheduleDialog s) (scheduleDate s).
Definition setContent (x : jsstring) (s : State) : State :=
  mkState (title s) x (tags s) (tagInput s) (coverImage s) (isAiLoading s)
    (isTitleGenerating s) (isTagGenerating s) (saving s) (isSidebarOpen s)
    (focusMode s) (showScheduleDialog s) (scheduleDate s).
Definition setTags (x : list jsstring) (s : State) : State :=
  mkState (title s) (content s) x (tagInput s) (coverImage s) (isAiLoading s)
    (isTitleGenerating s) (isTagGenerating s) (saving s) (isSidebarOpen s)
    (focusMode s) (showScheduleDialog s) (scheduleDate s).
Definition setTagInput (x : jsstring) (s : State) : State :=
  mkState (title s) (content s) (tags s) x (coverImage s) (isAiLoading s)
    (isTitleGenerating s) (isTagGenerating s) (saving s) (isSidebarOpen s)
    (focusMode s) (showScheduleDialog s) (scheduleDate s).
Definition setCoverImage (x : jsstring) (s : State) : State :=
  mkState (title s) (content s) (tags s) (tagInput s) x (isAiLoading s)
    (isTitleGenerating s) (isTagGenerating s) (saving s) (isSidebarOpen s)
    (focusMode s) (showScheduleDialog s) (scheduleDate s).
Definition setIsAiLoading (x : bool) (s : State) : State :=
  mkState (title s) (content s) (tags s) (tagInput s) (coverImage s) x
    (isTitleGenerating s) (isTagGenerating s) (saving s) (isSidebarOpen s)
    (focusMode s) (showScheduleDialog s) (scheduleDate s).
Definition setIsTitleGenerating (x : bool) (s : State) : State :=
  mkState (title s) (content s) (tags s) (tagInput s) (coverImage s) (isAiLoading s)
    x (isTagGenerating s) (saving s) (isSidebarOpen s)
    (focusMode s) (showScheduleDialog s) (scheduleDate s).
Definition setIsTagGenerating (x : bool) (s : State) : State :=
  mkState (title s) (content s) (tags s) (tagInput s) (coverImage s) (isAiLoading s)
    (isTitleGenerating s) x (saving s) (isSidebarOpen s)
    (focusMode s) (showScheduleDialog s) (scheduleDate s).
Definition setSaving (x : bool) (s : State) : State :=
  mkState (title s) (content s) (tags s) (tagInput s) (coverImage s) (isAiLoading s)
    (isTitleGenerating s) (isTagGenerating s) x (isSidebarOpen s)
    (focusMode s) (showScheduleDialog s) (scheduleDate s).
Definition setShowScheduleDialog (x : bool) (s : State) : State :=
  mkState (title s) (content s) (tags s) (tagInput s) (coverImage s) (isAiLoading s)
    (isTitleGenerating s) (isTagGenerating s) (saving s) (isSidebarOpen s)
    (focusMode s) x (scheduleDate s).
Definition setScheduleDate (x : jsstring) (s : State) : State :=
  mkState (title s) (content s) (tags s) (tagInput s) (coverImage s) (isAiLoading s)
    (isTitleGenerating s) (isTagGenerating s) (saving s) (isSidebarOpen s)
    (focusMode s) (showScheduleDialog s) x.

(** What a handler sees of the render that created it: the state, the user
    of the store and the [postId] prop, all as they were then. *)
Record Closure : Type := mkClosure {
  seen : State;
  user : option User.t;
  postId : option jsstring
}.

(** The page, the store it uses and the messages shown by [alert]. *)
Record World : Type := mkWorld {
  ui : State;
  app : UseStore.App;
  alerts : list jsstring
}.

Definition upd (f : State -> State) (w : World) : World :=
  mkWorld (f (ui w)) (app w) (alerts w).
Definition onApp (f : UseStore.App -> UseStore.App) (w : World) : World :=
  mkWorld (ui w) (f (app w)) (alerts w).
Definition alert (message : jsstring) (w : World) : World :=
  mkWorld (ui w) (app w) (alerts w ++ [message]).

(** The closure of the handlers of the render of [w]. *)
Definition render (postId : option jsstring) (w : World) : Closure :=
  mkClosure (ui w) (UseStore.user (UseStore.state (app w))) postId.

(** What the environment gives to one [addNotification]: the random
    identity and the time. *)
Record Stamp : Type := mkStamp { notifId : jsstring; at_ : Z }.

Definition addNotification (k : Stamp) (type : Notification.Kind) (message : jsstring)
  (w : World) : World :=
  onApp (UseStore.addNotification (notifId k) (at_ k) type message) w.

(** How an awaited call ends. *)
Inductive Answer (A : Type) : Type :=
| Fulfilled (value : A)
| Rejected.
Arguments Rejected {A}.

(** *** Tags *)

Inductive TagKey : Type := Enter | Backspace | OtherKey.

Definition includes (l : list jsstring) (x : jsstring) : bool := existsb (streq x) l.

Definition handleTagKeyDown (key : TagKey) (r : Closure) (w : World) : World :=
  let tags := tags (seen r) in
  let tagInput := tagInput (seen r) in
  match key with
  | Enter =>
      if truthy (trim tagInput) then
        let w := if negb (includes tags (trim tagInput))
                 then upd (setTags (tags ++ [trim tagInput])) w
                 else w in
        upd (setTagInput []) w
      else w
  | Backspace =>
      if negb (truthy tagInput) && Nat.ltb 0 (length tags)
      then upd (setTags (removelast tags)) w
      else w
  | OtherKey => w
  end.

Definition removeTag (tagToRemove : jsstring) (r : Closure) (w : World) : World :=
  upd (setTags (filter (fun tag => negb (streq tag tagToRemove)) (tags (seen r)))) w.

(** *** The AI helpers *)

Record Metadata : Type := mkMetadata { summary : jsstring; metaTags : list jsstring }.

(** [generateMetadata] of the service: the request and the [JSON.parse] of
    its answer run in a [try] block, and the [catch] block returns a fixed
    answer, so that the promise is fulfilled in every case.  [tried] is how
    the [try] block ends. *)
Definition generateMetadata (tried : Answer Metadata) : Metadata :=
  match tried with
  | Fulfilled parsed => parsed
  | Rejected => mkMetadata (lit "Analysis failed") [lit "General"]
  end.

(** [handleAiDraft] up to its [await]. *)
Definition handleAiDraft (r : Closure) (w : World) : World :=
  if negb (truthy (title (seen r)))
  then alert (lit "Please enter a title first") w
  else upd (setIsAiLoading true) w.

(** [handleAiDraft] when [generateBlogDraft] has answered. *)
Definition handleAiDraftResume (draft : Answer jsstring) (k : Stamp) (w : World)
  : World :=
  let w :=
    match draft with
    | Fulfilled draft =>
        addNotification k Notification.success (lit "AI draft generated successfully")
          (upd (setContent draft) w)
    | Rejected =>
        addNotification k Notification.error (lit "Failed to generate draft") w
    end in
  upd (setIsAiLoading false) w.

(** [!content || content.length < 50] *)
Definition tooShort (content : jsstring) : bool :=
  negb (truthy content) || Nat.ltb (length content) 50.

(** [handleMagicTitle] up to its [await]; the text it sends is
    [stripTags (content (seen r))]. *)
Definition handleMagicTitle (r : Closure) (w : World) : World :=
  if tooShort (content (seen r))
  then alert (lit "Write some content first so I can generate a title.") w
  else upd (setIsTitleGenerating true) w.

Definition handleMagicTitleResume (newTitle : Answer jsstring) (k : Stamp) (w : World)
  : World :=
  let w :=
    match newTitle with
    | Fulfilled newTitle =>
        addNotification k Notification.success (lit "New title generated")
          (upd (setTitle newTitle) w)
    | Rejected => w
    end in
  upd (setIsTitleGenerating false) w.

(** [handleAutoTags] up to its [await]. *)
Definition handleAutoTags (r : Closure) (w : World) : World :=
  if tooShort (content (seen r))
  then alert (lit "Write some content first.") w
  else upd (setIsTagGenerating true) w.

(** [handleAutoTags] when [generateMetadata] has answered, [tried] being the
    end of the [try] block of the service; the tags it merges are those its
    closure has seen. *)
Definition handleAutoTagsResume (tried : Answer Metadata) (k : Stamp) (r : Closure)
  (w : World) : World :=
  let metadata := generateMetadata tried in
  let newTags := dedup (tags (seen r) ++ metaTags metadata) in
  let w := addNotification k Notification.success
             (lit "Added " ++ decimal (length (metaTags metadata)) ++ lit " new tags")
             (upd (setTags newTags) w) in
  upd (setIsTagGenerating false) w.


(** *** Saving *)

(** What the environment gives to one run of [handleSave]: the readings of
    the clock, the random identity, the end of the [try] block of
    [generateMetadata] and the stamps of the notifications. *)
Record SaveEnv : Type := mkSaveEnv {
  errorStamp : Stamp;           (* of the notification of a refusal *)
  checkTime : Z;                (* [new Date()] compared with the scheduled time *)
  warnStamp : Stamp;            (* of the warning about a time in the past *)
  metadata : Answer Metadata;   (* how the request of [generateMetadata] ends *)
  randomId : jsstring;          (* [Math.random().toString(36).substr(2, 9)] *)
  lookupTime : Z;               (* when [getPostById] reads the posts *)
  createdTime : Z;              (* [new Date()] of [createdAt] *)
  updatedTime : Z;              (* [new Date()] of [updatedAt] *)
  saveReadTime : Z;             (* when [savePost] reads the posts *)
  saveStamp : Z;                (* [new Date()] of [savePost] *)
  doneStamp : Stamp             (* of the last notification *)
}.

(** How a run of [handleSave] ends: it returns, or an exception leaves it
    before its [try]. *)
Inductive Settled : Type :=
| Returned (w : World)
| Threw (w : World).

Definition outcome (s : Settled) : World :=
  match s with Returned w => w | Threw w => w end.

Section Save.

Variable parseDate : jsstring -> option Z.
Variable toISOString : Z -> jsstring.
Variable toLowerCase : jsstring -> jsstring.

(** [format(date, 'PP p')] of date-fns, for a valid date. *)
Variable format : Z -> jsstring.

(** The choice of the status and of the scheduled time: [Some] of both, or
    [None] when the run stops with the world given. *)
Definition schedule (env : SaveEnv) (statusOverride : option BlogPost.BlogStatus)
  (r : Closure) (w : World)
  : Settled + (BlogPost.BlogStatus * option jsstring * World) :=
  let finalStatus := match statusOverride with Some s => s | None => BlogPost.DRAFT end in
  match statusOverride with
  | Some BlogPost.SCHEDULED =>
      if negb (truthy (scheduleDate (seen r))) then
        inl (Returned (addNotification (errorStamp env) Notification.error
                         (lit "Please select a date/time to schedule") w))
      else
        match parseDate (scheduleDate (seen r)) with
        | None => inl (Threw w)
        | Some t =>
            let scheduledTimeStr := toISOString t in
            let past := match parseDate scheduledTimeStr with
                        | Some t' => Z.leb t' (checkTime env)
                        | None => false
                        end in
            if past then
              inr (BlogPost.PUBLISHED, None,
                   addNotification (warnStamp env) Notification.warning
                     (lit "Scheduled time is in the past. Publishing immediately.") w)
            else inr (finalStatus, Some scheduledTimeStr, w)
        end
  | _ => inr (finalStatus, None, w)
  end.

(** The post that [handleSave] builds; [found] is the answer of the lookup
    of the post being edited. *)
Definition buildPost (env : SaveEnv) (r : Closure) (user : User.t)
  (finalStatus : BlogPost.BlogStatus) (scheduledTimeStr : option jsstring)
  (finalTags : list jsstring) (summary : jsstring) (found : option BlogPost.t)
  : BlogPost.t :=
  let now := toISOString (createdTime env) in
  BlogPost.mk
    (match postId r with
     | Some id => orElse id (randomId env)
     | None => randomId env
     end)
    (title (seen r))
    (slugOf toLowerCase (title (seen r)))
    (content (seen r))
    summary finalTags
    (User.id user) (User.name user) finalStatus
    (match postId r with
     | Some (_ :: _) =>
         match found with
         | Some post => orElse (BlogPost.createdAt post) now
         | None => now
         end
     | _ => now
     end)
    (toISOString (updatedTime env))
    scheduledTimeStr
    (Some (coverImage (seen r))).

Definition finish (w : World) : World :=
  upd (setShowScheduleDialog false) (upd (setSaving false) w).

Definition failed (env : SaveEnv) (w : World) : World :=
  finish (addNotification (doneStamp env) Notification.error (lit "Error saving post") w).

(** [handleSave], run to its end with nothing else happening during its
    [await]s. *)
Definition handleSave (env : SaveEnv) (statusOverride : option BlogPost.BlogStatus)
  (r : Closure) (w0 : World) : Settled :=
  match user r, truthy (title (seen r)) with
  | Some user, true =>
      match schedule env statusOverride r w0 with
      | inl stopped => stopped
      | inr (finalStatus, scheduledTimeStr, w) =>
          let w := upd (setSaving true) w in
          let described :=
            if Nat.ltb 50 (length (content (seen r))) then
              let m := generateMetadata (metadata env) in
              (match tags (seen r) with [] => metaTags m | _ => tags (seen r) end,
               summary m)
            else (tags (seen r), []) in
          match described with
          | (finalTags, summary) =>
              let looked :=
                match postId r with
                | Some (c :: id) =>
                    StorageService.getPostById parseDate toISOString (lookupTime env)
                      (c :: id) (UseStore.localStorage (app w))
                | _ => (None, UseStore.localStorage (app w))
                end in
              let post := buildPost env r user finalStatus scheduledTimeStr finalTags
                            summary (fst looked) in
              let saved := StorageService.savePost parseDate toISOString
                             (saveReadTime env) (saveStamp env) post (snd looked) in
              let w := onApp (UseStore.store (fun _ => snd saved)) w in
              let announced :=
                match finalStatus, scheduledTimeStr with
                | BlogPost.SCHEDULED, Some s =>
                    match parseDate s with
                    | Some t =>
                        Some (addNotification (doneStamp env) Notification.success
                                (lit "Post scheduled for " ++ format t) w)
                    | None => None
                    end
                | BlogPost.SCHEDULED, None => None
                | BlogPost.PUBLISHED, _ =>
                    Some (addNotification (doneStamp env) Notification.success
                            (lit "Post published successfully") w)
                | BlogPost.DRAFT, _ =>
                    Some (addNotification (doneStamp env) Notification.info
                            (lit "Draft saved") w)
                end in
              match announced with
              | Some w =>
                  Returned (finish (onApp (UseStore.setActiveView (lit "dashboard") None) w))
              | None => Returned (failed env w)
              end
          end
      end
  | _, _ =>
      Returned (addNotification (errorStamp env) Notification.error
                  (lit "Title is required") w0)
  end.

End Save.

End EditorPage.

(* ===================================================================== *)
(** ** Notions used to state the properties *)
(* ===================================================================== *)

(** Following the words of the specification of the word count: the tokens of
    a text are its maximal runs of characters that are not white space;
    [cur] is the run being read. *)
Fixpoint tokensFrom (cur : jsstring) (s : jsstring) : list jsstring :=
  match s with
  | [] => match cur with [] => [] | _ :: _ => [cur] end
  | c :: r =>
      if isWhiteSpace c
      then match cur with
           | [] => tokensFrom [] r
           | _ :: _ => cur :: tokensFrom [] r
           end
      else tokensFrom (cur ++ [c]) r
  end.

Definition tokens (s : jsstring) : list jsstring := tokensFrom [] s.

(** The plain text of the editor, as the statistics effect reads it. *)
Definition plainText (pg : Page) : jsstring :=
  match editor pg with Some cs => innerTextOf cs | None => [] end.

(** A sequence of events, each applied to the world the previous one left. *)
Fixpoint run (lay : Page -> Layout) (es : list Event) (w : World) : World :=
  match es with
  | [] => w
  | e :: r => run lay r (final (dispatch lay e w))
  end.

(** Every event of the sequence is enabled when its turn comes. *)
Fixpoint enabledAlong (lay : Page -> Layout) (es : list Event) (w : World) : bool :=
  match es with
  | [] => true
  | e :: r => enabled e w && enabledAlong lay r (final (dispatch lay e w))
  end.

(** A layout for examples: every rectangle is empty and at the origin. *)
Definition flatLayout : Page -> Layout :=
  fun _ => mkLayout (fun _ => mkRect 0 0 0 0) (mkRect 0 0 0 0).

(** The number [n] as a JavaScript number. *)
Definition px (n : nat) : float := of_uint63 (Uint63Axioms.of_Z (Z.of_nat n)).

(** A layout for examples: the children of the root are stacked from the top,
    each 100 pixels high and 600 wide. *)
Definition stackedLayout : Page -> Layout :=
  fun pg =>
    mkLayout
      (fun r => match r with
                | EditorRoot => mkRect 0 0 600 (100 * px (length (editorNodes pg)))
                | Ref id => mkRect (100 * px (indexOf id (editorNodes pg))) 0 600 100
                end)
      (mkRect 0 0 0 0).

(** A layout for examples: every block is at 1 from the top and 2^-59 high,
    so thin that its centre, 1 + 2^-60, is rounded to 1. *)
Definition thinLayout : Page -> Layout :=
  fun _ => mkLayout (fun _ => mkRect 1 0 600 0x1p-59) (mkRect 0 0 0 0).

Definition caret (id o : nat) : option Selection := Some (caretAt (Ref id) o).

Definition range (id a f : nat) : option Selection :=
  Some (mkSelection (mkBoundary (Ref id) a) (mkBoundary (Ref id) f)).

(** The user has put the caret at the end of the paragraph [<p>a</p>] and
    typed a slash. *)
Definition slashTyped : list Event :=
  [Render (lit "<p>a</p>"); UserFocuses true; UserSelects (caret 1 1);
   UserTypes 47%N].

(** The divider of the block menu as the root prints it back. *)
Definition dividerHtmlSerialized : jsstring :=
  tpl "<hr class=`border-neutral-200 dark:border-neutral-800 my-8`>".

(** The state of a render in which the block [b] is active and, if
    [dragging], being dragged towards [target]. *)
Definition withActive (b : nat) (dragging : bool) (target : option DropTarget) : State :=
  setDropTargetInfo target (setIsDragging dragging (setActiveBlock (Some b) initialState)).

(** The editor showing the three paragraphs [<p>A</p><p>B</p><p>C</p>] (the
    nodes 0, 2 and 4). *)
Definition threeParagraphs : World :=
  run flatLayout [Render (lit "<p>A</p><p>B</p><p>C</p>")] (initialWorld false).

Definition paragraph (id : nat) (text : string) : Node :=
  Element id (lit "p") [] [TextNode (S id) (lit text)].

(** The nodes of a tree, the root first. *)
Fixpoint nodes (n : Node) : list Node :=
  n :: match n with
       | TextNode _ _ => []
       | Element _ _ _ cs => flat_map nodes cs
       end.

(** The node [t] of the root is a text node with data [d], and no other node
    of the root goes by that identity. *)
Definition textNodeAt (pg : Page) (t : nat) (d : jsstring) : Prop :=
  existsb (containsId t) (editorNodes pg) = true /\
  forall m, In m (flat_map nodes (editorNodes pg)) -> nodeId m = t -> m = TextNode t d.

(** The identifiers in use are below the next one to be given out. *)
Definition idsBelow (pg : Page) : Prop :=
  forall k, nextId pg <= k -> existsb (containsId k) (allNodes pg) = false.

(** The class list of the inline code element of [toggleInlineCode]. *)
Definition codeClass : jsstring :=
  lit "bg-neutral-200 dark:bg-[#2a2a2a] text-red-500 dark:text-[#EB5757] px-1.5 py-0.5 rounded text-[0.9em] font-mono border border-neutral-300 dark:border-white/5 mx-0.5".

(** The inline code element around [text], as the parser builds it with the
    identifiers [id] and [S id]. *)
Definition codeElement (id : nat) (text : jsstring) : Node :=
  Element id (lit "code") [(lit "class", codeClass)] [TextNode (S id) text].

(** Text free of markup: no [<] and no [&]. *)
Definition plain (text : jsstring) : Prop :=
  forall c, In c text -> c <> 60%N /\ c <> 38%N.

(** The editor showing [<p>Hello world</p>] with the word [world] selected
    (the characters 6 to 11 of the text node 1). *)
Definition worldSelected : World :=
  run flatLayout
    [Render (lit "<p>Hello world</p>"); UserFocuses true; UserSelects (range 1 6 11)]
    (initialWorld false).

(** The editor showing [<p><code>abc</code></p>] with [abc] selected (the text
    node 2, inside the code element 1). *)
Definition codeSelected : World :=
  run flatLayout
    [Render (lit "<p><code>abc</code></p>"); UserFocuses true;
     UserSelects (range 2 0 3)]
    (initialWorld false).

(** The inline-code shortcut pressed twice, nothing else happening in
    between. *)
Definition toggledTwice (lay : Page -> Layout) (w : World) : World :=
  run lay [KeyDown KeyToggleCode; KeyDown KeyToggleCode] w.

(** The editor with the caret in its only paragraph, [<p>a</p>], the side
    controls shown for that paragraph. *)
Definition insertNextReady : World :=
  run flatLayout
    [Render (lit "<p>a</p>"); UserFocuses true; UserSelects (caret 1 1);
     MouseUp; TimerFires 0] (initialWorld false).

(** What the AI request has left in the world: the mode of the bubble menu
    and the number of promises still to settle. *)
Definition aiState (w : World) : AiMode * nat := (aiMode (ui w), aiPending w).

(** The outcome [o] ends in a world with the AI state [a]. *)
Definition keepsAi (a : AiMode * nat) (o : Outcome) : Prop := aiState (final o) = a.

(** The events that act on the AI state: the buttons and the prompt of the
    bubble menu that change its mode, and the end of a request. *)
Definition aiEvent (e : Event) : bool :=
  match e with
  | ClickAi _ _ | ClickAskAi | PromptSubmit | PromptEscape | AiSettles _ => true
  | _ => false
  end.

(** The editor mounted with [onAiRequest], showing [<p>a</p>] with the letter
    selected and the bubble menu open, after a click on an AI action. *)
Definition aiSubmitted : World :=
  run flatLayout
    [Render (lit "<p>a</p>"); UserFocuses true; UserSelects (range 1 0 1); MouseUp;
     TimerFires 0; ClickAi (lit "improve") (lit "Improve the writing quality.")]
    (initialWorld true).

(** The blocks of [cs] hold the node [id] at the top or not at all. *)
Definition topLevelOnly (id : nat) (cs : list Node) : Prop :=
  forall c, In c cs -> nodeId c <> id -> containsId id c = false.

(** The replacement of the text node [t] by its part before the selection,
    the inline code element and its part after the selection. *)
Definition wrappedPieces (t n lo hi : nat) (d : jsstring) : list Node :=
  textPiece t (firstn lo d)
  ++ codeElement n (substring lo hi d) :: textPiece (S (S n)) (skipn hi d).

(** The page after the first application of the toggle. *)
Definition wrappedPage (pg : Page) (t lo hi : nat) (d : jsstring) : Page :=
  setSelection (Some (caretAt (Ref (S (nextId pg))) (length (substring lo hi d))))
    (setNextId (S (S (S (nextId pg))))
       (substPage t (wrappedPieces t (nextId pg) lo hi d) pg)).

Section DragOverNotions.

Variables (lay : Layout) (active : nat) (clientY : float).

(** The vertical distance from the pointer to the centre of the node [id],
    as [handleDragOver] computes it. *)
Definition distance (id : nat) : float :=
  PrimFloat.abs (clientY - center (rectOf lay (Ref id))).

(** A child the scan considers: any but the dragged block. *)
Definition candidate (c : Node) : Prop := nodeId c <> active.

(** What the scan knows after the children [seen]. *)
Definition scanned (seen : list Node) (acc : option nat * float) : Prop :=
  match acc with
  | (Some t, d) =>
      d = distance t /\ (exists c, In c seen /\ nodeId c = t) /\ t <> active /\
      (d <? 150)%float = true /\
      (forall c, In c seen -> candidate c -> (distance (nodeId c) <? d)%float = false)
  | (None, d) =>
      d = PrimFloat.infinity /\
      forall c, In c seen -> candidate c -> (distance (nodeId c) <? 150)%float = false
  end.

End DragOverNotions.

(** A search [f] for something that is not in the forest before the node [t]
    is replaced by [L] finds what it finds in [L], if [t] was there at all. *)
Definition searchesInto (t : nat) (L : list Node) {B : Type}
  (f : Node -> option B) (c : Node) : Prop :=
  f (substNode t L c)
  = if existsb (containsId t) (children c) then firstSome f L else None.

(** The posts held in the storage: none when the key has no entry. *)
Definition storedPosts (ls : LocalStorage) : list BlogPost.t :=
  match lumina_posts ls with Some data => data | None => [] end.

(** The post [p] is scheduled and its time, a valid date, has come at
    [now]. *)
Definition isDue (parseDate : jsstring -> option Z) (now : Z) (p : BlogPost.t) : bool :=
  match BlogPost.status p, BlogPost.scheduledAt p with
  | BlogPost.SCHEDULED, Some s =>
      truthy s && match parseDate s with Some t => Z.leb t now | None => false end
  | _, _ => false
  end.

(** The post [p] published at [now]. *)
Definition published (toISOString : Z -> jsstring) (now : Z) (p : BlogPost.t)
  : BlogPost.t :=
  StorageService.setUpdatedAt (toISOString now)
    (StorageService.setStatus BlogPost.PUBLISHED p).

(** The post [p] as a reading of the posts at [now] shows it. *)
Definition shown (parseDate : jsstring -> option Z) (toISOString : Z -> jsstring)
  (now : Z) (p : BlogPost.t) : BlogPost.t :=
  if isDue parseDate now p then published toISOString now p else p.

(** The post with the identity [id] that comes first in [l]. *)
Definition postWithId (id : jsstring) (l : list BlogPost.t) : option BlogPost.t :=
  find (fun p => streq (BlogPost.id p) id) l.

(** A storage without entries, and a draft with a given identity and title,
    for examples. *)
Definition emptyStorage : LocalStorage := mkLocalStorage None None None None.

Definition draft (id title : string) : BlogPost.t :=
  BlogPost.mk (lit id) (lit title) [] [] [] [] MOCK_USER_ID (lit "Alex Rivera")
    BlogPost.DRAFT [] [] None None.

(** Dates for examples: no string is a valid date, and every date prints as
    the empty string. *)
Definition noDate : jsstring -> option Z := fun _ => None.
Definition blankDate : Z -> jsstring := fun _ => [].

(** The calls of the actions of the store, with what the environment gives
    to each: the identity and the time of the notification it adds, the time
    at which it reads the posts. *)
Inductive Action : Type :=
| CheckAuth
| Login
| LoginResume (notifId : jsstring) (now : Z)
| Logout (notifId : jsstring) (now : Z)
| UpdateUser (notifId : jsstring) (now : Z) (updates : User.partial)
| FetchPosts
| FetchPostsResume (now : Z)
| DeletePost (now : Z) (id notifId : jsstring) (stamp : Z)
| SetActiveView (view : jsstring) (postId : option jsstring)
| AddNotification (notifId : jsstring) (now : Z) (type : Notification.Kind)
    (message : jsstring)
| MarkNotificationRead (id : jsstring)
| ClearNotifications
| ToggleTheme.

Definition act (parseDate : jsstring -> option Z) (toISOString : Z -> jsstring)
  (x : Action) (a : UseStore.App) : UseStore.App :=
  match x with
  | CheckAuth => UseStore.checkAuth a
  | Login => UseStore.login a
  | LoginResume notifId now => UseStore.loginResume notifId now a
  | Logout notifId now => UseStore.logout notifId now a
  | UpdateUser notifId now updates => UseStore.updateUser notifId now updates a
  | FetchPosts => UseStore.fetchPosts a
  | FetchPostsResume now => UseStore.fetchPostsResume parseDate toISOString now a
  | DeletePost now id notifId stamp =>
      UseStore.deletePost parseDate toISOString now id notifId stamp a
  | SetActiveView view postId => UseStore.setActiveView view postId a
  | AddNotification notifId now type message =>
      UseStore.addNotification notifId now type message a
  | MarkNotificationRead id => UseStore.markNotificationRead id a
  | ClearNotifications => UseStore.clearNotifications a
  | ToggleTheme => UseStore.toggleTheme a
  end.

(** The actions [xs] one after the other. *)
Definition acts (parseDate : jsstring -> option Z) (toISOString : Z -> jsstring)
  (xs : list Action) (a : UseStore.App) : UseStore.App :=
  fold_left (fun a x => act parseDate toISOString x a) xs a.

(** The page is loaded again: the store starts from its initial state, with
    the storage as it is. *)
Definition reload (a : UseStore.App) : UseStore.App :=
  UseStore.checkAuth
    (UseStore.mkApp UseStore.initialState (UseStore.localStorage a)
       (UseStore.rootDark a) (0, 0)%Z).

(** The theme for which the root element carries the class [dark]. *)
Definition isDark (t : UseStore.Theme) : bool :=
  match t with UseStore.dark => true | UseStore.light => false end.

(** The unread notifications that go by the identity [id]. *)
Definition unreadWithId (id : jsstring) (l : list Notification.t) : nat :=
  length (filter (fun n => negb (Notification.read n) && streq (Notification.id n) id) l).

(** The user of the store is the stored one. *)
Definition userStored (a : UseStore.App) : Prop :=
  lumina_user (UseStore.localStorage a) = UseStore.user (UseStore.state a).

(** The posts of the store go by the identities of the stored posts, in the
    same order. *)
Definition postsStored (a : UseStore.App) : Prop :=
  map BlogPost.id (UseStore.posts (UseStore.state a))
  = map BlogPost.id (storedPosts (UseStore.localStorage a)).

(** Two dashes in a row somewhere in [s]. *)
Fixpoint hasDoubleDash (s : jsstring) : bool :=
  match s with
  | a :: ((b :: _) as r) => (N.eqb a 45 && N.eqb b 45) || hasDoubleDash r
  | _ => false
  end.

(** The page [w] as its own render sees it. *)
Definition current (w : EditorPage.World) : EditorPage.Closure :=
  EditorPage.render None w.

(** The identity under which [handleSave] stores the post. *)
Definition savedId (env : EditorPage.SaveEnv) (r : EditorPage.Closure) : jsstring :=
  match EditorPage.postId r with
  | Some id => orElse id (EditorPage.randomId env)
  | None => EditorPage.randomId env
  end.

(** The stored post that goes by the identity [id]. *)
Definition storedAs (id : jsstring) (w : EditorPage.World) : option BlogPost.t :=
  postWithId id (storedPosts (UseStore.localStorage (EditorPage.app w))).

(** The tags and the summary that [handleSave] gives to the post: those of
    the generator only for a content of more than 50 characters, and its
    tags only when the page has none. *)
Definition describedTags (r : EditorPage.Closure) (m : EditorPage.Metadata)
  : list jsstring :=
  if Nat.ltb 50 (length (EditorPage.content (EditorPage.seen r))) then
    match EditorPage.tags (EditorPage.seen r) with
    | [] => EditorPage.metaTags m
    | _ => EditorPage.tags (EditorPage.seen r)
    end
  else EditorPage.tags (EditorPage.seen r).

Definition describedSummary (r : EditorPage.Closure) (m : EditorPage.Metadata)
  : jsstring :=
  if Nat.ltb 50 (length (EditorPage.content (EditorPage.seen r)))
  then EditorPage.summary m else [].

(** The generator is not asked, or answers [m]: what its request gave, or
    its fixed answer when the request failed. *)
Definition described (env : EditorPage.SaveEnv) (r : EditorPage.Closure)
  (m : EditorPage.Metadata) : Prop :=
  Nat.ltb 50 (length (EditorPage.content (EditorPage.seen r))) = false \/
  EditorPage.generateMetadata (EditorPage.metadata env) = m.

(** The lookup that [handleSave] makes of the post being edited, with the
    storage as it leaves it. *)
Definition lookedUp (parseDate : jsstring -> option Z) (toISOString : Z -> jsstring)
  (env : EditorPage.SaveEnv) (r : EditorPage.Closure) (w : EditorPage.World)
  : option BlogPost.t * LocalStorage :=
  match EditorPage.postId r with
  | Some (c :: id) =>
      StorageService.getPostById parseDate toISOString (EditorPage.lookupTime env)
        (c :: id) (UseStore.localStorage (EditorPage.app w))
  | _ => (None, UseStore.localStorage (EditorPage.app w))
  end.

(** Dates for examples, written in unary: a string is the date whose time is
    its length, and a time prints as that many [x]. *)
Definition unaryDate : jsstring -> option Z := fun s => Some (Z.of_nat (length s)).
Definition unaryISO : Z -> jsstring := fun t => repeat 120%N (Z.to_nat t).

(** An environment for examples: the clock at 5 when a scheduled time is
    checked, the request of the generator failing. *)
Definition sampleEnv : EditorPage.SaveEnv :=
  EditorPage.mkSaveEnv (EditorPage.mkStamp (lit "n1") 0) 5
    (EditorPage.mkStamp (lit "n2") 0) EditorPage.Rejected (lit "k3x9") 0 0 0 0 0
    (EditorPage.mkStamp (lit "n3") 0).

(** The page of a logged-in author with a title typed in and a date chosen,
    and the same page without a user. *)
Definition samplePage (loggedIn : bool) : EditorPage.World :=
  EditorPage.mkWorld
    (EditorPage.setScheduleDate (lit "2026-11-30")
       (EditorPage.setTitle (lit "Hello, World!") EditorPage.initialState))
    (UseStore.mkApp
       (UseStore.setUser (if loggedIn then Some MOCK_AUTHOR else None)
          UseStore.initialState)
       emptyStorage true (0, 0)%Z)
    [].

(** The editor showing [ <p>A</p><p>B</p>], a space before its two blocks
    (the text node 0 and the paragraphs 1 and 3), with the caret in the
    first block and the side controls shown for it. *)
Definition spaceFirst : World :=
  run stackedLayout
    [Render (lit " <p>A</p><p>B</p>"); UserSelects (caret 2 0); MouseUp; TimerFires 0]
    (initialWorld false).

(** The first block of [spaceFirst] picked up by its grip and dragged far
    below the other block (whose centre is at 250): a drag without a
    target. *)
Definition draggedNowhere : World :=
  run stackedLayout [DragStart; TimerFires 0; DragOver 1000] spaceFirst.

(** The sample page of the author with a content of 60 characters and no
    tags. *)
Definition longPage : EditorPage.World :=
  EditorPage.upd (EditorPage.setContent (repeat 120%N 60)) (samplePage true).



(** The identifier that the next new node gets is not the identifier of a
    node of the page. *)
Definition nextIdUnused (pg : Page) : bool :=
  negb (existsb (containsId (nextId pg)) (allNodes pg)).

(* ===================================================================== *)
(** ** Properties *)
(* ===================================================================== *)

(** *** Strings *)

Lemma streq_refl (a : jsstring) : streq a a = true.
Proof.
  induction a as [|x a IH]; simpl; [reflexivity|].
  now rewrite N.eqb_refl, IH.
Qed.

Lemma streq_eq (a b : jsstring) : streq a b = true <-> a = b.
Proof.
  split.
  - revert b. induction a as [|x a IH]; intros [|y b] H; simpl in H;
      try discriminate; [reflexivity|].
    apply andb_true_iff in H. destruct H as [Hx Hr].
    apply N.eqb_eq in Hx. f_equal; auto.
  - intros ->. apply streq_refl.
Qed.

Lemma streq_neq (a b : jsstring) : streq a b = false <-> a <> b.
Proof.
  split.
  - intros H E. apply streq_eq in E. congruence.
  - intros H. destruct (streq a b) eqn:E; [|reflexivity].
    apply streq_eq in E. contradiction.
Qed.

(** *** Word count *)

Lemma split_filter_tokens (inRun : bool) (piece s : jsstring) :
  (inRun = true -> piece = []) ->
  filter (fun w => Nat.ltb 0 (length w)) (splitRunsFrom isWhiteSpace inRun piece s)
  = tokensFrom piece s.
Proof.
  revert inRun piece.
  induction s as [|c r IH]; intros inRun piece Hrun; simpl.
  - destruct piece; reflexivity.
  - destruct (isWhiteSpace c).
    + destruct inRun.
      * rewrite (Hrun eq_refl). apply IH. reflexivity.
      * simpl. rewrite IH by reflexivity. destruct piece; reflexivity.
    + apply IH. discriminate.
Qed.

Lemma tokensFrom_dropWhile (s : jsstring) :
  tokensFrom [] (dropWhile isWhiteSpace s) = tokensFrom [] s.
Proof.
  induction s as [|c r IH]; simpl; [reflexivity|].
  destruct (isWhiteSpace c) eqn:E; [exact IH|].
  simpl. now rewrite E.
Qed.

Lemma tokensFrom_trailing (t : jsstring) :
  forallb isWhiteSpace t = true ->
  forall s cur, tokensFrom cur (s ++ t) = tokensFrom cur s.
Proof.
  intros Ht. induction s as [|c r IH]; intros cur; simpl.
  - revert cur. induction t as [|x t IHt]; intros cur; [reflexivity|].
    simpl in Ht. apply andb_true_iff in Ht. destruct Ht as [Hx Ht'].
    simpl. rewrite Hx. destruct cur.
    + rewrite (IHt Ht'). reflexivity.
    + rewrite (IHt Ht'). reflexivity.
  - destruct (isWhiteSpace c); [destruct cur|]; now rewrite ?IH.
Qed.

Lemma dropWhile_split (p : jschar -> bool) (l : jsstring) :
  exists t, forallb p t = true /\ l = t ++ dropWhile p l.
Proof.
  induction l as [|c r [t [Ht E]]]; simpl.
  - exists []. split; reflexivity.
  - destruct (p c) eqn:Hc.
    + exists (c :: t). simpl. rewrite Hc, Ht. split; [reflexivity|]. now f_equal.
    + exists []. split; reflexivity.
Qed.

Lemma forallb_rev (p : jschar -> bool) (l : jsstring) :
  forallb p (rev l) = forallb p l.
Proof.
  induction l as [|c r IH]; simpl; [reflexivity|].
  rewrite forallb_app, IH. simpl. rewrite andb_true_r. apply andb_comm.
Qed.

Lemma tokens_trim (s : jsstring) : tokens (trim s) = tokens s.
Proof.
  unfold tokens, trim, trimEnd, trimStart.
  rewrite <- (tokensFrom_dropWhile s).
  set (u := dropWhile isWhiteSpace s).
  destruct (dropWhile_split isWhiteSpace (rev u)) as [t [Ht E]].
  assert (Hu : u = rev (dropWhile isWhiteSpace (rev u)) ++ rev t).
  { rewrite <- rev_app_distr, <- E. symmetry. apply rev_involutive. }
  rewrite Hu at 2. symmetry. apply tokensFrom_trailing.
  now rewrite forallb_rev.
Qed.

Lemma countWords_tokens (text : jsstring) : countWords text = length (tokens text).
Proof.
  unfold countWords, splitWs.
  rewrite split_filter_tokens by discriminate.
  fold (tokens (trim text)). now rewrite tokens_trim.
Qed.

Lemma computeReadingTime_div (words : nat) :
  computeReadingTime words = ((Z.of_nat words + 199) / 200)%Z.
Proof.
  unfold computeReadingTime, Qceiling, Qfloor. simpl.
  rewrite Z.mul_1_r.
  set (n := Z.of_nat words).
  pose proof (Z.div_mod (- n) 200 ltac:(lia)) as H1.
  pose proof (Z.mod_pos_bound (- n) 200 ltac:(lia)) as H2.
  pose proof (Z.div_mod (n + 199) 200 ltac:(lia)) as H3.
  pose proof (Z.mod_pos_bound (n + 199) 200 ltac:(lia)) as H4.
  lia.
Qed.

(** C9. Whenever the content changes, the word count is the number of
    maximal runs of non-white-space characters of the plain text of the
    editor, and the reading time is that count divided by 200 and rounded up
    (the least integer [t] with [words <= 200 * t]); the content
    [<p>one two three</p>] gives 3 words and 1 minute. *)
Theorem word_count_and_reading_time :
  forall (content : jsstring) (w : World),
    let w' := contentEffects content w in
    let words := length (tokens (plainText (page w'))) in
    wordCount (ui w') = words /\
    (200 * (readingTime (ui w') - 1) < Z.of_nat words <= 200 * readingTime (ui w'))%Z /\
    readingTime (ui w') = ((Z.of_nat words + 199) / 200)%Z /\
    let e := contentEffects (lit "<p>one two three</p>") (initialWorld false) in
    currentHTML e = lit "<p>one two three</p>" /\
    wordCount (ui e) = 3%nat /\ readingTime (ui e) = 1%Z.
Proof.
  intros content w w' words.
  assert (Hw : wordCount (ui w') = words).
  { unfold w', words, contentEffects, statsEffect, plainText. simpl.
    destruct (editor (page (syncEffect content w))) as [cs|].
    - unfold orElse. destruct (truthy (innerTextOf cs)) eqn:E.
      + apply countWords_tokens.
      + destruct (innerTextOf cs); [reflexivity|discriminate].
    - reflexivity. }
  assert (Hr : readingTime (ui w') = ((Z.of_nat words + 199) / 200)%Z).
  { rewrite <- Hw. unfold w', contentEffects, statsEffect. simpl.
    apply computeReadingTime_div. }
  split; [exact Hw|]. split.
  - rewrite Hr.
    pose proof (Z.div_mod (Z.of_nat words + 199) 200 ltac:(lia)) as H1.
    pose proof (Z.mod_pos_bound (Z.of_nat words + 199) 200 ltac:(lia)) as H2.
    lia.
  - split; [exact Hr|]. vm_compute. repeat split.
Qed.

(** *** Synchronisation *)

Lemma setEditorHTML_editor (content : jsstring) (pg : Page) (cs : list Node) :
  editor pg = Some cs ->
  editor (setEditorHTML content pg) = Some (fst (parse content (nextId pg))).
Proof.
  intros H. unfold setEditorHTML. rewrite H. reflexivity.
Qed.

(** C1. The decision rule of the synchroniser.  With [current] the
    serialisation of the root: an identical string changes nothing; without
    focus the root is overwritten (its children become the nodes parsed from
    the string); with focus it is overwritten when the string is empty or its
    length differs from that of [current] by more than 10, and left as it is
    otherwise.  In particular [<p>Hell</p>] does not overwrite a focused
    [<p>Hello</p>], and the empty string always leaves an empty root. *)
Theorem sync_decision_rule :
  forall (content : jsstring) (w : World) (cs : list Node),
    editor (page w) = Some cs ->
    let current := innerHTML cs in
    let delta := Z.abs (Z.of_nat (length content) - Z.of_nat (length current)) in
    let overwritten := setPage (setEditorHTML content (page w)) w in
    editor (page overwritten) = Some (fst (parse content (nextId (page w)))) /\
    (content = current -> syncEffect content w = w) /\
    (content <> current -> editorFocused (page w) = false ->
       syncEffect content w = overwritten) /\
    (content <> current -> editorFocused (page w) = true ->
       content = [] \/ (10 < delta)%Z -> syncEffect content w = overwritten) /\
    (content <> current -> editorFocused (page w) = true ->
       content <> [] -> (delta <= 10)%Z -> syncEffect content w = w) /\
    (current = lit "<p>Hello</p>" -> editorFocused (page w) = true ->
       syncEffect (lit "<p>Hell</p>") w = w) /\
    currentHTML (syncEffect [] w) = [].
Proof.
  intros content w cs Hed current delta overwritten.
  assert (Hcase : forall c : jsstring,
            syncEffect c w =
            if negb (streq c current) then
              if negb (editorFocused (page w))
                 || Z.ltb 10 (Z.abs (Z.of_nat (length c) - Z.of_nat (length current)))
                 || streq c []
              then setPage (setEditorHTML c (page w)) w else w
            else w).
  { intros c. unfold syncEffect. rewrite Hed. reflexivity. }
  split; [apply (setEditorHTML_editor _ _ Hed)|].
  split; [|split; [|split; [|split; [|split]]]].
  - intros ->. rewrite Hcase, streq_refl. reflexivity.
  - intros Hne Hf. rewrite Hcase.
    apply streq_neq in Hne. rewrite Hne, Hf. reflexivity.
  - intros Hne Hf Hor. rewrite Hcase.
    apply streq_neq in Hne. rewrite Hne, Hf. simpl.
    destruct Hor as [-> | Hd].
    + rewrite orb_true_r. reflexivity.
    + apply Z.ltb_lt in Hd. fold delta. rewrite Hd. reflexivity.
  - intros Hne Hf Hnil Hd. rewrite Hcase.
    apply streq_neq in Hne. rewrite Hne, Hf. simpl.
    apply streq_neq in Hnil. rewrite Hnil.
    fold delta. apply Z.ltb_ge in Hd. rewrite Hd. reflexivity.
  - intros Hcur Hf. rewrite Hcase, Hcur, Hf. reflexivity.
  - rewrite Hcase. destruct (streq [] current) eqn:E; simpl.
    + apply streq_eq in E. unfold currentHTML. rewrite Hed. symmetry. exact E.
    + rewrite orb_true_r. unfold currentHTML. simpl.
      rewrite (setEditorHTML_editor _ _ Hed). reflexivity.
Qed.

(** The rule at a focused editor that shows [<p>Hello</p>]. *)
Lemma sync_decision_rule_witness :
  let w := mkWorld
             (mkPage (Some [Element 0 (lit "p") [] [TextNode 1 (lit "Hello")]])
                0 [] 2 true None)
             initialState [] [] 0 [] false None in
  syncEffect (lit "<p>Hell</p>") w = w /\ currentHTML (syncEffect [] w) = [].
Proof.
  intros w.
  pose proof (@sync_decision_rule (lit "<p>Hell</p>") w
                [Element 0 (lit "p") [] [TextNode 1 (lit "Hello")]] eq_refl) as H.
  cbv zeta in H.
  destruct H as [_ [_ [_ [_ [_ [H5 H6]]]]]].
  split; [apply H5; reflexivity | exact H6].
Defined.

(** *** Runs of events *)

Lemma reachable_run (lay : Page -> Layout) (es : list Event) :
  forall w, reachable lay w -> enabledAlong lay es w = true -> reachable lay (run lay es w).
Proof.
  induction es as [|e r IH]; intros w Hw Hen; simpl in *; [exact Hw|].
  apply andb_true_iff in Hen. destruct Hen as [He Hr].
  apply IH; [|exact Hr].
  apply reach_step with (w := w); [exact Hw|].
  constructor. exact He.
Qed.

(** *** The two menus *)

(** The slash menu opened by typing a slash stays open while the typed slash
    is selected, which opens the bubble menu as well. *)
Lemma both_menus_open :
  ~ (forall w : World,
       reachable flatLayout w -> showMenu (ui w) && showBubbleMenu (ui w) = false).
Proof.
  intros H.
  set (es := slashTyped ++ [UserSelects (range 1 2 1); KeyUp; TimerFires 0]).
  specialize (H (run flatLayout es (initialWorld false))).
  assert (R : reachable flatLayout (run flatLayout es (initialWorld false))).
  { apply reachable_run; [constructor|]. vm_compute. reflexivity. }
  specialize (H R). vm_compute in H. discriminate.
Qed.

(** *** What the handlers leave alone *)

Ltac break_match :=
  match goal with
  | |- context [match ?x with _ => _ end] =>
      lazymatch x with
      | context [match _ with _ => _ end] => fail
      | _ => destruct x eqn:?
      end
  end.

(** Unfolds the handler at the head of the goal and follows every branch. *)
Ltac frame := repeat (cbn; try reflexivity; break_match).

Section Frames.

Variable lay : Page -> Layout.

Lemma updateActiveBlock_menus (r : State) (w : World) :
  let w' := final (updateActiveBlock lay r w) in
  showMenu (ui w') = showMenu (ui w) /\
  showBubbleMenu (ui w') = showBubbleMenu (ui w) /\
  emitted w' = emitted w /\ page w' = page w /\
  aiMode (ui w') = aiMode (ui w) /\ aiPending w' = aiPending w.
Proof.
  unfold updateActiveBlock. repeat split; frame.
Qed.

Lemma handleInput_bubble (r : State) (w : World) :
  showBubbleMenu (ui (final (handleInput lay r w))) = showBubbleMenu (ui w).
Proof.
  unfold handleInput. destruct (editor (page w)); [|reflexivity].
  pose proof (updateActiveBlock_menus r (onChange (innerHTML l) w)) as H.
  cbv zeta in H. destruct H as [_ [H _]].
  destruct (updateActiveBlock lay r (onChange (innerHTML l) w)) as [w1|e w1];
    simpl in *; [|exact H].
  rewrite <- H. frame.
Qed.

Lemma handleAddNextLine_frame (r : State) (w : World) :
  let w' := final (handleAddNextLine lay r w) in
  showBubbleMenu (ui w') = showBubbleMenu (ui w) /\ emitted w' = emitted w.
Proof.
  unfold handleAddNextLine.
  destruct (activeBlock r) as [active|]; [|split; reflexivity].
  destruct (editor (page w)); [|split; reflexivity].
  cbv zeta.
  match goal with
  | |- context [liftPage ?x ?y] => destruct x as [pg|e]; simpl
  end; [|split; reflexivity].
  match goal with
  | |- context [updateActiveBlock lay r ?x] =>
      pose proof (updateActiveBlock_menus r x) as H;
      destruct (updateActiveBlock lay r x) as [w1|e w1]
  end; simpl in *; destruct H as [_ [H1 [H2 _]]]; split; assumption.
Qed.

Lemma checkSelectionFrame_menu (r : State) (w : World) :
  showMenu (ui (final (checkSelectionFrame lay r w))) = showMenu (ui w).
Proof.
  unfold checkSelectionFrame.
  pose proof (updateActiveBlock_menus r w) as H.
  cbv zeta in H. destruct H as [H _].
  destruct (updateActiveBlock lay r w) as [w1|e w1]; simpl in *; [|exact H].
  rewrite <- H. frame.
Qed.

End Frames.

(** C4, as the code has it.  The two popups are two independent flags: the
    handlers that open the slash menu (an input that leaves a trailing slash,
    the insert-next button) leave the flag of the bubble menu as it is, and
    the selection check, which opens the bubble menu, leaves the flag of the
    slash menu as it is. *)
Theorem menu_flags_independent :
  forall (lay : Page -> Layout) (r : State) (w : World),
    showBubbleMenu (ui (final (handleInput lay r w))) = showBubbleMenu (ui w) /\
    showBubbleMenu (ui (final (handleAddNextLine lay r w))) = showBubbleMenu (ui w) /\
    showMenu (ui (final (checkSelectionFrame lay r w))) = showMenu (ui w).
Proof.
  intros lay r w. split; [apply handleInput_bubble|]. split.
  - apply (handleAddNextLine_frame lay r w).
  - apply checkSelectionFrame_menu.
Qed.

(** *** Insert-next *)

(** C2, at the operation that breaks it.  [handleAddNextLine] never calls
    [onChange]: whatever the state, the list of emitted contents is the same
    after it as before, although the root has gained a paragraph.  In the
    reachable state [insertNextReady] the button turns [<p>a</p>] into
    [<p>a</p><p><br></p>], moves the caret into the new paragraph and opens
    the slash menu, and nothing is emitted. *)
Theorem insert_next_emits_nothing :
  (forall (lay : Page -> Layout) (r : State) (w : World),
     emitted (final (handleAddNextLine lay r w)) = emitted w) /\
  (let w := insertNextReady in
   let w' := final (dispatch flatLayout ClickAddNextLine w) in
   reachable flatLayout w /\ enabled ClickAddNextLine w = true /\
   currentHTML w = lit "<p>a</p>" /\
   currentHTML w' = lit "<p>a</p><p><br></p>" /\
   selection (page w') = caret 2 0 /\
   showMenu (ui w') = true /\
   emitted w' = emitted w).
Proof.
  split.
  - intros lay r w. apply (handleAddNextLine_frame lay r w).
  - split.
    + apply reachable_run; [constructor|]. vm_compute. reflexivity.
    + vm_compute. repeat split.
Qed.

(** The other block operations do emit: [handleBlockAction], when it returns,
    has called [onChange] once, with the serialisation of the root as the
    operation left it, and has scheduled the recomputation of the active
    block. *)
Lemma block_action_emits (action : BlockAction) (r : State)
  (w w' : World) (active : nat) (cs : list Node) :
  activeBlock r = Some active -> editor (page w) = Some cs ->
  handleBlockAction action r w = Done w' ->
  emitted w' = emitted w ++ [currentHTML w'] /\
  timers w' = timers w ++ [mkTimer UpdateActiveBlockTask 0 r].
Proof.
  intros Ha He. unfold handleBlockAction. rewrite Ha, He.
  destruct action; cbn.
  - intros H. injection H as <-. split; reflexivity.
  - destruct (insertBefore _ _ _); cbn; intros H; [|discriminate].
    injection H as <-. split; reflexivity.
  - destruct (previousSibling (page w) active); cbn.
    + destruct (insertBefore _ _ _); cbn; intros H; [|discriminate].
      injection H as <-. split; reflexivity.
    + intros H. injection H as <-. split; reflexivity.
  - destruct (nextSibling (page w) active); cbn.
    + destruct (insertBefore _ _ _); cbn; intros H; [|discriminate].
      injection H as <-. split; reflexivity.
    + intros H. injection H as <-. split; reflexivity.
Qed.

(** *** The slash trigger *)

(** C5, at the entry that breaks it.  The slash menu is open after a slash
    typed at the end of [<p>a</p>].  Choosing "Heading 1" turns the block into
    a heading and closes the menu, but the slash stays: the content is
    [<h1>a/</h1>].  The entries that insert a fragment do delete it: choosing
    "Divider" in the same state leaves no slash. *)
Theorem heading_entry_keeps_slash :
  let w := run flatLayout slashTyped (initialWorld false) in
  let h := final (dispatch flatLayout (ClickMenuEntry EntryHeading1) w) in
  let d := final (dispatch flatLayout (ClickMenuEntry EntryDivider) w) in
  reachable flatLayout w /\
  enabled (ClickMenuEntry EntryHeading1) w = true /\
  currentHTML w = lit "<p>a/</p>" /\
  selection (page w) = caret 1 2 /\
  currentHTML h = lit "<h1>a/</h1>" /\
  showMenu (ui h) = false /\
  last (emitted h) [] = lit "<h1>a/</h1>" /\
  currentHTML d = lit "<p>a" ++ dividerHtmlSerialized ++ lit "</p>" /\
  showMenu (ui d) = false.
Proof.
  intros w h d. split.
  - apply reachable_run; [constructor|]. vm_compute. reflexivity.
  - vm_compute. repeat split.
Qed.

(** *** The AI request *)

(** The handlers other than [handleAiAction] and its continuation leave the
    AI state alone. *)

Lemma keepsAi_andThen (a : AiMode * nat) (o : Outcome) (k : World -> Outcome) :
  keepsAi a o -> (forall w, aiState w = a -> keepsAi a (k w)) -> keepsAi a (andThen o k).
Proof.
  unfold keepsAi. destruct o as [w|e w]; simpl; intros H K; [apply K; exact H | exact H].
Qed.

Lemma keepsAi_liftPage (a : AiMode * nat) (res : Result Page) (w : World) :
  aiState w = a -> keepsAi a (liftPage res w).
Proof.
  unfold keepsAi. destruct res; simpl; intros H; exact H.
Qed.

(** Reads the AI state through the setters of the world and of the state. *)
Ltac ai_world :=
  unfold aiState in *;
  cbn [aiMode aiPending ui upd setUi setPage onChange schedule setTimers final
       setWordCount setReadingTime setShowSideControls setActiveBlockTop setActiveBlock
       setShowMenu setMenuPos setShowBlockOptions setIsDragging setDropIndicator
       setDropTargetInfo setShowBubbleMenu setBubbleMenuPos setSelectionRange
       setAiPrompt] in *;
  try assumption; try reflexivity.

(** The AI state of a world built by setters, whichever branch built it. *)
Ltac ai_final :=
  unfold keepsAi; cbv beta zeta; ai_world;
  repeat (match goal with
          | |- context [match ?x with _ => _ end] => destruct x
          end; ai_world).

(** One step along the control flow of a handler. *)
Ltac ai_step :=
  lazymatch goal with
  | |- keepsAi _ (andThen _ _) => apply keepsAi_andThen; [|intros ? ?]
  | |- keepsAi _ (liftPage _ _) => apply keepsAi_liftPage
  | |- aiState _ = _ => solve [ai_final]
  | |- keepsAi _ (match ?x with _ => _ end) => destruct x
  | |- keepsAi _ (Done _) => ai_final
  | |- keepsAi _ (Raised _ _) => ai_final
  | |- keepsAi _ _ => progress cbv beta zeta
  end.

Ltac ai_frame := repeat ai_step.

Section AiFrames.

Variable lay : Page -> Layout.
Variable a : AiMode * nat.

Lemma updateActiveBlock_ai (r : State) (w : World) :
  aiState w = a -> keepsAi a (updateActiveBlock lay r w).
Proof.
  intros H. unfold updateActiveBlock. ai_frame.
Qed.

Lemma handleInput_ai (r : State) (w : World) :
  aiState w = a -> keepsAi a (handleInput lay r w).
Proof.
  intros H. unfold handleInput. ai_frame. apply updateActiveBlock_ai. ai_world.
Qed.

Lemma documentExecCommand_ai (r : State) (c : jsstring) (v : option jsstring) (w : World) :
  aiState w = a -> aiState (documentExecCommand lay r c v w) = a.
Proof.
  intros H. unfold documentExecCommand.
  destruct (nativeExecCommand c v (page w)); [|exact H].
  apply handleInput_ai. ai_world.
Qed.

Lemma handleDragStart_ai (r : State) (w : World) :
  aiState w = a -> keepsAi a (handleDragStart r w).
Proof. intros H. unfold handleDragStart. ai_frame. Qed.

Lemma dimBlock_ai (r : State) (w : World) :
  aiState w = a -> keepsAi a (dimBlock r w).
Proof. intros H. unfold dimBlock. ai_frame. Qed.

Lemma handleDragEnd_ai (r : State) (w : World) :
  aiState w = a -> keepsAi a (handleDragEnd r w).
Proof. intros H. unfold handleDragEnd. ai_frame. Qed.

Lemma handleDragOver_ai (y : float) (r : State) (w : World) :
  aiState w = a -> keepsAi a (handleDragOver lay y r w).
Proof. intros H. unfold handleDragOver. ai_frame. Qed.

Lemma handleDrop_ai (r : State) (w : World) :
  aiState w = a -> keepsAi a (handleDrop r w).
Proof.
  intros H. unfold handleDrop.
  ai_frame; try (apply handleDragEnd_ai; ai_world).
Qed.

Lemma toggleInlineCode_ai (r : State) (w : World) :
  aiState w = a -> keepsAi a (toggleInlineCode lay r w).
Proof.
  intros H. unfold toggleInlineCode.
  destruct (selection (page w)); [|exact H].
  unfold keepsAi. cbv beta zeta. ai_world.
  repeat match goal with
         | |- context [match ?x with _ => _ end] => destruct x
         end; ai_world; apply documentExecCommand_ai; exact H.
Qed.

Lemma handleKeyDown_ai (k : Key) (r : State) (w : World) :
  aiState w = a -> keepsAi a (handleKeyDown lay k r w).
Proof.
  intros H. destruct k; [apply toggleInlineCode_ai; exact H | exact H].
Qed.

Lemma checkSelectionFrame_ai (r : State) (w : World) :
  aiState w = a -> keepsAi a (checkSelectionFrame lay r w).
Proof.
  intros H. unfold checkSelectionFrame. ai_frame. apply updateActiveBlock_ai. exact H.
Qed.

Lemma execCommand_ai (c : jsstring) (v : option jsstring) (r : State) (w : World) :
  aiState w = a -> keepsAi a (execCommand lay c v r w).
Proof.
  intros H. unfold execCommand. cbv zeta.
  pose proof (documentExecCommand_ai r c v H) as D.
  ai_frame.
Qed.

Lemma insertHtml_ai (html : jsstring) (r : State) (w : World) :
  aiState w = a -> keepsAi a (insertHtml lay html r w).
Proof.
  intros H. unfold insertHtml.
  destruct (editor (page w)); [|exact H]. cbv zeta.
  apply keepsAi_andThen.
  - ai_frame; unfold keepsAi; cbn [final]; apply documentExecCommand_ai; ai_final.
  - intros w3 H3. unfold keepsAi. ai_world. apply documentExecCommand_ai. exact H3.
Qed.

Lemma handleAddNextLine_ai (r : State) (w : World) :
  aiState w = a -> keepsAi a (handleAddNextLine lay r w).
Proof.
  intros H. unfold handleAddNextLine. ai_frame. apply updateActiveBlock_ai. ai_final.
Qed.

Lemma handleBlockAction_ai (act : BlockAction) (r : State) (w : World) :
  aiState w = a -> keepsAi a (handleBlockAction act r w).
Proof.
  intros H. unfold handleBlockAction. ai_frame.
Qed.

Lemma entryAction_ai (e : MenuEntry) (r : State) (w : World) :
  aiState w = a -> keepsAi a (entryAction lay e r w).
Proof.
  intros H.
  destruct e; cbn [entryAction];
    try (apply execCommand_ai; exact H); try (apply insertHtml_ai; exact H);
    try exact H.
  - unfold handleGenerateAiImage. ai_frame. apply insertHtml_ai; exact H.
  - unfold handleVideoEmbed. ai_frame. apply insertHtml_ai; exact H.
Qed.

Lemma fire_ai (n : nat) (w : World) :
  aiState w = a -> keepsAi a (fire lay n w).
Proof.
  intros H. unfold fire. destruct (nth_error (timers w) n) as [tm|]; [|exact H].
  destruct (task tm); cbn [runTask].
  - apply updateActiveBlock_ai. exact H.
  - apply checkSelectionFrame_ai. exact H.
  - apply dimBlock_ai. exact H.
Qed.

Lemma contentEffects_ai (content : jsstring) (w : World) :
  aiState (contentEffects content w) = aiState w.
Proof.
  unfold contentEffects, statsEffect, syncEffect.
  ai_world.
  repeat match goal with
         | |- context [match ?x with _ => _ end] => destruct x
         end; ai_world.
Qed.

End AiFrames.

Section Released.

Variable lay : Page -> Layout.

(** The events other than those of the AI controls leave the AI state as it
    is. *)
Lemma dispatch_keeps_ai (e : Event) (w : World) :
  aiEvent e = false -> aiState (final (dispatch lay e w)) = aiState w.
Proof.
  intros He. destruct e; try discriminate He; cbn [dispatch]; cbv zeta;
    try reflexivity.
  - assert (R : aiState (contentEffects content (setRendered (Some content) w))
                 = aiState w)
      by (rewrite contentEffects_ai; reflexivity).
    destruct (rendered w) as [previous|]; [|exact R].
    destruct (streq previous content); [reflexivity | exact R].
  - destruct (nativeInsertText c (page w)); [|reflexivity].
    apply handleInput_ai. reflexivity.
  - apply handleKeyDown_ai. reflexivity.
  - apply handleDragStart_ai. reflexivity.
  - apply handleDragEnd_ai. reflexivity.
  - apply handleDragOver_ai. reflexivity.
  - apply handleDrop_ai. reflexivity.
  - apply handleAddNextLine_ai. reflexivity.
  - apply handleBlockAction_ai. reflexivity.
  - apply entryAction_ai. reflexivity.
  - apply insertHtml_ai. reflexivity.
  - apply insertHtml_ai. reflexivity.
  - unfold bubbleCommand. destruct c; apply execCommand_ai; reflexivity.
  - apply toggleInlineCode_ai. reflexivity.
  - apply fire_ai. reflexivity.
Qed.

(** While the bubble menu is loading, a promise of the host is pending. *)
Lemma loading_has_a_promise (w : World) :
  reachable lay w -> aiMode (ui w) = AiLoading -> (0 < aiPending w)%nat.
Proof.
  induction 1 as [withAi | w w' Hr IH Hs]; [discriminate|].
  destruct Hs as [e w En].
  destruct (aiEvent e) eqn:Ha.
  - destruct e; try discriminate Ha; cbn [dispatch]; cbv zeta.
    + unfold handleAiAction.
      destruct (selectionRange (ui w)), (hasOnAiRequest w); cbn; try exact IH.
      intros _. lia.
    + discriminate.
    + unfold handleAiAction.
      destruct (selectionRange (ui w)), (hasOnAiRequest w); cbn; try exact IH.
      intros _. lia.
    + discriminate.
    + destruct t; discriminate.
  - pose proof (dispatch_keeps_ai e w Ha) as K. unfold aiState in K.
    injection K as K1 K2. rewrite K1, K2. exact IH.
Qed.

End Released.

(** C7.  The loading state of the bubble menu is released.  A click on an AI
    action with a remembered selection hands the request to the host and
    puts the menu in the loading state.  In every state the editor can reach,
    a loading menu has a promise of the host pending.  The promise of the
    host is fulfilled whether the request was answered or failed, since the
    host resolves it in a [finally] block; and when it settles, the
    continuation of [handleAiAction] sets the mode back to [AiNone], closes
    the menu and empties the prompt. *)
Theorem ai_loading_is_released :
  forall (lay : Page -> Layout) (w : World),
    reachable lay w ->
    (forall instruction customPrompt range,
       selectionRange (ui w) = Some range -> hasOnAiRequest w = true ->
       exists w', handleAiAction instruction customPrompt (ui w) w = Done w' /\
                  aiMode (ui w') = AiLoading /\ aiPending w' = S (aiPending w) /\
                  length (aiRequests w') = S (length (aiRequests w))) /\
    (aiMode (ui w) = AiLoading -> forall t, enabled (AiSettles t) w = true) /\
    (forall t, enabled (AiSettles t) w = true ->
       fst (handleAiImprove t w) = Fulfilled /\
       exists w', dispatch lay (AiSettles t) w = Done w' /\
                  aiMode (ui w') = AiNone /\ showBubbleMenu (ui w') = false /\
                  aiPrompt (ui w') = [] /\ aiPending w' = (aiPending w - 1)%nat).
Proof.
  intros lay w Hr. split; [|split].
  - intros instruction customPrompt range Hs Ha. unfold handleAiAction.
    rewrite Hs, Ha. eexists. split; [reflexivity|]. cbn.
    split; [reflexivity|]. split; [reflexivity|]. rewrite length_app. cbn. lia.
  - intros Hm t. cbn [enabled]. apply Nat.ltb_lt.
    exact (loading_has_a_promise Hr Hm).
  - intros t _. split; [reflexivity|].
    cbn [dispatch]. cbv zeta. destruct t; eexists; (split; [reflexivity|]);
      repeat split.
Qed.

(** The request of [aiSubmitted] fails: the menu was loading, and is reset. *)
Lemma ai_loading_is_released_witness :
  let failed := Failed Rejection (page aiSubmitted) in
  aiMode (ui aiSubmitted) = AiLoading /\
  enabled (AiSettles failed) aiSubmitted = true /\
  exists w', dispatch flatLayout (AiSettles failed) aiSubmitted = Done w' /\
             aiMode (ui w') = AiNone /\ showBubbleMenu (ui w') = false.
Proof.
  intros failed.
  assert (R : reachable flatLayout aiSubmitted).
  { apply reachable_run; [constructor|]. vm_compute. reflexivity. }
  assert (L : aiMode (ui aiSubmitted) = AiLoading) by (vm_compute; reflexivity).
  destruct (@ai_loading_is_released flatLayout aiSubmitted R) as [_ [P S]].
  split; [exact L|]. split; [exact (P L failed)|].
  destruct (S failed (P L failed)) as [_ [w' [H1 [H2 [H3 _]]]]].
  exists w'. split; [exact H1|]. split; [exact H2 | exact H3].
Defined.

(** *** Trees *)

Lemma Node_ind2 (P : Node -> Prop) :
  (forall i d, P (TextNode i d)) ->
  (forall i nm a cs, Forall P cs -> P (Element i nm a cs)) ->
  forall n, P n.
Proof.
  intros Ht He. fix IH 1. intros [i d | i nm a cs].
  - apply Ht.
  - apply He. induction cs as [|c r IHr]; constructor; [apply IH | exact IHr].
Qed.

Lemma containsId_hasId (id : nat) (n : Node) :
  containsId id n = false -> hasId id n = false.
Proof.
  destruct n; simpl; intros H; apply orb_false_iff in H; tauto.
Qed.

Lemma substNode_absent (id : nat) (new : list Node) (n : Node) :
  containsId id n = false -> substNode id new n = n.
Proof.
  induction n as [i d | i nm a cs IH] using Node_ind2; intros H; [reflexivity|].
  simpl in *. apply orb_false_iff in H. destruct H as [_ H]. f_equal.
  induction cs as [|c r IHr]; [reflexivity|].
  simpl in H. apply orb_false_iff in H. destruct H as [Hc Hr].
  inversion IH as [|? ? IHc IHrest]; subst. simpl.
  rewrite (containsId_hasId _ _ Hc), (IHc Hc). simpl. f_equal. apply IHr; assumption.
Qed.

Lemma substForest_absent (id : nat) (new : list Node) (cs : list Node) :
  existsb (containsId id) cs = false -> substForest id new cs = cs.
Proof.
  induction cs as [|c r IH]; intros H; [reflexivity|].
  simpl in H. apply orb_false_iff in H. destruct H as [Hc Hr].
  unfold substForest in *. simpl.
  rewrite (containsId_hasId _ _ Hc), (substNode_absent _ _ _ Hc). simpl.
  f_equal. apply IH. exact Hr.
Qed.

Lemma substNode_id (id : nat) (new : list Node) (n : Node) :
  nodeId (substNode id new n) = nodeId n.
Proof. destruct n; reflexivity. Qed.

Lemma hasId_eq (id : nat) (n : Node) : hasId id n = true <-> nodeId n = id.
Proof. unfold hasId. apply Nat.eqb_eq. Qed.

Lemma hasId_neq (id : nat) (n : Node) : hasId id n = false <-> nodeId n <> id.
Proof. unfold hasId. apply Nat.eqb_neq. Qed.

(** Replacing the node [id] by one node of the same identity keeps the
    identities of the forest. *)
Lemma substForest_ids (id : nat) (n' : Node) (cs : list Node) :
  nodeId n' = id ->
  map nodeId (substForest id [n'] cs) = map nodeId cs.
Proof.
  intros Hn. unfold substForest.
  induction cs as [|c r IH]; [reflexivity|]. simpl.
  destruct (hasId id c) eqn:E; simpl; rewrite IH; f_equal.
  - apply hasId_eq in E. congruence.
  - apply substNode_id.
Qed.

(** *** Siblings at the ends of the root *)

Lemma prevIn_absent (id : nat) (a : Node) (rest : list Node) :
  ~ In id (map nodeId rest) -> prevIn id (a :: rest) = None.
Proof.
  revert a. induction rest as [|b r IH]; intros a H; [reflexivity|].
  simpl in *.
  destruct (hasId id b) eqn:E.
  - apply hasId_eq in E. exfalso. apply H. now left.
  - apply IH. intros Hin. apply H. now right.
Qed.

Lemma nextIn_last (id : nat) (init : list Node) (b : Node) :
  ~ In id (map nodeId init) -> nextIn id (init ++ [b]) = None.
Proof.
  induction init as [|a r IH]; intros H; simpl.
  - destruct (hasId id b); reflexivity.
  - simpl in H. destruct (hasId id a) eqn:E.
    + apply hasId_eq in E. exfalso. apply H. now left.
    + apply IH. intros Hin. apply H. now right.
Qed.

Lemma parentNode_root (pg : Page) (id : nat) :
  existsb (hasId id) (editorNodes pg) = true -> parentNode pg id = RootParent.
Proof. intros H. unfold parentNode. now rewrite H. Qed.

Lemma previousSibling_first (pg : Page) (b : Node) (rest : list Node) :
  editor pg = Some (b :: rest) -> NoDup (map nodeId (b :: rest)) ->
  previousSibling pg (nodeId b) = None.
Proof.
  intros He Hnd. unfold previousSibling, siblings.
  rewrite parentNode_root.
  - unfold editorNodes. rewrite He. rewrite prevIn_absent; [reflexivity|].
    inversion Hnd; assumption.
  - unfold editorNodes. rewrite He. simpl. unfold hasId. now rewrite Nat.eqb_refl.
Qed.

Lemma nextSibling_last (pg : Page) (init : list Node) (b : Node) :
  editor pg = Some (init ++ [b]) -> NoDup (map nodeId (init ++ [b])) ->
  nextSibling pg (nodeId b) = None.
Proof.
  intros He Hnd. unfold nextSibling, siblings.
  rewrite parentNode_root.
  - unfold editorNodes. rewrite He. rewrite nextIn_last; [reflexivity|].
    rewrite map_app in Hnd. simpl in Hnd.
    apply NoDup_remove_2 in Hnd. rewrite app_nil_r in Hnd. exact Hnd.
  - unfold editorNodes. rewrite He. rewrite existsb_app. simpl.
    unfold hasId. rewrite Nat.eqb_refl. now rewrite orb_true_r.
Qed.

(** *** Operations at the boundaries *)

Lemma move_up_without_previous (r : State) (w : World) (cs : list Node) (active : nat) :
  editor (page w) = Some cs -> activeBlock r = Some active ->
  previousSibling (page w) active = None ->
  exists w', handleBlockAction ActionUp r w = Done w' /\
             page w' = page w /\ emitted w' = emitted w ++ [innerHTML cs].
Proof.
  intros He Ha Hp. unfold handleBlockAction. rewrite Ha, He, Hp. cbn.
  eexists. split; [reflexivity|]. unfold currentHTML. rewrite He. split; reflexivity.
Qed.

Lemma move_down_without_next (r : State) (w : World) (cs : list Node) (active : nat) :
  editor (page w) = Some cs -> activeBlock r = Some active ->
  nextSibling (page w) active = None ->
  exists w', handleBlockAction ActionDown r w = Done w' /\
             page w' = page w /\ emitted w' = emitted w ++ [innerHTML cs].
Proof.
  intros He Ha Hn. unfold handleBlockAction. rewrite Ha, He, Hn. cbn.
  eexists. split; [reflexivity|]. unfold currentHTML. rewrite He. split; reflexivity.
Qed.

(** C10. An operation that changes nothing still emits.  Moving up a block
    that has no previous sibling, moving down a block that has no next
    sibling, and toggling inline code with an empty selection whose anchor is
    not in a code element all leave the page as it is and call [onChange]
    exactly once, with the serialisation of the unchanged root. *)
Theorem boundary_noops_still_emit :
  forall (lay : Page -> Layout) (r : State) (w : World) (cs : list Node),
    editor (page w) = Some cs ->
    (forall active, activeBlock r = Some active ->
       previousSibling (page w) active = None ->
       exists w', handleBlockAction ActionUp r w = Done w' /\
                  page w' = page w /\ emitted w' = emitted w ++ [innerHTML cs]) /\
    (forall active, activeBlock r = Some active ->
       nextSibling (page w) active = None ->
       exists w', handleBlockAction ActionDown r w = Done w' /\
                  page w' = page w /\ emitted w' = emitted w ++ [innerHTML cs]) /\
    (forall sel, selection (page w) = Some sel ->
       isCodeElement (anchorElement (page w) sel) = false ->
       selectionText (page w) sel = [] ->
       exists w', toggleInlineCode lay r w = Done w' /\
                  page w' = page w /\ emitted w' = emitted w ++ [innerHTML cs]).
Proof.
  intros lay r w cs He. split; [|split].
  - intros active Ha Hp. exact (move_up_without_previous _ _ He Ha Hp).
  - intros active Ha Hn. exact (move_down_without_next _ _ He Ha Hn).
  - intros sel Hs Hc Ht. unfold toggleInlineCode. rewrite Hs, Hc, Ht.
    destruct (anchorElement (page w) sel); cbn;
      (eexists; split; [reflexivity|]; unfold currentHTML; rewrite He; split; reflexivity).
Qed.

(** The three operations on the single paragraph [<p>a</p>], with the caret
    in it. *)
Lemma boundary_noops_still_emit_witness :
  let w := run flatLayout
             [Render (lit "<p>a</p>"); UserFocuses true; UserSelects (caret 1 1);
              MouseUp; TimerFires 0] (initialWorld false) in
  (exists w', handleBlockAction ActionUp (ui w) w = Done w' /\
              page w' = page w /\ emitted w' = emitted w ++ [lit "<p>a</p>"]) /\
  (exists w', handleBlockAction ActionDown (ui w) w = Done w' /\
              page w' = page w /\ emitted w' = emitted w ++ [lit "<p>a</p>"]) /\
  (exists w', toggleInlineCode flatLayout (ui w) w = Done w' /\
              page w' = page w /\ emitted w' = emitted w ++ [lit "<p>a</p>"]).
Proof.
  intros w.
  destruct (@boundary_noops_still_emit flatLayout (ui w) w
              [Element 0 (lit "p") [] [TextNode 1 (lit "a")]] eq_refl)
    as [Hup [Hdown Htoggle]].
  split; [|split].
  - apply (Hup 0%nat); reflexivity.
  - apply (Hdown 0%nat); reflexivity.
  - apply (Htoggle (caretAt (Ref 1) 1)); reflexivity.
Defined.

(** *** Resolving references *)

Lemma firstSome_some {A B : Type} (f : A -> option B) (l : list A) (b : B) :
  firstSome f l = Some b -> exists a, In a l /\ f a = Some b.
Proof.
  induction l as [|a r IH]; simpl; [discriminate|].
  destruct (f a) eqn:E.
  - intros H. injection H as <-. exists a. split; [now left | exact E].
  - intros H. destruct (IH H) as [a' [Hin Ha']]. exists a'. split; [now right | exact Ha'].
Qed.

Lemma findNode_id (id : nat) (n m : Node) : findNode id n = Some m -> nodeId m = id.
Proof.
  induction n as [i d | i nm a cs IH] using Node_ind2; simpl.
  - destruct (hasId id (TextNode i d)) eqn:E; [|discriminate].
    intros H. injection H as <-. now apply hasId_eq.
  - destruct (hasId id (Element i nm a cs)) eqn:E.
    + intros H. injection H as <-. now apply hasId_eq.
    + intros H. apply firstSome_some in H. destruct H as [c [Hin Hc]].
      rewrite Forall_forall in IH. exact (IH c Hin Hc).
Qed.

Lemma resolve_id (pg : Page) (id : nat) (n : Node) :
  resolve pg id = Some n -> nodeId n = id.
Proof.
  unfold resolve. intros H. apply firstSome_some in H.
  destruct H as [c [_ Hc]]. exact (findNode_id _ _ Hc).
Qed.

Lemma findNode_absent (id : nat) (n : Node) :
  containsId id n = false -> findNode id n = None.
Proof.
  induction n as [i d | i nm a cs IH] using Node_ind2; intros H.
  - simpl in *. rewrite orb_false_r in H. now rewrite H.
  - simpl in *. apply orb_false_iff in H. destruct H as [H1 H2]. rewrite H1.
    induction cs as [|c r IHr]; [reflexivity|].
    simpl in *. apply orb_false_iff in H2. destruct H2 as [Hc Hr].
    inversion IH as [|? ? IHc IHrest]; subst. rewrite (IHc Hc). apply IHr; assumption.
Qed.

Lemma findNode_self (n : Node) : findNode (nodeId n) n = Some n.
Proof.
  destruct n; simpl; unfold hasId; simpl; now rewrite Nat.eqb_refl.
Qed.

Lemma firstSome_top (id : nat) (cs rest : list Node) (c : Node) :
  topLevelOnly id cs -> NoDup (map nodeId cs) -> In c cs -> nodeId c = id ->
  firstSome (findNode id) (cs ++ rest) = Some c.
Proof.
  induction cs as [|a r IH]; intros Htop Hnd Hin Hc; [contradiction|].
  simpl. destruct Hin as [-> | Hin].
  - subst id. now rewrite findNode_self.
  - simpl in Hnd. apply NoDup_cons_iff in Hnd. destruct Hnd as [Hni Hnd].
    assert (Ha : nodeId a <> id).
    { intros E. apply Hni. rewrite E, <- Hc. now apply in_map. }
    rewrite findNode_absent by (apply Htop; [now left | exact Ha]).
    apply IH; try assumption.
    intros x Hx. apply Htop. now right.
Qed.

Lemma substForest_top (id : nat) (n' : Node) (cs : list Node) :
  topLevelOnly id cs ->
  substForest id [n'] cs = map (fun c => if hasId id c then n' else c) cs.
Proof.
  unfold substForest. induction cs as [|a r IH]; intros Htop; [reflexivity|].
  simpl. rewrite IH by (intros x Hx; apply Htop; now right).
  destruct (hasId id a) eqn:E; [reflexivity|]. simpl. f_equal.
  apply substNode_absent. apply Htop; [now left|]. now apply hasId_neq.
Qed.

Lemma map_replace_same (id : nat) (f : Node -> Node) (c : Node) (cs : list Node) :
  NoDup (map nodeId cs) -> In c cs -> nodeId c = id ->
  map (fun x => if hasId id x then f c else x) cs
  = map (fun x => if hasId id x then f x else x) cs.
Proof.
  intros Hnd Hin Hc. apply map_ext_in. intros x Hx.
  destruct (hasId id x) eqn:E; [|reflexivity].
  apply hasId_eq in E. f_equal.
  clear f. induction cs as [|a r IH]; [contradiction|].
  simpl in Hnd. apply NoDup_cons_iff in Hnd. destruct Hnd as [Hni Hnd].
  destruct Hin as [Ea | Hin], Hx as [Ex | Hx].
  - congruence.
  - exfalso. apply Hni. rewrite Ea, Hc, <- E. now apply in_map.
  - exfalso. apply Hni. rewrite Ex, E, <- Hc. now apply in_map.
  - now apply IH.
Qed.

Lemma removeClass_shape (tok : jsstring) (n : Node) :
  nodeId (removeClass tok n) = nodeId n /\
  tagName (removeClass tok n) = tagName n /\
  children (removeClass tok n) = children n.
Proof.
  destruct n as [i d | i nm a cs]; simpl; [repeat split|].
  destruct (getAttr classAttr a); repeat split.
Qed.

(** *** The end of a drag *)

Lemma handleDrop_no_target (r : State) (w : World) :
  dropTargetInfo r = None -> handleDrop r w = handleDragEnd r w.
Proof.
  intros H. unfold handleDrop. rewrite H.
  destruct (isDragging r); [|reflexivity].
  destruct (activeBlock r); reflexivity.
Qed.

Lemma updateClassList_ids (f : Node -> Node) (id : nat) (pg pg' : Page) :
  (forall n, nodeId (f n) = nodeId n) ->
  updateClassList f id pg = Ok pg' ->
  map nodeId (editorNodes pg') = map nodeId (editorNodes pg).
Proof.
  intros Hf. unfold updateClassList.
  destruct (resolve pg id) as [[i d | i nm a cs]|] eqn:E; try discriminate.
  - intros H. injection H as <-. unfold editorNodes, substPage. simpl.
    destruct (editor pg) as [l|]; [|reflexivity]. simpl.
    apply substForest_ids. rewrite Hf. exact (resolve_id _ _ E).
  - intros H. injection H as <-. reflexivity.
Qed.

(** The end of a drag takes the marker class off the dragged block and
    leaves every other block as it is. *)
Lemma handleDragEnd_strips (r : State) (w : World) (a : nat) (cs : list Node) :
  activeBlock r = Some a -> editor (page w) = Some cs ->
  NoDup (map nodeId cs) -> topLevelOnly a cs ->
  (forall n, resolve (page w) a = Some n -> isElement n = true) ->
  exists w', handleDragEnd r w = Done w' /\
             editor (page w')
             = Some (map (fun c => if hasId a c then removeClass dimClass c else c) cs) /\
             emitted w' = emitted w /\ timers w' = timers w.
Proof.
  intros Ha He Hnd Htop Hel. unfold handleDragEnd.
  set (w1 := upd (setDropTargetInfo None)
               (upd (setDropIndicator None) (upd (setIsDragging false) w))).
  assert (Hp : page w1 = page w) by reflexivity.
  rewrite Ha. unfold liftPage, updateClassList. rewrite Hp.
  assert (Hsame : forall x, In x cs -> hasId a x = true -> resolve (page w) a = Some x).
  { intros x Hx Hid. unfold resolve, allNodes, editorNodes. rewrite He.
    apply firstSome_top; try assumption. now apply hasId_eq. }
  destruct (resolve (page w) a) as [[i d | i nm at0 cs0]|] eqn:E.
  - specialize (Hel _ eq_refl). discriminate.
  - eexists. split; [reflexivity|]. split; [|split; reflexivity].
    simpl. rewrite He. simpl. f_equal.
    rewrite substForest_top by assumption.
    apply map_ext_in. intros x Hx. destruct (hasId a x) eqn:Hid; [|reflexivity].
    specialize (Hsame x Hx Hid). injection Hsame as <-. reflexivity.
  - exists w1. split; [reflexivity|]. split; [|split; reflexivity].
    rewrite Hp, He. f_equal.
    rewrite <- (map_id cs) at 1. apply map_ext_in. intros x Hx.
    destruct (hasId a x) eqn:Hid; [|reflexivity].
    specialize (Hsame x Hx Hid). discriminate.
Qed.

(** *** Drag and drop: the target *)

(** The comparison of two numbers is that of the values they stand for: it
    is transitive and no number is below itself. *)
Lemma SFltb_trans (a b c : spec_float) :
  SFltb a b = true -> SFltb b c = true -> SFltb a c = true.
Proof.
  unfold SFltb, SFcompare.
  destruct a as [sa|sa| |sa ma ea], b as [sb|sb| |sb mb eb], c as [sc|sc| |sc mc ec];
    try destruct sa; try destruct sb; try destruct sc;
    try (intros; discriminate); try (intros; reflexivity).
  all: change (Pos.compare_cont Eq) with Pos.compare.
  all: destruct (Z.compare_spec ea eb), (Z.compare_spec eb ec), (Z.compare_spec ea ec);
    try (intros; discriminate); try (intros; reflexivity); try lia.
  all: destruct (Pos.compare_spec ma mb), (Pos.compare_spec mb mc), (Pos.compare_spec ma mc);
    cbn; try (intros; discriminate); try (intros; reflexivity); try lia.
Qed.

Lemma SFltb_irrefl (a : spec_float) : SFltb a a = false.
Proof.
  unfold SFltb, SFcompare. destruct a as [s|s| |s m e]; try destruct s; try reflexivity.
  all: rewrite Z.compare_refl; change (Pos.compare_cont Eq) with Pos.compare;
    rewrite Pos.compare_refl; reflexivity.
Qed.

Lemma ltb_trans (a b c : float) :
  (a <? b)%float = true -> (b <? c)%float = true -> (a <? c)%float = true.
Proof. rewrite !ltb_spec. apply SFltb_trans. Qed.

Lemma ltb_irrefl (a : float) : (a <? a)%float = false.
Proof. rewrite ltb_spec. apply SFltb_irrefl. Qed.

(** A number that is not below [b] is not below what is below [b]. *)
Lemma ltb_not_below (a b c : float) :
  (a <? b)%float = false -> (c <? b)%float = true -> (a <? c)%float = false.
Proof.
  intros H1 H2. destruct (a <? c)%float eqn:E; [|reflexivity].
  rewrite (ltb_trans E H2) in H1. discriminate.
Qed.

Section DragOver.

Variables (lay : Layout) (active : nat) (clientY : float).

Lemma scanChild_scanned (seen : list Node) (acc : option nat * float) (c : Node) :
  scanned lay active clientY seen acc ->
  scanned lay active clientY (seen ++ [c]) (scanChild lay active clientY acc c).
Proof.
  intros H. unfold scanChild.
  destruct (hasId active c) eqn:Ha.
  - apply hasId_eq in Ha.
    destruct acc as [[t|] d]; simpl in *.
    + destruct H as [Hd [[x [Hx Hxt]] [Hne [Hlt Hmin]]]].
      split; [exact Hd|]. split; [exists x; split; [apply in_or_app; now left | exact Hxt]|].
      split; [exact Hne|]. split; [exact Hlt|].
      intros y Hy Hc. apply in_app_or in Hy. destruct Hy as [Hy | [<- | []]].
      * now apply Hmin.
      * now elim Hc.
    + destruct H as [Hd Hfar]. split; [exact Hd|].
      intros y Hy Hc. apply in_app_or in Hy. destruct Hy as [Hy | [<- | []]].
      * now apply Hfar.
      * now elim Hc.
  - apply hasId_neq in Ha. fold (distance lay clientY (nodeId c)).
    destruct ((distance lay clientY (nodeId c) <? snd acc)%float
              && (distance lay clientY (nodeId c) <? 150)%float) eqn:E.
    + apply andb_true_iff in E. destruct E as [E1 E2].
      simpl. split; [reflexivity|].
      split; [exists c; split; [apply in_or_app; right; now left | reflexivity]|].
      split; [exact Ha|]. split; [exact E2|].
      intros y Hy Hc. apply in_app_or in Hy. destruct Hy as [Hy | [<- | []]].
      * destruct acc as [[t|] d]; simpl in *.
        -- destruct H as [_ [_ [_ [_ Hmin]]]].
           exact (ltb_not_below (Hmin y Hy Hc) E1).
        -- destruct H as [_ Hfar]. exact (ltb_not_below (Hfar y Hy Hc) E2).
      * apply ltb_irrefl.
    + apply andb_false_iff in E.
      destruct acc as [[t|] d]; simpl in *.
      * destruct H as [Hd [[x [Hx Hxt]] [Hne [Hlt Hmin]]]].
        split; [exact Hd|]. split; [exists x; split; [apply in_or_app; now left | exact Hxt]|].
        split; [exact Hne|]. split; [exact Hlt|].
        intros y Hy Hc. apply in_app_or in Hy. destruct Hy as [Hy | [<- | []]].
        -- now apply Hmin.
        -- destruct E as [E | E]; [exact E|]. exact (ltb_not_below E Hlt).
      * destruct H as [Hd Hfar]. split; [exact Hd|].
        intros y Hy Hc. apply in_app_or in Hy. destruct Hy as [Hy | [<- | []]].
        -- now apply Hfar.
        -- destruct E as [E | E]; [|exact E]. subst d.
           apply ltb_not_below with (b := PrimFloat.infinity); [exact E | reflexivity].
Qed.

Lemma fold_scanned (l seen : list Node) (acc : option nat * float) :
  scanned lay active clientY seen acc ->
  scanned lay active clientY (seen ++ l) (fold_left (scanChild lay active clientY) l acc).
Proof.
  revert seen acc. induction l as [|c r IH]; intros seen acc H; simpl.
  - now rewrite app_nil_r.
  - replace (seen ++ c :: r) with ((seen ++ [c]) ++ r)
      by (rewrite <- app_assoc; reflexivity).
    apply IH. now apply scanChild_scanned.
Qed.

(** The scan of [handleDragOver] finds a candidate nearer than 150 pixels
    that no candidate is nearer than, and none only when there is none that
    near.  The distances are the computed ones and the comparisons those of
    the scan. *)
Lemma closestBlock_nearest (cs : list Node) :
  match closestBlock lay active clientY cs with
  | Some t =>
      (exists c, In c cs /\ isElement c = true /\ nodeId c = t) /\ t <> active /\
      (distance lay clientY t <? 150)%float = true /\
      (forall c, In c cs -> isElement c = true -> nodeId c <> active ->
                 (distance lay clientY (nodeId c) <? distance lay clientY t)%float = false)
  | None =>
      forall c, In c cs -> isElement c = true -> nodeId c <> active ->
                (distance lay clientY (nodeId c) <? 150)%float = false
  end.
Proof.
  unfold closestBlock.
  assert (H0 : scanned lay active clientY [] (None, PrimFloat.infinity))
    by (split; [reflexivity | intros c []]).
  pose proof (fold_scanned (elementChildren cs) [] _ H0) as H. simpl in H.
  destruct (fold_left _ _ _) as [[t|] d]; simpl in *.
  - destruct H as [Hd [[x [Hx Hxt]] [Hne [Hlt Hmin]]]]. subst d.
    unfold elementChildren in *. apply filter_In in Hx.
    split; [exists x; tauto|]. split; [exact Hne|]. split; [exact Hlt|].
    intros c Hc He Hn. apply Hmin; [|exact Hn]. apply filter_In. now split.
  - destruct H as [_ H]. intros c Hc He Hn. apply H; [|exact Hn]. apply filter_In. now split.
Qed.

End DragOver.

(** *** Drag and drop: the move *)

Lemma removeForest_top (id : nat) (cs : list Node) :
  topLevelOnly id cs ->
  removeForest id cs = filter (fun c => negb (hasId id c)) cs.
Proof.
  unfold removeForest, substForest.
  induction cs as [|a r IH]; intros Htop; [reflexivity|].
  simpl. rewrite IH by (intros x Hx; apply Htop; now right).
  destruct (hasId id a) eqn:E; [reflexivity|]. simpl. f_equal.
  apply substNode_absent. apply Htop; [now left|]. now apply hasId_neq.
Qed.

Lemma filter_without (id : nat) (l : list Node) :
  ~ In id (map nodeId l) -> filter (fun c => negb (hasId id c)) l = l.
Proof.
  induction l as [|a r IH]; intros H; [reflexivity|]. simpl in *.
  destruct (hasId id a) eqn:E.
  - apply hasId_eq in E. exfalso. apply H. now left.
  - simpl. f_equal. apply IH. intros Hin. apply H. now right.
Qed.

Lemma filter_middle (p q : list Node) (A : Node) :
  NoDup (map nodeId (p ++ A :: q)) ->
  filter (fun c => negb (hasId (nodeId A) c)) (p ++ A :: q) = p ++ q.
Proof.
  intros Hnd. rewrite map_app in Hnd. simpl in Hnd.
  pose proof (NoDup_remove_2 _ _ _ Hnd) as Hni.
  rewrite filter_app. simpl. unfold hasId at 2. rewrite Nat.eqb_refl. simpl.
  rewrite !filter_without; [reflexivity | |];
    intros Hin; apply Hni; apply in_or_app; [now right | now left].
Qed.

Lemma absent_hasId (id : nat) (l : list Node) :
  ~ In id (map nodeId l) -> forall c, In c l -> hasId id c = false.
Proof.
  intros H c Hc. apply hasId_neq. intros E. apply H. rewrite <- E. now apply in_map.
Qed.

Lemma insertAt_before (t : nat) (A T : Node) (l1 l2 : list Node) :
  (forall c, In c l1 -> hasId t c = false) -> hasId t T = true ->
  insertAt (Some t) A (l1 ++ T :: l2) = l1 ++ A :: T :: l2.
Proof.
  intros H1 HT. induction l1 as [|a r IH]; simpl.
  - now rewrite HT.
  - rewrite (H1 a) by now left. f_equal. apply IH. intros c Hc. apply H1. now right.
Qed.

Lemma insertAt_end (A : Node) (l : list Node) : insertAt None A l = l ++ [A].
Proof. induction l as [|a r IH]; simpl; [reflexivity | now rewrite IH]. Qed.

Lemma nextIn_at (t : nat) (T : Node) (l1 l2 : list Node) :
  (forall c, In c l1 -> hasId t c = false) -> hasId t T = true ->
  nextIn t (l1 ++ T :: l2) = hd_error l2.
Proof.
  intros H1 HT. induction l1 as [|a r IH]; simpl.
  - now rewrite HT.
  - rewrite (H1 a) by now left. apply IH. intros c Hc. apply H1. now right.
Qed.

Lemma existsb_hasId_in (id : nat) (c : Node) (l : list Node) :
  In c l -> nodeId c = id -> existsb (hasId id) l = true.
Proof.
  intros Hin Hc. apply existsb_exists. exists c. split; [exact Hin | now apply hasId_eq].
Qed.

(** The sibling after a child of the root. *)
Lemma nextSibling_at (pg : Page) (T : Node) (l1 l2 : list Node) :
  editor pg = Some (l1 ++ T :: l2) -> NoDup (map nodeId (l1 ++ T :: l2)) ->
  nextSibling pg (nodeId T) = option_map nodeId (hd_error l2).
Proof.
  intros He Hnd. unfold nextSibling, siblings.
  rewrite parentNode_root.
  - unfold editorNodes. rewrite He. rewrite nextIn_at; [reflexivity | |].
    + apply absent_hasId. rewrite map_app in Hnd. simpl in Hnd.
      pose proof (NoDup_remove_2 _ _ _ Hnd) as Hni.
      intros Hin. apply Hni. apply in_or_app. now left.
    + now apply hasId_eq.
  - unfold editorNodes. rewrite He.
    apply existsb_hasId_in with (c := T); [|reflexivity].
    apply in_or_app. right. now left.
Qed.

Lemma resolve_top (pg : Page) (cs : list Node) (A : Node) :
  editor pg = Some cs -> NoDup (map nodeId cs) -> topLevelOnly (nodeId A) cs ->
  In A cs -> resolve pg (nodeId A) = Some A.
Proof.
  intros He Hnd Htop Hin. unfold resolve, allNodes, editorNodes. rewrite He.
  now apply firstSome_top.
Qed.

(** [insertBefore] on a child [A] of the root: [A] is taken out and put back
    before the reference child; asked to go before itself, it goes before its
    next sibling. *)
Lemma insertBefore_child (pg : Page) (A : Node) (p q : list Node) (ref : option nat) :
  editor pg = Some (p ++ A :: q) ->
  NoDup (map nodeId (p ++ A :: q)) -> topLevelOnly (nodeId A) (p ++ A :: q) ->
  (forall r, ref = Some r -> existsb (hasId r) (p ++ A :: q) = true) ->
  let ref' := match ref with
              | Some r => if Nat.eqb r (nodeId A)
                          then option_map nodeId (hd_error q) else ref
              | None => None
              end in
  exists pg', insertBefore (nodeId A) ref pg = Ok pg' /\
              editor pg' = Some (insertAt ref' A (p ++ q)) /\
              others pg' = removeForest (nodeId A) (others pg).
Proof.
  intros He Hnd Htop Href ref'. unfold insertBefore. rewrite He.
  assert (Hok : negb match ref with
                     | Some r => existsb (hasId r) (p ++ A :: q)
                     | None => true
                     end = false).
  { destruct ref as [r|]; [|reflexivity]. now rewrite (Href r eq_refl). }
  rewrite Hok.
  assert (Hin : In A (p ++ A :: q)) by (apply in_or_app; right; now left).
  rewrite (@resolve_top pg _ A He Hnd Htop Hin).
  assert (Hr : match ref with
               | Some r => if Nat.eqb r (nodeId A) then nextSibling pg (nodeId A) else ref
               | None => None
               end = ref').
  { unfold ref'. destruct ref as [r|]; [|reflexivity].
    destruct (Nat.eqb r (nodeId A)); [|reflexivity].
    apply (@nextSibling_at pg A p q He Hnd). }
  rewrite Hr.
  assert (Hcs : editorNodes (unlink (nodeId A) pg) = p ++ q).
  { unfold unlink, editorNodes. simpl. rewrite He. simpl.
    rewrite removeForest_top by exact Htop. now apply filter_middle. }
  eexists. split; [reflexivity|]. rewrite Hcs. split; reflexivity.
Qed.

Lemma strip_elsewhere (a : nat) (f : Node -> Node) (l : list Node) :
  ~ In a (map nodeId l) -> map (fun c => if hasId a c then f c else c) l = l.
Proof.
  intros H. rewrite <- (map_id l) at 2. apply map_ext_in.
  intros c Hc. now rewrite (absent_hasId _ _ H c Hc).
Qed.

Lemma NoDup_ids_perm (l l' : list Node) :
  Permutation l l' -> NoDup (map nodeId l) -> NoDup (map nodeId l').
Proof.
  intros Hp. apply Permutation_NoDup. now apply Permutation_map.
Qed.

(** Where the dragged block [A] goes: with the other blocks being
    [l1 ++ T :: l2], [T] the target, it lands just before or just after [T].
    The content is emitted with the marker class still on [A]; the end of the
    drag then takes it off. *)
Lemma handleDrop_moves (r : State) (w : World) (t : DropTarget)
  (A T : Node) (p q l1 l2 : list Node) :
  isDragging r = true -> activeBlock r = Some (nodeId A) ->
  dropTargetInfo r = Some t ->
  editor (page w) = Some (p ++ A :: q) ->
  NoDup (map nodeId (p ++ A :: q)) -> topLevelOnly (nodeId A) (p ++ A :: q) ->
  isElement A = true ->
  p ++ q = l1 ++ T :: l2 -> nodeId T = el t ->
  let placed := fun X => match pos t with
                         | Before => l1 ++ X :: T :: l2
                         | After => l1 ++ T :: X :: l2
                         end in
  exists w', handleDrop r w = Done w' /\
             editor (page w') = Some (placed (removeClass dimClass A)) /\
             emitted w' = emitted w ++ [innerHTML (placed A)] /\
             timers w' = timers w ++ [mkTimer UpdateActiveBlockTask 50 r].
Proof.
  intros Hdrag Hact Htarget He Hnd Htop HelA Hrest HT placed.
  set (a := nodeId A) in *.
  (* facts about identities *)
  assert (Hperm : Permutation (p ++ A :: q) (A :: l1 ++ T :: l2)).
  { rewrite <- Hrest. symmetry. apply Permutation_middle. }
  pose proof (NoDup_ids_perm Hperm Hnd) as Hnd2. simpl in Hnd2.
  apply NoDup_cons_iff in Hnd2. destruct Hnd2 as [HA Hnd2]. fold a in HA.
  assert (Hta : el t <> a).
  { intros E. apply HA. rewrite <- E, <- HT. apply in_map. apply in_or_app. right. now left. }
  assert (HTin : In T (p ++ A :: q)).
  { apply (Permutation_in _ (Permutation_sym Hperm)). right. apply in_or_app. right. now left. }
  assert (Hl1 : forall c, In c l1 -> hasId (el t) c = false).
  { apply absent_hasId. rewrite map_app in Hnd2. simpl in Hnd2.
    pose proof (NoDup_remove_2 _ _ _ Hnd2) as Hni. rewrite HT in Hni.
    intros Hin. apply Hni. apply in_or_app. now left. }
  assert (HTt : hasId (el t) T = true) by now apply hasId_eq.
  (* the insertion *)
  assert (Hins : exists pg', 
            match pos t with
            | Before => insertBefore a (Some (el t)) (page w)
            | After => insertBefore a (nextSibling (page w) (el t)) (page w)
            end = Ok pg' /\ editor pg' = Some (placed A) /\
            others pg' = removeForest a (others (page w))).
  { unfold placed. destruct (pos t).
    - destruct (@insertBefore_child (page w) A p q (Some (el t)) He Hnd Htop)
        as [pg' [H1 [H2 H3]]].
      { intros r0 Hr0. injection Hr0 as <-. now apply existsb_hasId_in with (c := T). }
      exists pg'. split; [exact H1|]. split; [|exact H3].
      rewrite H2. fold a. apply Nat.eqb_neq in Hta. rewrite Hta.
      rewrite Hrest. f_equal. now apply insertAt_before.
    - (* the sibling after the target, in the root as it is before the move *)
      assert (Hnext : exists ref,
                nextSibling (page w) (el t) = ref /\
                (forall r0, ref = Some r0 -> existsb (hasId r0) (p ++ A :: q) = true) /\
                match ref with
                | Some r0 => if Nat.eqb r0 a then option_map nodeId (hd_error q) else ref
                | None => None
                end = option_map nodeId (hd_error l2)).
      { apply app_eq_app in Hrest. destruct Hrest as [l [[Hp Hq] | [Hl Hq]]].
        - destruct l as [|x l].
          + (* the target opens [q] *)
            simpl in Hq. rewrite app_nil_r in Hp. subst p q.
            exists (option_map nodeId (hd_error l2)). rewrite <- HT. split; [|split].
            * apply (@nextSibling_at (page w) T (l1 ++ [A]) l2).
              -- rewrite <- app_assoc. exact He.
              -- rewrite <- app_assoc. exact Hnd.
            * intros r0 Hr0. destruct l2 as [|y l2]; [discriminate|].
              simpl in Hr0. injection Hr0 as <-.
              apply existsb_hasId_in with (c := y); [|reflexivity].
              apply in_or_app. right. right. right. now left.
            * destruct l2 as [|y l2]; [reflexivity|]. simpl.
              assert (Hy : nodeId y <> a).
              { intros E. apply HA. rewrite <- E. apply in_map.
                apply in_or_app. right. right. now left. }
              apply Nat.eqb_neq in Hy. now rewrite Hy.
          + (* the target is in [p] *)
            simpl in Hq. injection Hq as <- ->. subst p.
            exists (option_map nodeId (hd_error (l ++ A :: q))). rewrite <- HT.
            split; [|split].
            * apply (@nextSibling_at (page w) T l1 (l ++ A :: q)).
              -- rewrite <- app_assoc in He. exact He.
              -- rewrite <- app_assoc in Hnd. exact Hnd.
            * intros r0 Hr0. destruct l as [|y l]; simpl in Hr0; injection Hr0 as <-.
              -- apply existsb_hasId_in with (c := A); [|reflexivity].
                 apply in_or_app. right. now left.
              -- apply existsb_hasId_in with (c := y); [|reflexivity].
                 apply in_or_app. left. apply in_or_app. right. right. now left.
            * destruct l as [|y l]; simpl.
              -- fold a. now rewrite Nat.eqb_refl.
              -- assert (Hy : nodeId y <> a).
                 { intros E. apply HA. rewrite <- E. apply in_map.
                   apply in_or_app. right. right. now left. }
                 apply Nat.eqb_neq in Hy. now rewrite Hy.
        - (* the target is in [q], after some [l] *)
          subst l1 q.
          exists (option_map nodeId (hd_error l2)). rewrite <- HT. split; [|split].
          + apply (@nextSibling_at (page w) T (p ++ A :: l) l2).
            * rewrite <- app_assoc. exact He.
            * rewrite <- app_assoc. exact Hnd.
          + intros r0 Hr0. destruct l2 as [|y l2]; [discriminate|].
            simpl in Hr0. injection Hr0 as <-.
            apply existsb_hasId_in with (c := y); [|reflexivity].
            apply in_or_app. right. right. apply in_or_app. right. right. now left.
          + destruct l2 as [|y l2]; [reflexivity|]. simpl.
            assert (Hy : nodeId y <> a).
            { intros E. apply HA. rewrite <- E. apply in_map.
              apply in_or_app. right. right. now left. }
            apply Nat.eqb_neq in Hy. rewrite Hy.
            destruct l; reflexivity. }
      destruct Hnext as [ref [Hn [Hvalid Href]]]. rewrite Hn.
      destruct (@insertBefore_child (page w) A p q ref He Hnd Htop Hvalid)
        as [pg' [H1 [H2 H3]]].
      exists pg'. split; [exact H1|]. split; [|exact H3].
      rewrite H2. fold a. rewrite Href, Hrest.
      destruct l2 as [|y l2]; simpl.
      + rewrite insertAt_end. rewrite <- app_assoc. reflexivity.
      + replace (l1 ++ T :: y :: l2) with ((l1 ++ [T]) ++ y :: l2)
          by (rewrite <- app_assoc; reflexivity).
        rewrite insertAt_before.
        * rewrite <- app_assoc. reflexivity.
        * apply absent_hasId.
          replace (l1 ++ T :: y :: l2) with ((l1 ++ [T]) ++ y :: l2) in Hnd2
            by (rewrite <- app_assoc; reflexivity).
          rewrite map_app in Hnd2. simpl in Hnd2.
          pose proof (NoDup_remove_2 _ _ _ Hnd2) as Hni.
          intros Hin. apply Hni. apply in_or_app. now left.
        * unfold hasId. apply Nat.eqb_refl. }
  destruct Hins as [pg' [Hok [Hed Hoth]]].
  unfold handleDrop. rewrite Hdrag, Hact, Htarget, He. fold a. rewrite Hok.
  cbn [liftPage andThen].
  set (w1 := onChange (currentHTML (setPage pg' w)) (setPage pg' w)).
  assert (Hperm2 : Permutation (A :: l1 ++ T :: l2) (placed A)).
  { unfold placed. destruct (pos t).
    - apply Permutation_middle.
    - replace (l1 ++ T :: A :: l2) with ((l1 ++ [T]) ++ A :: l2)
        by (rewrite <- app_assoc; reflexivity).
      replace (l1 ++ T :: l2) with ((l1 ++ [T]) ++ l2)
        by (rewrite <- app_assoc; reflexivity).
      apply Permutation_middle. }
  assert (Hperm3 : Permutation (p ++ A :: q) (placed A))
    by (eapply Permutation_trans; eassumption).
  destruct (@handleDragEnd_strips r w1 a (placed A)) as [w2 [H1 [H2 [H3 H4]]]].
  - exact Hact.
  - exact Hed.
  - exact (NoDup_ids_perm Hperm3 Hnd).
  - intros c Hc. apply Htop. exact (Permutation_in _ (Permutation_sym Hperm3) Hc).
  - intros n Hn.
    assert (Hres : resolve (page w1) a = Some A).
    { apply (@resolve_top (page w1) (placed A) A Hed).
      - exact (NoDup_ids_perm Hperm3 Hnd).
      - intros c Hc. apply Htop. exact (Permutation_in _ (Permutation_sym Hperm3) Hc).
      - apply (Permutation_in _ Hperm2). now left. }
    rewrite Hres in Hn. injection Hn as <-. exact HelA.
  - rewrite H1. cbn [andThen]. eexists. split; [reflexivity|].
    cbn. rewrite H2, H3, H4. split; [|split].
    + f_equal. unfold placed. destruct (pos t).
      * rewrite map_app. simpl. fold a. unfold hasId at 2. rewrite Nat.eqb_refl.
        apply Nat.eqb_neq in Hta. rewrite <- HT in Hta.
        unfold hasId at 2. rewrite Hta.
        rewrite !strip_elsewhere; [reflexivity | |];
          intros Hin; apply HA; rewrite map_app; apply in_or_app;
          [right; now right | now left].
      * rewrite map_app. simpl. fold a. unfold hasId at 3. rewrite Nat.eqb_refl.
        apply Nat.eqb_neq in Hta. rewrite <- HT in Hta.
        unfold hasId at 2. rewrite Hta.
        rewrite !strip_elsewhere; [reflexivity | |];
          intros Hin; apply HA; rewrite map_app; apply in_or_app;
          [right; now right | now left].
    + unfold w1, currentHTML. simpl. rewrite Hed. reflexivity.
    + reflexivity.
Qed.

(** C3. Reordering by drag and drop.  The vertical centre of a block and its
    distance from the pointer are the numbers that [handleDragOver] computes
    ([rect.top + rect.height / 2] and [Math.abs(clientY - center)], in the
    arithmetic of JavaScript numbers), compared as it compares them.  During
    the drag-over the target is an element child of the root other than the
    dragged block, nearer than 150 pixels, that no such child is nearer than
    (no target when none is nearer than 150), and the side is "before"
    exactly when the pointer is above the centre of the target.  On a drop
    with a target the dragged block is put back right before or right after
    it, the other blocks keeping their order.  With the blocks [A, B, C], [A]
    dragged and the target [(C, before)], the result is [B, A, C]. *)
Theorem drag_and_drop_reorder :
  forall (lay : Page -> Layout) (r : State) (w : World) (clientY : float)
         (active : nat) (cs : list Node),
    isDragging r = true -> activeBlock r = Some active ->
    editor (page w) = Some cs ->
    let dist := distance (lay (page w)) clientY in
    (exists w', handleDragOver lay clientY r w = Done w' /\ page w' = page w /\
       match dropTargetInfo (ui w') with
       | Some t =>
           (exists c, In c cs /\ isElement c = true /\ nodeId c = el t) /\
           el t <> active /\ (dist (el t) <? 150)%float = true /\
           (forall c, In c cs -> isElement c = true -> nodeId c <> active ->
                      (dist (nodeId c) <? dist (el t))%float = false) /\
           (pos t = Before <->
            (clientY <? center (rectOf (lay (page w)) (Ref (el t))))%float = true)
       | None =>
           forall c, In c cs -> isElement c = true -> nodeId c <> active ->
                     (dist (nodeId c) <? 150)%float = false
       end) /\
    (forall t A T p q l1 l2,
       dropTargetInfo r = Some t ->
       cs = p ++ A :: q -> nodeId A = active -> isElement A = true ->
       NoDup (map nodeId cs) -> topLevelOnly active cs ->
       p ++ q = l1 ++ T :: l2 -> nodeId T = el t ->
       exists w', handleDrop r w = Done w' /\
                  editor (page w')
                  = Some (match pos t with
                          | Before => l1 ++ removeClass dimClass A :: T :: l2
                          | After => l1 ++ T :: removeClass dimClass A :: l2
                          end)) /\
    (let dropped := final (handleDrop (withActive 0 true (Some (mkDropTarget 4 Before)))
                             threeParagraphs) in
     editor (page threeParagraphs)
     = Some [paragraph 0 "A"; paragraph 2 "B"; paragraph 4 "C"] /\
     editor (page dropped)
     = Some [paragraph 2 "B"; paragraph 0 "A"; paragraph 4 "C"]).
Proof.
  intros lay r w clientY active cs Hdrag Hact He dist. split; [|split].
  - unfold handleDragOver. rewrite Hdrag, He, Hact.
    pose proof (closestBlock_nearest (lay (page w)) active clientY cs) as H.
    destruct (closestBlock (lay (page w)) active clientY cs) as [t|].
    + eexists. split; [reflexivity|]. split; [reflexivity|]. cbn.
      destruct H as [H1 [H2 [H3 H4]]].
      split; [exact H1|]. split; [exact H2|]. split; [exact H3|]. split; [exact H4|].
      fold (center (rectOf (lay (page w)) (Ref t))).
      destruct (clientY <? center (rectOf (lay (page w)) (Ref t)))%float eqn:E.
      * split; reflexivity.
      * split; discriminate.
    + eexists. split; [reflexivity|]. split; [reflexivity|]. exact H.
  - intros t A T p q l1 l2 Ht Hcs HA HelA Hnd Htop Hrest HT. subst cs active.
    destruct (@handleDrop_moves r w t A T p q l1 l2 Hdrag Hact Ht He Hnd Htop HelA Hrest HT)
      as [w' [H1 [H2 _]]].
    exists w'. split; [exact H1 | exact H2].
  - vm_compute. split; reflexivity.
Qed.

(** The blocks [A, B, C] stacked 100 pixels each, [A] dragged with the
    pointer at 210: the target is [C], on its upper side, and the drop gives
    [B, A, C].  With blocks so thin that their centre is rounded to their
    top, a pointer at the top is not above the centre: the side is
    "after". *)
Lemma drag_and_drop_reorder_witness :
  let r := withActive 0 true (Some (mkDropTarget 4 Before)) in
  (exists w', handleDragOver stackedLayout 210 r threeParagraphs = Done w' /\
              dropTargetInfo (ui w') = Some (mkDropTarget 4 Before)) /\
  (exists w', handleDragOver thinLayout 1 r threeParagraphs = Done w' /\
              dropTargetInfo (ui w') = Some (mkDropTarget 2 After)) /\
  (exists w', handleDrop r threeParagraphs = Done w' /\
              editor (page w')
              = Some [paragraph 2 "B"; paragraph 0 "A"; paragraph 4 "C"]).
Proof.
  intros r.
  destruct (@drag_and_drop_reorder stackedLayout r threeParagraphs 210%float 0%nat
              [paragraph 0 "A"; paragraph 2 "B"; paragraph 4 "C"]
              eq_refl eq_refl eq_refl) as [Hover [Hdrop _]].
  destruct (@drag_and_drop_reorder thinLayout r threeParagraphs 1%float 0%nat
              [paragraph 0 "A"; paragraph 2 "B"; paragraph 4 "C"]
              eq_refl eq_refl eq_refl) as [Hthin _].
  split; [|split].
  - destruct Hover as [w' [H1 _]]. exists w'. split; [exact H1|].
    vm_compute in H1. injection H1 as <-. reflexivity.
  - destruct Hthin as [w' [H1 _]]. exists w'. split; [exact H1|].
    vm_compute in H1. injection H1 as <-. reflexivity.
  - apply (Hdrop (mkDropTarget 4 Before) (paragraph 0 "A") (paragraph 4 "C")
             [] [paragraph 2 "B"; paragraph 4 "C"] [paragraph 2 "B"] []);
      try reflexivity.
    + simpl. repeat constructor; simpl; intuition discriminate.
    + intros c [<- | [<- | [<- | []]]] Hc; solve [now elim Hc | reflexivity].
Defined.

(** *** Moving a block *)

Lemma prevIn_at (id : nat) (P A : Node) (p q : list Node) :
  (forall c, In c (p ++ [P]) -> hasId id c = false) -> hasId id A = true ->
  prevIn id (p ++ P :: A :: q) = Some P.
Proof.
  intros H HA. induction p as [|a r IH].
  - simpl. now rewrite HA.
  - assert (IH' : prevIn id (r ++ P :: A :: q) = Some P).
    { apply IH. intros c Hc. apply H. now right. }
    change ((a :: r) ++ P :: A :: q) with (a :: (r ++ P :: A :: q)).
    destruct r as [|b r'].
    + simpl in *. rewrite (H P) by (right; now left). exact IH'.
    + change ((if hasId id b then Some a else prevIn id ((b :: r') ++ P :: A :: q)) = Some P).
      rewrite (H b) by (right; now left). exact IH'.
Qed.

Lemma previousSibling_at (pg : Page) (P A : Node) (p q : list Node) :
  editor pg = Some (p ++ P :: A :: q) -> NoDup (map nodeId (p ++ P :: A :: q)) ->
  previousSibling pg (nodeId A) = Some (nodeId P).
Proof.
  intros He Hnd. unfold previousSibling, siblings.
  rewrite parentNode_root.
  - unfold editorNodes. rewrite He. rewrite prevIn_at; [reflexivity | |].
    + apply absent_hasId.
      replace (p ++ P :: A :: q) with ((p ++ [P]) ++ A :: q) in Hnd
        by now rewrite <- app_assoc.
      rewrite map_app in Hnd. simpl in Hnd.
      pose proof (NoDup_remove_2 _ _ _ Hnd) as Hni.
      intros Hin. apply Hni. apply in_or_app. now left.
    + now apply hasId_eq.
  - unfold editorNodes. rewrite He.
    apply existsb_hasId_in with (c := A); [|reflexivity].
    apply in_or_app. right. right. now left.
Qed.

Lemma removeNode_child (pg : Page) (A : Node) (p q : list Node) :
  editor pg = Some (p ++ A :: q) ->
  NoDup (map nodeId (p ++ A :: q)) -> topLevelOnly (nodeId A) (p ++ A :: q) ->
  editor (removeNode (nodeId A) pg) = Some (p ++ q).
Proof.
  intros He Hnd Htop. unfold removeNode.
  assert (Hin : In A (p ++ A :: q)) by (apply in_or_app; right; now left).
  rewrite parentNode_root.
  2:{ unfold editorNodes. rewrite He. now apply existsb_hasId_in with (c := A). }
  rewrite (@resolve_top pg _ A He Hnd Htop Hin).
  unfold unlink. simpl. rewrite He. simpl. f_equal.
  rewrite removeForest_top by exact Htop. now apply filter_middle.
Qed.

(** What [handleBlockAction] adds to the change of its action [step]: the
    content is passed on, the block options are closed and the active block
    is to be looked for again. *)
Lemma blockAction_emits (action : BlockAction) (r : State) (w w1 : World)
  (a : nat) (cs cs' : list Node) :
  activeBlock r = Some a -> editor (page w) = Some cs ->
  match action with
  | ActionDelete => Done (setPage (removeNode a (page w)) w)
  | ActionDuplicate =>
      let c := cloneOf a (page w) in
      liftPage (insertBefore (fst c) (nextSibling (snd c) a) (snd c)) (setPage (snd c) w)
  | ActionUp =>
      match previousSibling (page w) a with
      | Some prev => liftPage (insertBefore a (Some prev) (page w)) w
      | None => Done w
      end
  | ActionDown =>
      match nextSibling (page w) a with
      | Some next => liftPage (insertBefore next (Some a) (page w)) w
      | None => Done w
      end
  end = Done w1 ->
  editor (page w1) = Some cs' -> emitted w1 = emitted w ->
  exists w', handleBlockAction action r w = Done w' /\
             editor (page w') = Some cs' /\
             emitted w' = emitted w ++ [innerHTML cs'] /\
             showBlockOptions (ui w') = false /\
             timers w' = timers w1 ++ [mkTimer UpdateActiveBlockTask 0 r].
Proof.
  intros Ha He Hstep He1 Hm. unfold handleBlockAction. rewrite Ha, He.
  cbv zeta in Hstep |- *. rewrite Hstep. cbn [andThen].
  eexists. split; [reflexivity|]. unfold currentHTML. rewrite He1.
  split; [exact He1|]. split; [|split; reflexivity].
  cbn [schedule upd setUi onChange emitted]. now rewrite Hm.
Qed.

(** Moving up the block [A] that follows the child [P] of the root. *)
Lemma block_up_swaps (r : State) (w : World) (P A : Node) (p q : list Node) :
  activeBlock r = Some (nodeId A) ->
  editor (page w) = Some (p ++ P :: A :: q) ->
  NoDup (map nodeId (p ++ P :: A :: q)) ->
  topLevelOnly (nodeId A) (p ++ P :: A :: q) ->
  exists w', handleBlockAction ActionUp r w = Done w' /\
             editor (page w') = Some (p ++ A :: P :: q) /\
             emitted w' = emitted w ++ [innerHTML (p ++ A :: P :: q)] /\
             showBlockOptions (ui w') = false.
Proof.
  intros Ha He Hnd Htop.
  assert (E : p ++ P :: A :: q = (p ++ [P]) ++ A :: q) by now rewrite <- app_assoc.
  assert (He1 := He). assert (Hnd1 := Hnd). assert (Htop1 := Htop).
  rewrite E in He1, Hnd1, Htop1.
  destruct (@insertBefore_child (page w) A (p ++ [P]) q (Some (nodeId P))
              He1 Hnd1 Htop1) as [pg' [H1 [H2 _]]].
  { intros x Hx. injection Hx as <-. apply existsb_hasId_in with (c := P); [|reflexivity].
    apply in_or_app. left. apply in_or_app. right. now left. }
  assert (Hne : Nat.eqb (nodeId P) (nodeId A) = false).
  { apply Nat.eqb_neq. intros Heq.
    rewrite map_app in Hnd. simpl in Hnd.
    apply NoDup_app_remove_l in Hnd.
    apply NoDup_cons_iff in Hnd. destruct Hnd as [Hni _]. apply Hni.
    left. now symmetry. }
  cbv zeta in H2. rewrite Hne in H2.
  rewrite <- app_assoc in H2. simpl in H2.
  rewrite insertAt_before in H2.
  2:{ apply absent_hasId. rewrite map_app in Hnd. simpl in Hnd.
      pose proof (NoDup_remove_2 _ _ _ Hnd) as Hni.
      intros Hin. apply Hni. apply in_or_app. now left. }
  2:{ now apply hasId_eq. }
  destruct (@blockAction_emits ActionUp r w (setPage pg' w) (nodeId A)
              (p ++ P :: A :: q) (p ++ A :: P :: q) Ha He)
    as [w' [G1 [G2 [G3 [G4 _]]]]]; [| exact H2 | reflexivity |].
  - rewrite (@previousSibling_at (page w) P A p q He Hnd). now rewrite H1.
  - exists w'. repeat split; assumption.
Qed.

(** Moving down the block [A] that the child [N] of the root follows. *)
Lemma block_down_swaps (r : State) (w : World) (A N : Node) (p q : list Node) :
  activeBlock r = Some (nodeId A) ->
  editor (page w) = Some (p ++ A :: N :: q) ->
  NoDup (map nodeId (p ++ A :: N :: q)) ->
  topLevelOnly (nodeId N) (p ++ A :: N :: q) ->
  exists w', handleBlockAction ActionDown r w = Done w' /\
             editor (page w') = Some (p ++ N :: A :: q) /\
             emitted w' = emitted w ++ [innerHTML (p ++ N :: A :: q)] /\
             showBlockOptions (ui w') = false.
Proof.
  intros Ha He Hnd Htop.
  assert (E : p ++ A :: N :: q = (p ++ [A]) ++ N :: q) by now rewrite <- app_assoc.
  assert (He1 := He). assert (Hnd1 := Hnd). assert (Htop1 := Htop).
  rewrite E in He1, Hnd1, Htop1.
  destruct (@insertBefore_child (page w) N (p ++ [A]) q (Some (nodeId A))
              He1 Hnd1 Htop1) as [pg' [H1 [H2 _]]].
  { intros x Hx. injection Hx as <-. apply existsb_hasId_in with (c := A); [|reflexivity].
    apply in_or_app. left. apply in_or_app. right. now left. }
  assert (Hne : Nat.eqb (nodeId A) (nodeId N) = false).
  { apply Nat.eqb_neq. intros Heq.
    rewrite map_app in Hnd. simpl in Hnd.
    apply NoDup_app_remove_l in Hnd.
    apply NoDup_cons_iff in Hnd. destruct Hnd as [Hni _]. apply Hni.
    left. now symmetry. }
  cbv zeta in H2. rewrite Hne in H2.
  rewrite <- app_assoc in H2. simpl in H2.
  rewrite insertAt_before in H2.
  2:{ apply absent_hasId. rewrite map_app in Hnd. simpl in Hnd.
      pose proof (NoDup_remove_2 _ _ _ Hnd) as Hni.
      intros Hin. apply Hni. apply in_or_app. now left. }
  2:{ now apply hasId_eq. }
  destruct (@blockAction_emits ActionDown r w (setPage pg' w) (nodeId A)
              (p ++ A :: N :: q) (p ++ N :: A :: q) Ha He)
    as [w' [G1 [G2 [G3 [G4 _]]]]]; [| exact H2 | reflexivity |].
  - rewrite (@nextSibling_at (page w) A p (N :: q) He Hnd). simpl. now rewrite H1.
  - exists w'. repeat split; assumption.
Qed.

Lemma elementChildren_app (l1 l2 : list Node) :
  elementChildren (l1 ++ l2) = elementChildren l1 ++ elementChildren l2.
Proof. apply filter_app. Qed.

(** *** Invalid structural operations *)

(** C6, as the code has it.  Moving up a block that has no block before it
    and moving down a block that has no block after it raise nothing and
    leave the sequence of blocks as it is; the page is unchanged when the
    block is the first or the last child of the root, and when a text node
    lies on that side the block trades places with it.  A drop without a
    resolved target is the end of the drag: it passes nothing on and keeps
    every child of the root in its place; the one thing it touches is the
    class list of the dragged block, from which the marker of the drag is
    taken off, every other block staying as it is. *)
Theorem invalid_operations_are_noops :
  forall (r : State) (w : World),
    (forall pre A rest,
       editor (page w) = Some (pre ++ A :: rest) -> elementChildren pre = [] ->
       NoDup (map nodeId (pre ++ A :: rest)) ->
       topLevelOnly (nodeId A) (pre ++ A :: rest) ->
       activeBlock r = Some (nodeId A) ->
       exists w', handleBlockAction ActionUp r w = Done w' /\
                  elementChildren (editorNodes (page w'))
                  = elementChildren (pre ++ A :: rest) /\
                  (pre = [] -> page w' = page w)) /\
    (forall init A post,
       editor (page w) = Some (init ++ A :: post) -> elementChildren post = [] ->
       NoDup (map nodeId (init ++ A :: post)) ->
       (forall c, In c post -> topLevelOnly (nodeId c) (init ++ A :: post)) ->
       activeBlock r = Some (nodeId A) ->
       exists w', handleBlockAction ActionDown r w = Done w' /\
                  elementChildren (editorNodes (page w'))
                  = elementChildren (init ++ A :: post) /\
                  (post = [] -> page w' = page w)) /\
    (dropTargetInfo r = None ->
       emitted (final (handleDrop r w)) = emitted w /\
       map nodeId (editorNodes (page (final (handleDrop r w))))
       = map nodeId (editorNodes (page w)) /\
       (activeBlock r = None ->
          exists w', handleDrop r w = Done w' /\ page w' = page w) /\
       (forall a cs,
          activeBlock r = Some a -> editor (page w) = Some cs ->
          NoDup (map nodeId cs) -> topLevelOnly a cs ->
          (forall n, resolve (page w) a = Some n -> isElement n = true) ->
          exists w', handleDrop r w = Done w' /\
                     editor (page w')
                     = Some (map (fun c => if hasId a c then removeClass dimClass c else c)
                               cs))).
Proof.
  intros r w. split; [|split].
  - intros pre A rest He Hpre Hnd Htop Ha.
    destruct pre as [|x pre0].
    + destruct (move_up_without_previous _ _ He Ha (@previousSibling_first _ _ _ He Hnd))
        as [w' [H1 [H2 _]]].
      exists w'. split; [exact H1|]. split; [|intros _; exact H2].
      unfold editorNodes. now rewrite H2, He.
    + destruct (@exists_last _ (x :: pre0)) as [pre' [T E]]; [discriminate|].
      rewrite E in *. rewrite <- app_assoc in He, Hnd, Htop. simpl in He, Hnd, Htop.
      destruct (@block_up_swaps r w T A pre' rest Ha He Hnd Htop)
        as [w' [H1 [H2 _]]].
      exists w'. split; [exact H1|]. split.
      * unfold editorNodes. rewrite H2.
        rewrite elementChildren_app in Hpre. apply app_eq_nil in Hpre.
        destruct Hpre as [Hp HT].
        assert (HT' : isElement T = false).
        { unfold elementChildren in HT. simpl in HT. destruct (isElement T);
            [discriminate | reflexivity]. }
        rewrite <- app_assoc. rewrite !elementChildren_app. f_equal.
        unfold elementChildren. simpl. rewrite HT'. reflexivity.
      * intros K. destruct pre'; discriminate K.
  - intros init A post He Hpost Hnd Htop Ha.
    destruct post as [|N post'].
    + destruct (move_down_without_next _ _ He Ha (@nextSibling_last _ _ _ He Hnd))
        as [w' [H1 [H2 _]]].
      exists w'. split; [exact H1|]. split; [|intros _; exact H2].
      unfold editorNodes. now rewrite H2, He.
    + destruct (@block_down_swaps r w A N init post' Ha He Hnd (Htop N (or_introl eq_refl)))
        as [w' [H1 [H2 _]]].
      exists w'. split; [exact H1|]. split; [|discriminate].
      unfold editorNodes. rewrite H2.
      assert (HN : isElement N = false).
      { unfold elementChildren in Hpost. simpl in Hpost. destruct (isElement N);
          [discriminate | reflexivity]. }
      rewrite !elementChildren_app. f_equal.
      unfold elementChildren. simpl. rewrite HN. reflexivity.
  - intros Hd. rewrite (handleDrop_no_target _ w Hd). unfold handleDragEnd.
    set (w1 := upd (setDropTargetInfo None)
                 (upd (setDropIndicator None) (upd (setIsDragging false) w))).
    assert (Hp : page w1 = page w) by reflexivity.
    assert (Hem : emitted w1 = emitted w) by reflexivity.
    split; [|split; [|split]].
    + destruct (activeBlock r); [|exact Hem].
      unfold liftPage. destruct (updateClassList _ _ _); exact Hem.
    + destruct (activeBlock r) as [a|]; [|reflexivity].
      unfold liftPage.
      destruct (updateClassList (removeClass dimClass) a (page w1)) eqn:E; [|reflexivity].
      simpl. rewrite <- Hp. apply (updateClassList_ids _ _ _ (fun n => proj1 (removeClass_shape dimClass n)) E).
    + intros Ha. rewrite Ha. exists w1. split; [reflexivity | exact Hp].
    + intros a cs Ha He Hnd Htop Hel.
      destruct (handleDragEnd_strips r w Ha He Hnd Htop Hel) as [w' [H1 [H2 _]]].
      exists w'. split; assumption.
Qed.

(** The first block [A] of [ <p>A</p><p>B</p>], a space before it, moved
    up: it goes before the space, and the blocks are [A, B] as before.  The
    same block dragged and dropped nowhere: it stays first, without the
    marker of the drag. *)
Lemma invalid_operations_are_noops_witness :
  let A := paragraph 1 "A" in
  let B := paragraph 3 "B" in
  (exists w', handleBlockAction ActionUp (ui spaceFirst) spaceFirst = Done w' /\
              elementChildren (editorNodes (page w')) = [A; B]) /\
  (exists w', handleDrop (ui draggedNowhere) draggedNowhere = Done w' /\
              currentHTML w' = tpl " <p class=``>A</p><p>B</p>").
Proof.
  intros A B.
  set (T := TextNode 0 (lit " ")).
  set (A' := Element 1 (lit "p") [(lit "class", lit "opacity-40")] [TextNode 2 (lit "A")]).
  assert (Hnd : NoDup (map nodeId [T; A; B])).
  { simpl. repeat constructor; simpl; intuition discriminate. }
  assert (Htop : topLevelOnly 1 [T; A; B]).
  { intros c [<- | [<- | [<- | []]]] Hc; solve [now elim Hc | reflexivity]. }
  assert (Htop' : topLevelOnly 1 [T; A'; B]).
  { intros c [<- | [<- | [<- | []]]] Hc; solve [now elim Hc | reflexivity]. }
  assert (E1 : editor (page spaceFirst) = Some [T; A; B]) by (vm_compute; reflexivity).
  assert (A1 : activeBlock (ui spaceFirst) = Some 1%nat) by (vm_compute; reflexivity).
  assert (E2 : editor (page draggedNowhere) = Some [T; A'; B]) by (vm_compute; reflexivity).
  assert (A2 : activeBlock (ui draggedNowhere) = Some 1%nat) by (vm_compute; reflexivity).
  assert (D2 : dropTargetInfo (ui draggedNowhere) = None) by (vm_compute; reflexivity).
  assert (R2 : resolve (page draggedNowhere) 1 = Some A') by (vm_compute; reflexivity).
  split.
  - destruct (invalid_operations_are_noops (ui spaceFirst) spaceFirst) as [H _].
    destruct (H [T] A [B] E1 eq_refl Hnd Htop A1) as [w' [H1 [H2 _]]].
    exists w'. split; [exact H1 | exact H2].
  - destruct (invalid_operations_are_noops (ui draggedNowhere) draggedNowhere)
      as [_ [_ H]].
    destruct (H D2) as [_ [_ [_ H4]]].
    destruct (H4 1%nat [T; A'; B] A2 E2 Hnd Htop') as [w' [H1 H2]].
    + intros n Hn. rewrite R2 in Hn. injection Hn as <-. reflexivity.
    + exists w'. split; [exact H1|]. unfold currentHTML. rewrite H2.
      vm_compute. reflexivity.
Defined.

(** C6, refuted as it is written.  After a drag that found no target the
    drop does change the document: the dragged block, [<p>A</p>] before the
    drag and [<p class="opacity-40">A</p>] during it, is left as
    [<p class="">A</p>]. *)
Lemma cancelled_drop_changes_the_document :
  reachable stackedLayout draggedNowhere /\
  enabled Drop draggedNowhere = true /\
  isDragging (ui draggedNowhere) = true /\ dropTargetInfo (ui draggedNowhere) = None /\
  currentHTML spaceFirst = tpl " <p>A</p><p>B</p>" /\
  currentHTML draggedNowhere = tpl " <p class=`opacity-40`>A</p><p>B</p>" /\
  (exists w', dispatch stackedLayout Drop draggedNowhere = Done w' /\
              currentHTML w' = tpl " <p class=``>A</p><p>B</p>" /\
              emitted w' = emitted draggedNowhere).
Proof.
  split.
  { apply reachable_run; [|vm_compute; reflexivity].
    apply reachable_run; [constructor|]. vm_compute. reflexivity. }
  do 5 (split; [vm_compute; reflexivity|]).
  eexists. split; [vm_compute; reflexivity|]. split; vm_compute; reflexivity.
Qed.

(** *** Parsing the inline code fragment *)

Lemma step_plain (text : jsstring) :
  (forall c, In c text -> c <> 60%N) ->
  forall pend stack fin fr,
    fold_left HTML.step text (mkParser Data pend stack fin fr)
    = mkParser Data (pend ++ text) stack fin fr.
Proof.
  induction text as [|c r IH]; intros H pend stack fin fr; simpl.
  - now rewrite app_nil_r.
  - assert (Hc : N.eqb c 60 = false) by (apply N.eqb_neq; apply H; now left).
    unfold HTML.step at 2. simpl. rewrite Hc. unfold addPending. simpl.
    rewrite IH by (intros x Hx; apply H; now right).
    now rewrite <- app_assoc.
Qed.

Lemma decodeFrom_plain (text : jsstring) :
  (forall c, In c text -> c <> 38%N) -> decodeFrom 0 text = text.
Proof.
  induction text as [|c r IH]; intros H; simpl; [reflexivity|].
  assert (Hc : N.eqb c 38 = false) by (apply N.eqb_neq; apply H; now left).
  rewrite Hc. f_equal. apply IH. intros x Hx. apply H. now right.
Qed.

Lemma parse_code (text : jsstring) (n : nat) :
  text <> [] -> plain text ->
  parse (codeOpen ++ text ++ codeClose) n = ([codeElement n text], S (S n)).
Proof.
  intros Hne Hp. unfold parse.
  rewrite !fold_left_app.
  assert (H1 : fold_left HTML.step codeOpen (mkParser Data [] [] [] n)
               = mkParser Data [] [mkOpen n (lit "code") [(lit "class", codeClass)] []]
                   [] (S n)) by (vm_compute; reflexivity).
  rewrite H1. rewrite step_plain by (intros c Hc; apply (Hp c Hc)).
  destruct text as [|c0 r]; [contradiction|].
  cbv -[decode]. unfold decode.
  rewrite decodeFrom_plain by (intros c Hc; apply (Hp c Hc)).
  reflexivity.
Qed.

(** *** Searching a forest in which a node has been replaced *)

Lemma firstSome_app {A B : Type} (f : A -> option B) (l1 l2 : list A) :
  firstSome f (l1 ++ l2)
  = match firstSome f l1 with Some b => Some b | None => firstSome f l2 end.
Proof.
  induction l1 as [|a r IH]; simpl; [reflexivity|].
  destruct (f a); [reflexivity | exact IH].
Qed.

Lemma firstSome_flat_map {A B C : Type} (f : B -> option C) (g : A -> list B)
  (l : list A) :
  firstSome f (flat_map g l) = firstSome (fun a => firstSome f (g a)) l.
Proof.
  induction l as [|a r IH]; simpl; [reflexivity|].
  rewrite firstSome_app, IH. reflexivity.
Qed.

Lemma containsId_children (id : nat) (c : Node) :
  hasId id c = false -> containsId id c = existsb (containsId id) (children c).
Proof. intros H. destruct c; simpl in *; rewrite H; reflexivity. Qed.

Lemma existsb_flat_map {A B : Type} (f : B -> bool) (g : A -> list B) (l : list A) :
  existsb f (flat_map g l) = existsb (fun a => existsb f (g a)) l.
Proof.
  induction l as [|a r IH]; simpl; [reflexivity|].
  rewrite existsb_app, IH. reflexivity.
Qed.

Section Substituted.

Variables (t : nat) (L : list Node).

Lemma search_forest {B : Type} (f : Node -> option B) (cs : list Node) :
  Forall (searchesInto t L f) cs ->
  firstSome f (substForest t L cs)
  = if existsb (containsId t) cs then firstSome f L else None.
Proof.
  unfold substForest. rewrite firstSome_flat_map.
  induction cs as [|c r IH]; intros H; [reflexivity|].
  inversion H as [|? ? Hc Hr]; subst. simpl.
  destruct (hasId t c) eqn:Ht.
  - assert (Hct : containsId t c = true) by (destruct c; simpl in *; now rewrite Ht).
    rewrite Hct. simpl. destruct (firstSome f L) eqn:E; [reflexivity|].
    rewrite (IH Hr). now destruct (existsb (containsId t) r).
  - simpl. rewrite Hc. rewrite (containsId_children _ _ Ht).
    destruct (existsb (containsId t) (children c)); simpl.
    + destruct (firstSome f L) eqn:E; [reflexivity|].
      rewrite (IH Hr). now destruct (existsb (containsId t) r).
    + exact (IH Hr).
Qed.

Lemma findNode_subst (k : nat) (c : Node) :
  containsId k c = false -> searchesInto t L (findNode k) c.
Proof.
  unfold searchesInto.
  induction c as [i d | i nm a cs IH] using Node_ind2; intros Hk.
  - simpl in *. rewrite orb_false_r in Hk. now rewrite Hk.
  - simpl in Hk. apply orb_false_iff in Hk. destruct Hk as [Hi Hcs].
    simpl. unfold hasId in Hi |- *. simpl in Hi |- *. rewrite Hi.
    change (firstSome (findNode k) (substForest t L cs)
            = if existsb (containsId t) cs then firstSome (findNode k) L else None).
    apply search_forest.
    rewrite Forall_forall in *. intros c Hc. unfold searchesInto. apply IH; [exact Hc|].
    destruct (containsId k c) eqn:E; [|reflexivity].
    assert (existsb (containsId k) cs = true) by (apply existsb_exists; eauto).
    congruence.
Qed.

Lemma findNode_subst_forest (k : nat) (cs : list Node) :
  existsb (containsId k) cs = false ->
  firstSome (findNode k) (substForest t L cs)
  = if existsb (containsId t) cs then firstSome (findNode k) L else None.
Proof.
  intros Hk. apply search_forest. rewrite Forall_forall. intros c Hc.
  apply findNode_subst.
  destruct (containsId k c) eqn:E; [|reflexivity].
  assert (existsb (containsId k) cs = true) by (apply existsb_exists; eauto).
  congruence.
Qed.

(** The children of the root after the replacement go by the identities they
    had, or by those of the top of [L]. *)
Lemma hasId_subst_forest (k : nat) (cs : list Node) :
  existsb (hasId k) cs = false -> existsb (hasId k) L = false ->
  existsb (hasId k) (substForest t L cs) = false.
Proof.
  intros Hcs HL. unfold substForest. rewrite existsb_flat_map.
  induction cs as [|c r IH]; [reflexivity|].
  simpl in *. apply orb_false_iff in Hcs. destruct Hcs as [Hc Hr].
  rewrite (IH Hr), orb_false_r.
  destruct (hasId t c); [exact HL|]. simpl. rewrite orb_false_r.
  unfold hasId in *. now rewrite substNode_id.
Qed.

Lemma containsId_top (k : nat) (cs : list Node) :
  existsb (containsId k) cs = false -> existsb (hasId k) cs = false.
Proof.
  induction cs as [|c r IH]; [reflexivity|]. simpl. intros H.
  apply orb_false_iff in H. destruct H as [Hc Hr].
  now rewrite (containsId_hasId _ _ Hc), (IH Hr).
Qed.

Lemma parentWithin_subst (k : nat) (c : Node) :
  containsId k c = false -> existsb (hasId k) L = false ->
  searchesInto t L (parentWithin k) c.
Proof.
  unfold searchesInto. intros Hk HL. revert Hk.
  induction c as [i d | i nm a cs IH] using Node_ind2; intros Hk; [reflexivity|].
  simpl in Hk. apply orb_false_iff in Hk. destruct Hk as [Hi Hcs].
  simpl.
  change (flat_map (fun c => if hasId t c then L else [substNode t L c]) cs)
    with (substForest t L cs).
  rewrite (hasId_subst_forest k cs (containsId_top _ _ Hcs) HL).
  apply search_forest.
  rewrite Forall_forall in *. intros c Hc. unfold searchesInto. apply IH; [exact Hc|].
  destruct (containsId k c) eqn:E; [|reflexivity].
  assert (existsb (containsId k) cs = true) by (apply existsb_exists; eauto).
  congruence.
Qed.

Lemma parentWithin_subst_forest (k : nat) (cs : list Node) :
  existsb (containsId k) cs = false -> existsb (hasId k) L = false ->
  firstSome (parentWithin k) (substForest t L cs)
  = if existsb (containsId t) cs then firstSome (parentWithin k) L else None.
Proof.
  intros Hk HL. apply search_forest. rewrite Forall_forall. intros c Hc.
  apply parentWithin_subst; [|exact HL].
  destruct (containsId k c) eqn:E; [|reflexivity].
  assert (existsb (containsId k) cs = true) by (apply existsb_exists; eauto).
  congruence.
Qed.

End Substituted.

Lemma substForest_app (id : nat) (new l1 l2 : list Node) :
  substForest id new (l1 ++ l2) = substForest id new l1 ++ substForest id new l2.
Proof. unfold substForest. apply flat_map_app. Qed.

Lemma substForest_cons (id : nat) (new : list Node) (c : Node) (r : list Node) :
  substForest id new (c :: r)
  = (if hasId id c then new else [substNode id new c]) ++ substForest id new r.
Proof. reflexivity. Qed.

Lemma in_nodes_self (n : Node) : In n (nodes n).
Proof. destruct n; now left. Qed.

Lemma in_nodes_child (c : Node) (cs : list Node) (m : Node) :
  In c cs -> In m (nodes c) -> In m (flat_map nodes cs).
Proof. intros Hc Hm. apply in_flat_map. exists c. now split. Qed.

Lemma existsb_false_in {A : Type} (f : A -> bool) (l : list A) (a : A) :
  existsb f l = false -> In a l -> f a = false.
Proof.
  intros H Hin. destruct (f a) eqn:E; [|reflexivity].
  assert (existsb f l = true) by (apply existsb_exists; eauto). congruence.
Qed.

Section ParentOfInserted.

Variables (t n : nat) (L : list Node).
Hypothesis top : existsb (hasId n) L = true.

Let hasParent (c : Node) : Prop :=
  hasId t c = false -> containsId t c = true ->
  exists P, parentWithin n (substNode t L c) = Some P.

Lemma parent_forest (cs : list Node) :
  Forall hasParent cs -> existsb (containsId t) cs = true ->
  existsb (hasId n) (substForest t L cs) = true \/
  exists P, firstSome (parentWithin n) (substForest t L cs) = Some P.
Proof.
  induction cs as [|c r IH]; intros HF H; [discriminate|].
  inversion HF as [|? ? Hc Hr]; subst.
  rewrite substForest_cons, existsb_app, firstSome_app.
  destruct (hasId t c) eqn:Ht.
  - left. now rewrite top.
  - simpl in H. destruct (containsId t c) eqn:Hct.
    + destruct (Hc Ht Hct) as [P HP]. right. exists P. simpl. now rewrite HP.
    + simpl in H. destruct (IH Hr H) as [Hl | [P HP]].
      * left. rewrite Hl. apply orb_true_r.
      * right. simpl. destruct (parentWithin n (substNode t L c)) as [x|].
        -- now exists x.
        -- now exists P.
Qed.

Lemma parent_node (c : Node) : hasParent c.
Proof.
  induction c as [i d | i nm a cs IH] using Node_ind2; intros Ht Hc.
  - simpl in Hc. rewrite orb_false_r in Hc. congruence.
  - simpl in Hc. rewrite Ht in Hc. simpl in Hc. simpl.
    change (flat_map (fun c => if hasId t c then L else [substNode t L c]) cs)
      with (substForest t L cs).
    destruct (parent_forest IH Hc) as [Hl | [P HP]].
    + rewrite Hl. eauto.
    + destruct (existsb (hasId n) (substForest t L cs)); eauto.
Qed.

Lemma parent_exists (cs : list Node) :
  existsb (containsId t) cs = true ->
  existsb (hasId n) (substForest t L cs) = true \/
  exists P, firstSome (parentWithin n) (substForest t L cs) = Some P.
Proof.
  apply parent_forest. rewrite Forall_forall. intros c _. apply parent_node.
Qed.

End ParentOfInserted.

Section Reserialised.

Variables (t : nat) (d : jsstring) (L : list Node).
Hypothesis same : forall raw, flat_map (serialize raw) L = serialize raw (TextNode t d).

Let only (l : list Node) : Prop :=
  forall m, In m l -> nodeId m = t -> m = TextNode t d.

Let kept (c : Node) : Prop :=
  only (nodes c) -> hasId t c = false ->
  forall raw, serialize raw (substNode t L c) = serialize raw c.

Lemma serialize_forest (cs : list Node) :
  Forall kept cs -> only (flat_map nodes cs) ->
  forall raw, flat_map (serialize raw) (substForest t L cs)
              = flat_map (serialize raw) cs.
Proof.
  induction cs as [|c r IH]; intros HF Ho raw; [reflexivity|].
  inversion HF as [|? ? Hc Hr]; subst.
  rewrite substForest_cons, flat_map_app. simpl.
  assert (Hoc : only (nodes c)).
  { intros m Hm. apply Ho. simpl. apply in_or_app. now left. }
  assert (Hor : only (flat_map nodes r)).
  { intros m Hm. apply Ho. simpl. apply in_or_app. now right. }
  rewrite (IH Hr Hor). f_equal.
  destruct (hasId t c) eqn:Ht.
  - apply hasId_eq in Ht. rewrite (Hoc c (in_nodes_self c) Ht). apply same.
  - simpl. rewrite app_nil_r. now apply Hc.
Qed.

Lemma serialize_node (c : Node) : kept c.
Proof.
  induction c as [i d0 | i nm a cs IH] using Node_ind2; intros Ho Ht raw;
    [reflexivity|].
  simpl.
  change (flat_map (fun c => if hasId t c then L else [substNode t L c]) cs)
    with (substForest t L cs).
  rewrite (serialize_forest IH); [reflexivity|].
  intros m Hm. apply Ho. simpl. now right.
Qed.

Lemma innerHTML_subst (cs : list Node) :
  only (flat_map nodes cs) -> innerHTML (substForest t L cs) = innerHTML cs.
Proof.
  intros Ho. unfold innerHTML. apply serialize_forest; [|exact Ho].
  rewrite Forall_forall. intros c _. apply serialize_node.
Qed.

End Reserialised.

Section ReplacedTwice.

Variables (t n : nat) (B Af : list Node) (C N : Node).
Hypothesis HC : hasId n C = true.
Hypothesis HB : existsb (containsId n) B = false.
Hypothesis HAf : existsb (containsId n) Af = false.

Lemma subst_inserted :
  substForest n [N] (B ++ C :: Af) = B ++ N :: Af.
Proof.
  rewrite substForest_app, substForest_cons, HC.
  now rewrite !substForest_absent by assumption.
Qed.

Let merged (c : Node) : Prop :=
  containsId n c = false ->
  substNode n [N] (substNode t (B ++ C :: Af) c) = substNode t (B ++ N :: Af) c.

Lemma twice_forest (cs : list Node) :
  Forall merged cs -> existsb (containsId n) cs = false ->
  substForest n [N] (substForest t (B ++ C :: Af) cs)
  = substForest t (B ++ N :: Af) cs.
Proof.
  induction cs as [|c r IH]; intros HF H; [reflexivity|].
  inversion HF as [|? ? Hc Hr]; subst.
  simpl in H. apply orb_false_iff in H. destruct H as [H1 H2].
  rewrite !substForest_cons, substForest_app. rewrite (IH Hr H2). f_equal.
  destruct (hasId t c).
  - apply subst_inserted.
  - unfold substForest. simpl. unfold hasId. rewrite substNode_id.
    fold (hasId n c). rewrite (containsId_hasId _ _ H1). now rewrite (Hc H1).
Qed.

Lemma twice_node (c : Node) : merged c.
Proof.
  induction c as [i d | i nm a cs IH] using Node_ind2; intros H; [reflexivity|].
  simpl in H. apply orb_false_iff in H. destruct H as [_ H].
  simpl. f_equal.
  exact (twice_forest IH H).
Qed.

Lemma subst_twice (cs : list Node) :
  existsb (containsId n) cs = false ->
  substForest n [N] (substForest t (B ++ C :: Af) cs)
  = substForest t (B ++ N :: Af) cs.
Proof.
  apply twice_forest. rewrite Forall_forall. intros c _. apply twice_node.
Qed.

End ReplacedTwice.

(** *** The text of a selection inside one text node *)

Lemma prefixIn_element (id off i : nat) (nm : jsstring)
  (a : list (jsstring * jsstring)) (cs : list Node) :
  prefixIn id off (Element i nm a cs)
  = if Nat.eqb i id then Some (flat_map textContent (firstn off cs))
    else prefixForest id off cs.
Proof.
  simpl. destruct (Nat.eqb i id); [reflexivity|].
  induction cs as [|c r IH]; [reflexivity|]. simpl.
  destruct (prefixIn id off c); [reflexivity|]. now rewrite IH.
Qed.

Lemma prefixIn_absent (id off : nat) (c : Node) :
  containsId id c = false -> prefixIn id off c = None.
Proof.
  induction c as [i d | i nm a cs IH] using Node_ind2; intros H.
  - simpl in *. rewrite orb_false_r in H. unfold hasId in H. simpl in H. now rewrite H.
  - rewrite prefixIn_element. simpl in H. apply orb_false_iff in H.
    destruct H as [Hi Hcs]. unfold hasId in Hi. simpl in Hi. rewrite Hi.
    induction cs as [|c r IHr]; [reflexivity|].
    simpl in Hcs. apply orb_false_iff in Hcs. destruct Hcs as [Hc Hr].
    inversion IH as [|? ? IHc IHrest]; subst. simpl.
    rewrite (IHc Hc). now rewrite (IHr IHrest Hr).
Qed.

Section PrefixOfText.

Variables (t : nat) (d : jsstring).

Let only (l : list Node) : Prop :=
  forall m, In m l -> nodeId m = t -> m = TextNode t d.

Let located (c : Node) : Prop :=
  only (nodes c) -> containsId t c = true ->
  exists pre, forall off, prefixIn t off c = Some (pre ++ firstn off d).

Lemma prefix_forest (cs : list Node) :
  Forall located cs -> only (flat_map nodes cs) ->
  existsb (containsId t) cs = true ->
  exists pre, forall off, prefixForest t off cs = Some (pre ++ firstn off d).
Proof.
  induction cs as [|c r IH]; intros HF Ho H; [discriminate|].
  inversion HF as [|? ? Hc Hr]; subst.
  assert (Hoc : only (nodes c)).
  { intros m Hm. apply Ho. simpl. apply in_or_app. now left. }
  assert (Hor : only (flat_map nodes r)).
  { intros m Hm. apply Ho. simpl. apply in_or_app. now right. }
  simpl in H. destruct (containsId t c) eqn:Hct.
  - destruct (Hc Hoc Hct) as [pre Hpre]. exists pre. intros off. simpl.
    now rewrite Hpre.
  - simpl in H. destruct (IH Hr Hor H) as [pre Hpre].
    exists (textContent c ++ pre). intros off. simpl.
    rewrite (prefixIn_absent _ off _ Hct), Hpre. simpl. now rewrite app_assoc.
Qed.

Lemma prefix_node (c : Node) : located c.
Proof.
  induction c as [i d0 | i nm a cs IH] using Node_ind2; intros Ho Hc.
  - simpl in Hc. rewrite orb_false_r in Hc. apply hasId_eq in Hc. simpl in Hc.
    pose proof (Ho _ (in_nodes_self (TextNode i d0)) Hc) as E.
    injection E as -> ->. exists []. intros off. simpl. now rewrite Nat.eqb_refl.
  - destruct (hasId t (Element i nm a cs)) eqn:Ht.
    + apply hasId_eq in Ht.
      pose proof (Ho _ (in_nodes_self (Element i nm a cs)) Ht) as E. discriminate.
    + simpl in Hc. rewrite Ht in Hc. simpl in Hc.
      destruct (@prefix_forest cs IH) as [pre Hpre]; [|exact Hc|].
      * intros m Hm. apply Ho. simpl. now right.
      * exists pre. intros off. rewrite prefixIn_element.
        unfold hasId in Ht. simpl in Ht. rewrite Ht. apply Hpre.
Qed.

Lemma prefixForest_app_found (off : nat) (l1 l2 : list Node) (x : jsstring) :
  prefixForest t off l1 = Some x -> prefixForest t off (l1 ++ l2) = Some x.
Proof.
  revert x. induction l1 as [|c r IH]; intros x H; [discriminate|].
  simpl in *. destruct (prefixIn t off c); [exact H|].
  destruct (prefixForest t off r) as [y|]; [|discriminate].
  now rewrite (IH y eq_refl).
Qed.

(** The text of the page before a point of the text node [t] is some fixed
    text followed by the data of [t] up to the point. *)
Lemma textBefore_text (pg : Page) :
  textNodeAt pg t d ->
  exists pre, forall off,
    textBefore pg (mkBoundary (Ref t) off) = pre ++ firstn off d.
Proof.
  intros [Hin Ho].
  destruct (@prefix_forest (editorNodes pg)) as [pre Hpre]; try assumption.
  - rewrite Forall_forall. intros c _. apply prefix_node.
  - exists pre. intros off. unfold textBefore, allNodes. simpl.
    now rewrite (prefixForest_app_found _ _ _ (Hpre off)).
Qed.

End PrefixOfText.

Lemma selectionText_in_text (pg : Page) (t : nat) (d : jsstring) (sel : Selection) :
  textNodeAt pg t d ->
  container (anchor sel) = Ref t -> container (focus sel) = Ref t ->
  highOffset sel <= length d ->
  selectionText pg sel = substring (lowOffset sel) (highOffset sel) d.
Proof.
  intros Ht Ha Hf Hhi. destruct (textBefore_text Ht) as [pre Hpre].
  destruct sel as [[ca a0] [cf f0]]. simpl in Ha, Hf. subst ca cf.
  unfold selectionText, lowOffset, highOffset, substring in *. simpl in *.
  rewrite !Hpre.
  assert (La : length (pre ++ firstn a0 d) = length pre + a0).
  { rewrite length_app, firstn_length_le; lia. }
  assert (Lf : length (pre ++ firstn f0 d) = length pre + f0).
  { rewrite length_app, firstn_length_le; lia. }
  rewrite La, Lf.
  destruct (Nat.leb (length pre + a0) (length pre + f0)) eqn:E.
  - apply Nat.leb_le in E.
    rewrite Nat.min_l, Nat.max_r by lia.
    rewrite skipn_app, skipn_all2 by lia. simpl.
    replace (length pre + a0 - length pre) with a0 by lia.
    apply skipn_firstn_comm.
  - apply Nat.leb_gt in E.
    rewrite Nat.min_r, Nat.max_l by lia.
    rewrite skipn_app, skipn_all2 by lia. simpl.
    replace (length pre + f0 - length pre) with f0 by lia.
    apply skipn_firstn_comm.
Qed.

(** *** Inline code: wrapping *)

Lemma handleInput_page (lay : Page -> Layout) (r : State) (w : World) :
  page (final (handleInput lay r w)) = page w.
Proof.
  unfold handleInput. destruct (editor (page w)) as [cs|]; [|reflexivity].
  pose proof (updateActiveBlock_menus lay r (onChange (innerHTML cs) w)) as H.
  cbv zeta in H. destruct H as [_ [_ [_ [H _]]]].
  destruct (updateActiveBlock lay r (onChange (innerHTML cs) w)) as [w1|e w1];
    simpl in *; [|exact H].
  rewrite <- H. frame.
Qed.

Lemma findNode_in (id : nat) (n m : Node) : findNode id n = Some m -> In m (nodes n).
Proof.
  induction n as [i d | i nm a cs IH] using Node_ind2; simpl.
  - destruct (hasId id (TextNode i d)); [|discriminate].
    intros H. injection H as <-. now left.
  - destruct (hasId id (Element i nm a cs)).
    + intros H. injection H as <-. now left.
    + intros H. right. apply firstSome_some in H. destruct H as [c [Hc Hm]].
      rewrite Forall_forall in IH. exact (@in_nodes_child c cs m Hc (IH c Hc Hm)).
Qed.

Lemma findNode_present (id : nat) (n : Node) :
  containsId id n = true -> exists m, findNode id n = Some m.
Proof.
  induction n as [i d | i nm a cs IH] using Node_ind2; intros H.
  - simpl in *. rewrite orb_false_r in H. rewrite H. eauto.
  - simpl in *. destruct (hasId id (Element i nm a cs)); [eauto|]. simpl in H.
    induction cs as [|c r IHr]; [discriminate|].
    inversion IH as [|? ? IHc IHrest]; subst. simpl in *.
    destruct (containsId id c) eqn:E.
    + destruct (IHc eq_refl) as [m Hm]. rewrite Hm. eauto.
    + destruct (findNode id c); [eauto|]. now apply IHr.
Qed.

Lemma resolve_text (pg : Page) (t : nat) (d : jsstring) :
  textNodeAt pg t d -> resolve pg t = Some (TextNode t d).
Proof.
  intros [Hin Ho]. unfold resolve, allNodes. rewrite firstSome_app.
  assert (H : exists m, firstSome (findNode t) (editorNodes pg) = Some m).
  { induction (editorNodes pg) as [|c r IH]; [discriminate|]. simpl in *.
    destruct (containsId t c) eqn:E.
    - destruct (findNode_present _ _ E) as [m Hm]. rewrite Hm. eauto.
    - rewrite (findNode_absent _ _ E). apply IH; [exact Hin|].
      intros m Hm. apply Ho. apply in_or_app. now right. }
  destruct H as [m Hm]. rewrite Hm. f_equal.
  pose proof Hm as Hm2. apply firstSome_some in Hm2. destruct Hm2 as [c [Hc Hf]].
  apply Ho.
  - exact (@in_nodes_child c _ m Hc (@findNode_in t c m Hf)).
  - exact (@findNode_id t c m Hf).
Qed.

Lemma substring_nonempty (lo hi : nat) (d : jsstring) :
  lo < hi -> hi <= length d -> substring lo hi d <> [].
Proof.
  intros H1 H2 E. apply (f_equal (@length _)) in E. unfold substring in E.
  rewrite firstn_length_le in E; [simpl in E; lia|].
  rewrite length_skipn. lia.
Qed.

Lemma toggle_wraps (lay : Page -> Layout) (r : State) (w : World)
  (t : nat) (d : jsstring) (sel : Selection) :
  selection (page w) = Some sel ->
  container (anchor sel) = Ref t -> container (focus sel) = Ref t ->
  textNodeAt (page w) t d ->
  lowOffset sel < highOffset sel -> highOffset sel <= length d ->
  isCodeElement (anchorElement (page w) sel) = false ->
  plain (substring (lowOffset sel) (highOffset sel) d) ->
  page (final (toggleInlineCode lay r w))
  = wrappedPage (page w) t (lowOffset sel) (highOffset sel) d.
Proof.
  intros Hs Ha Hf Ht Hlt Hhi Hc Hp.
  set (lo := lowOffset sel) in *. set (hi := highOffset sel) in *.
  set (text := substring lo hi d) in *.
  assert (Hne : text <> []) by (apply substring_nonempty; assumption).
  assert (Htext : selectionText (page w) sel = text)
    by (apply selectionText_in_text with (t := t); assumption).
  assert (Hexec : nativeExecCommand (lit "insertHTML")
                    (Some (codeOpen ++ text ++ codeClose)) (page w)
                  = Some (wrappedPage (page w) t lo hi d)).
  { change (nativeExecCommand (lit "insertHTML")
              (Some (codeOpen ++ text ++ codeClose)) (page w))
      with (execInsertHTML (codeOpen ++ text ++ codeClose) (page w)).
    unfold execInsertHTML, editableSelection. rewrite Hs.
    unfold sameContainer. rewrite Ha, Hf. simpl refEqb. rewrite Nat.eqb_refl.
    destruct Ht as [Hin Ho].
    assert (Hed : editorContains (page w) (Ref t) = true).
    { unfold editorContains, editorNodes in *.
      destruct (editor (page w)); [exact Hin | discriminate]. }
    rewrite Hed. simpl andb. cbv iota. rewrite Ha.
    rewrite (resolve_text (conj Hin Ho)).
    rewrite (parse_code (nextId (page w)) Hne Hp).
    fold lo hi. unfold wrappedPage, wrappedPieces. fold text.
    reflexivity. }
  unfold toggleInlineCode. rewrite Hs, Hc, Htext.
  assert (Htr : truthy text = true) by (destruct text; [contradiction | reflexivity]).
  rewrite Htr.
  assert (Hdoc : page (documentExecCommand lay r (lit "insertHTML")
                         (Some (codeOpen ++ text ++ codeClose)) w)
                 = wrappedPage (page w) t lo hi d).
  { unfold documentExecCommand. rewrite Hexec. now rewrite handleInput_page. }
  destruct (anchorElement (page w) sel); exact Hdoc.
Qed.

(** *** Inline code: unwrapping *)

(** Rewriting with a lemma as it is stated in the section at hand. *)
Tactic Notation "rw" uconstr(H) :=
  let E := fresh in pose proof H as E; rewrite E; clear E.

Ltac decide_eqb :=
  repeat match goal with
         | |- context [Nat.eqb ?a ?b] =>
             first [ rewrite (proj2 (Nat.eqb_eq a b)) by lia
                   | rewrite (proj2 (Nat.eqb_neq a b)) by lia ]
         end.

Lemma escapeText_app (a b : jsstring) :
  escapeText (a ++ b) = escapeText a ++ escapeText b.
Proof. unfold escapeText. apply flat_map_app. Qed.

Lemma serialize_textPiece (raw : bool) (id : nat) (d : jsstring) :
  flat_map (serialize raw) (textPiece id d) = if raw then d else escapeText d.
Proof.
  destruct d; simpl; [now destruct raw|]. now rewrite app_nil_r.
Qed.

Lemma substring_parts (lo hi : nat) (d : jsstring) :
  lo <= hi -> firstn lo d ++ substring lo hi d ++ skipn hi d = d.
Proof.
  intros H. unfold substring.
  replace (skipn hi d) with (skipn (hi - lo) (skipn lo d))
    by (rewrite skipn_skipn; f_equal; lia).
  now rewrite firstn_skipn, firstn_skipn.
Qed.

Lemma innerTextOf_text (id : nat) (text : jsstring) :
  text <> [] -> innerTextOf [TextNode id text] = text.
Proof.
  intros H. destruct text as [|c r]; [contradiction|].
  unfold innerTextOf. simpl. now rewrite app_nil_r.
Qed.

Section Unwrapping.

Variables (pg : Page) (t lo hi : nat) (d : jsstring).
Hypothesis Ht : textNodeAt pg t d.
Hypothesis Hids : idsBelow pg.
Hypothesis Hlt : lo < hi.
Hypothesis Hhi : hi <= length d.

Let n := nextId pg.
Let text := substring lo hi d.
Let L := wrappedPieces t n lo hi d.
Let cs := editorNodes pg.

Lemma editor_mounted : editor pg = Some cs.
Proof.
  destruct Ht as [Hin _]. unfold cs, editorNodes in *.
  destruct (editor pg); [reflexivity | discriminate].
Qed.

Lemma fresh_editor (k : nat) : n <= k -> existsb (containsId k) cs = false.
Proof.
  intros Hk. pose proof (@Hids k Hk) as H. unfold allNodes in H.
  rewrite existsb_app in H. apply orb_false_iff in H. tauto.
Qed.

Lemma fresh_others (k : nat) : n <= k -> existsb (containsId k) (others pg) = false.
Proof.
  intros Hk. pose proof (@Hids k Hk) as H. unfold allNodes in H.
  rewrite existsb_app in H. apply orb_false_iff in H. tauto.
Qed.

Lemma text_is_old : t < n.
Proof.
  destruct (Nat.lt_ge_cases t n) as [H | H]; [exact H|].
  pose proof (fresh_editor H) as E. destruct Ht as [Hin _]. fold cs in Hin. congruence.
Qed.

Lemma pieces_find_text :
  firstSome (findNode (S n)) L = Some (TextNode (S n) text).
Proof.
  pose proof text_is_old. unfold L, wrappedPieces, textPiece, codeElement. fold text.
  destruct (firstn lo d); cbn -[Nat.eqb]; unfold hasId; cbn -[Nat.eqb]; decide_eqb; reflexivity.
Qed.

Lemma pieces_parent_text :
  firstSome (parentWithin (S n)) L = Some (codeElement n text).
Proof.
  pose proof text_is_old. unfold L, wrappedPieces, textPiece, codeElement. fold text.
  destruct (firstn lo d); cbn -[Nat.eqb]; unfold hasId; cbn -[Nat.eqb]; decide_eqb; reflexivity.
Qed.

Lemma pieces_top_text : existsb (hasId (S n)) L = false.
Proof.
  pose proof text_is_old. unfold L, wrappedPieces, textPiece, codeElement.
  destruct (firstn lo d), (skipn hi d); cbn -[Nat.eqb]; unfold hasId; cbn -[Nat.eqb]; decide_eqb; reflexivity.
Qed.

Lemma pieces_find_code : firstSome (findNode n) L = Some (codeElement n text).
Proof.
  pose proof text_is_old. unfold L, wrappedPieces, textPiece, codeElement. fold text.
  destruct (firstn lo d); cbn -[Nat.eqb]; unfold hasId; cbn -[Nat.eqb]; decide_eqb; reflexivity.
Qed.

Lemma pieces_top_code : existsb (hasId n) L = true.
Proof.
  pose proof text_is_old. unfold L, wrappedPieces, textPiece, codeElement.
  destruct (firstn lo d); cbn -[Nat.eqb]; unfold hasId; cbn -[Nat.eqb]; decide_eqb; reflexivity.
Qed.

Lemma pieces_find_new : firstSome (findNode (S (S (S n)))) L = None.
Proof.
  pose proof text_is_old. unfold L, wrappedPieces, textPiece, codeElement.
  destruct (firstn lo d), (skipn hi d); cbn -[Nat.eqb]; unfold hasId; cbn -[Nat.eqb]; decide_eqb; reflexivity.
Qed.

Let pg1 := wrappedPage pg t lo hi d.

Lemma wrapped_editor : editor pg1 = Some (substForest t L cs).
Proof. unfold pg1, wrappedPage, substPage. simpl. now rewrite editor_mounted. Qed.

Lemma wrapped_resolve_text : resolve pg1 (S n) = Some (TextNode (S n) text).
Proof.
  unfold resolve, allNodes, editorNodes. rw wrapped_editor.
  rewrite firstSome_app, findNode_subst_forest by (apply fresh_editor; lia).
  destruct Ht as [Hin _]. fold cs in Hin. rewrite Hin. rw pieces_find_text; reflexivity.
Qed.

Lemma wrapped_parent_text : parentNode pg1 (S n) = ElementParent (codeElement n text).
Proof.
  unfold parentNode, allNodes, editorNodes. rw wrapped_editor.
  rewrite hasId_subst_forest.
  - rewrite firstSome_app, parentWithin_subst_forest.
    + destruct Ht as [Hin _]. fold cs in Hin. rewrite Hin. rw pieces_parent_text; reflexivity.
    + apply fresh_editor. lia.
    + apply pieces_top_text.
  - apply containsId_top. apply fresh_editor. lia.
  - apply pieces_top_text.
Qed.

(** The page once the text node that replaces the code element has been
    created. *)
Let pg2 := snd (createTextNode text pg1).

Lemma created_editor : editor pg2 = Some (substForest t L cs).
Proof. exact wrapped_editor. Qed.

Lemma created_others :
  others pg2 = substForest t L (others pg) ++ [TextNode (S (S (S n))) text].
Proof. reflexivity. Qed.

Lemma created_resolve_code : resolve pg2 n = Some (codeElement n text).
Proof.
  unfold resolve, allNodes, editorNodes. rw created_editor.
  rewrite firstSome_app, findNode_subst_forest by (apply fresh_editor; lia).
  destruct Ht as [Hin _]. fold cs in Hin. rewrite Hin. rw pieces_find_code; reflexivity.
Qed.

Lemma created_resolve_new :
  resolve pg2 (S (S (S n))) = Some (TextNode (S (S (S n))) text).
Proof.
  unfold resolve, allNodes, editorNodes. rw created_editor. rw created_others.
  rewrite firstSome_app, findNode_subst_forest by (apply fresh_editor; lia).
  rw pieces_find_new.
  replace (if existsb (containsId t) cs then None else None) with (@None Node)
    by (now destruct (existsb (containsId t) cs)).
  rewrite firstSome_app, findNode_subst_forest by (apply fresh_others; lia).
  rw pieces_find_new.
  replace (if existsb (containsId t) (others pg) then None else None) with (@None Node)
    by (now destruct (existsb (containsId t) (others pg))).
  simpl. unfold hasId. simpl. now rewrite Nat.eqb_refl.
Qed.

Lemma created_parent_code : parentNode pg2 n <> NoParent.
Proof.
  unfold parentNode, allNodes, editorNodes. rw created_editor.
  destruct Ht as [Hin _]. fold cs in Hin.
  destruct (@parent_exists t n L pieces_top_code cs Hin) as [H | [P HP]].
  - rewrite H. discriminate.
  - destruct (existsb (hasId n) (substForest t L cs)); [discriminate|].
    rewrite firstSome_app, HP. discriminate.
Qed.

Lemma unwrapped_editor :
  editor (replaceWith n (S (S (S n))) pg2)
  = Some (substForest t
            (textPiece t (firstn lo d)
             ++ TextNode (S (S (S n))) text :: textPiece (S (S n)) (skipn hi d))
            cs).
Proof.
  pose proof text_is_old as Hold.
  unfold replaceWith. rw created_resolve_code. rw created_resolve_new.
  pose proof created_editor as E.
  assert (R : forall p : Page,
            editor p = editor pg2 ->
            editor (substPage n [TextNode (S (S (S n))) text] p)
            = Some (substForest t
                      (textPiece t (firstn lo d)
                       ++ TextNode (S (S (S n))) text
                          :: textPiece (S (S n)) (skipn hi d)) cs)).
  { intros p HX. unfold substPage. cbn [editor setOthers setEditor].
    rewrite HX, E. cbn [option_map]. f_equal.
    unfold L, wrappedPieces. apply subst_twice.
    - unfold hasId. simpl. apply Nat.eqb_refl.
    - unfold textPiece. destruct (firstn lo d); cbn -[Nat.eqb]; unfold hasId;
        cbn -[Nat.eqb]; decide_eqb; reflexivity.
    - unfold textPiece. destruct (skipn hi d); cbn -[Nat.eqb]; unfold hasId;
        cbn -[Nat.eqb]; decide_eqb; reflexivity.
    - apply fresh_editor. lia. }
  destruct (parentNode pg2 n) eqn:EP.
  - exfalso. exact (created_parent_code EP).
  - cbn [editor setOthers]. apply R. reflexivity.
  - cbn [editor setOthers]. apply R. reflexivity.
Qed.

Lemma unwrapped_html :
  innerHTML (substForest t
               (textPiece t (firstn lo d)
                ++ TextNode (S (S (S n))) text :: textPiece (S (S n)) (skipn hi d))
               cs)
  = innerHTML cs.
Proof.
  apply innerHTML_subst with (d := d); [|apply Ht].
  intros raw. rewrite flat_map_app. simpl. rewrite !serialize_textPiece.
  destruct raw.
  - apply substring_parts. lia.
  - rewrite <- !escapeText_app. f_equal. apply substring_parts. lia.
Qed.

Lemma toggle_unwraps (lay : Page -> Layout) (r : State) (w1 : World) :
  page w1 = pg1 ->
  currentHTML (final (toggleInlineCode lay r w1)) = innerHTML cs.
Proof.
  intros Hpg.
  assert (Hne : text <> []) by (apply substring_nonempty; assumption).
  assert (Hsel : selection (page w1) = Some (caretAt (Ref (S n)) (length text))).
  { rewrite Hpg. reflexivity. }
  assert (Hanchor : anchorElement (page w1) (caretAt (Ref (S n)) (length text))
                    = Some (codeElement n text)).
  { rewrite Hpg. unfold anchorElement. simpl.
    rw wrapped_resolve_text. rw wrapped_parent_text. reflexivity. }
  unfold toggleInlineCode. rewrite Hsel, Hanchor.
  change (isCodeElement (Some (codeElement n text))) with true. cbv iota.
  change (innerText (codeElement n text)) with (innerTextOf [TextNode (S n) text]).
  rewrite (innerTextOf_text (S n) Hne). rewrite Hpg.
  change (snd (createTextNode text pg1)) with pg2.
  change (fst (createTextNode text pg1)) with (S (S (S n))).
  change (nodeId (codeElement n text)) with n.
  unfold final, currentHTML. simpl page.
  rw unwrapped_editor. apply unwrapped_html.
Qed.

End Unwrapping.

(** *** Inline code: twice *)

(** With the selection inside an inline code element the first application
    unwraps it and the second finds nothing to wrap: [<p><code>abc</code></p>]
    ends as [<p>abc</p>]. *)
Lemma inline_code_toggle_not_involutive :
  ~ (forall w : World,
       reachable flatLayout w ->
       (exists sel, selection (page w) = Some sel /\
                    selectionText (page w) sel <> []) ->
       currentHTML (toggledTwice flatLayout w) = currentHTML w).
Proof.
  intros H. specialize (H codeSelected).
  assert (R : reachable flatLayout codeSelected).
  { apply reachable_run; [constructor|]. vm_compute. reflexivity. }
  assert (S : exists sel, selection (page codeSelected) = Some sel /\
                          selectionText (page codeSelected) sel <> []).
  { eexists. split; [reflexivity|]. vm_compute. discriminate. }
  specialize (H R S). vm_compute in H. discriminate.
Qed.

(** What the two applications leave in that case, and what they leave when
    the selected text itself reads as markup: the text [x <b> y] comes back
    from the parser as an element. *)
Lemma inline_code_toggle_examples :
  currentHTML codeSelected = lit "<p><code>abc</code></p>" /\
  currentHTML (toggledTwice flatLayout codeSelected) = lit "<p>abc</p>" /\
  let w := run flatLayout
             [Render (lit "<p>x &lt;b&gt; y</p>"); UserFocuses true;
              UserSelects (range 1 0 7)] (initialWorld false) in
  selectionText (page w) (mkSelection (mkBoundary (Ref 1) 0) (mkBoundary (Ref 1) 7))
  = lit "x <b> y" /\
  currentHTML (toggledTwice flatLayout w)
  = lit "<p>" ++ codeOpen ++ lit "x <b> y</b></code></p>".
Proof. vm_compute. repeat split. Qed.

(** C8, as the code has it.  For a non-empty selection that lies within one
    text node of the editor whose parent is not a code element, and whose
    text has neither [<] nor [&], the first application replaces the text
    node by its part before the selection, an inline code element around the
    selected text and its part after the selection, and the second
    application, with the caret where the first left it, unwraps the element:
    the serialised content is then the original one. *)
Theorem inline_code_toggle_round_trip :
  forall (lay : Page -> Layout) (r1 r2 : State) (w : World)
         (t : nat) (d : jsstring) (sel : Selection),
    selection (page w) = Some sel ->
    container (anchor sel) = Ref t -> container (focus sel) = Ref t ->
    textNodeAt (page w) t d -> idsBelow (page w) ->
    lowOffset sel < highOffset sel -> highOffset sel <= length d ->
    isCodeElement (anchorElement (page w) sel) = false ->
    plain (substring (lowOffset sel) (highOffset sel) d) ->
    let w1 := final (toggleInlineCode lay r1 w) in
    let w2 := final (toggleInlineCode lay r2 w1) in
    editor (page w1)
    = Some (substForest t
              (wrappedPieces t (nextId (page w)) (lowOffset sel) (highOffset sel) d)
              (editorNodes (page w))) /\
    currentHTML w2 = currentHTML w.
Proof.
  intros lay r1 r2 w t d sel Hs Ha Hf Ht Hids Hlt Hhi Hc Hp w1 w2.
  assert (Hw1 : page w1 = wrappedPage (page w) t (lowOffset sel) (highOffset sel) d)
    by (apply toggle_wraps; assumption).
  split.
  - rewrite Hw1. apply wrapped_editor. exact Ht.
  - unfold w2. rewrite (toggle_unwraps Ht Hids Hlt Hhi lay r2 w1 Hw1).
    unfold currentHTML. now rewrite (editor_mounted Ht).
Qed.

(** The word [world] of [<p>Hello world</p>] toggled twice. *)
Lemma inline_code_toggle_round_trip_witness :
  let w := worldSelected in
  let w1 := final (toggleInlineCode flatLayout (ui w) w) in
  let w2 := final (toggleInlineCode flatLayout (ui w1) w1) in
  currentHTML w1 = lit "<p>Hello " ++ codeOpen ++ lit "world</code></p>" /\
  currentHTML w2 = lit "<p>Hello world</p>".
Proof.
  intros w w1 w2.
  assert (Ee : editorNodes (page w) = [Element 0 (lit "p") [] [TextNode 1 (lit "Hello world")]])
    by (vm_compute; reflexivity).
  assert (Ea : allNodes (page w) = [Element 0 (lit "p") [] [TextNode 1 (lit "Hello world")]])
    by (vm_compute; reflexivity).
  assert (En : nextId (page w) = 2%nat) by (vm_compute; reflexivity).
  assert (Ht : textNodeAt (page w) 1 (lit "Hello world")).
  { unfold textNodeAt. rewrite Ee. split; [reflexivity|]. intros m Hm Hid.
    cbn [flat_map nodes app] in Hm.
    destruct Hm as [<- | [<- | []]]; [discriminate | reflexivity]. }
  assert (Hids : idsBelow (page w)).
  { intros k Hk. rewrite En in Hk. rewrite Ea.
    cbn -[Nat.eqb]. unfold hasId. cbn -[Nat.eqb]. decide_eqb. reflexivity. }
  assert (Hp : plain (substring 6 11 (lit "Hello world"))).
  { intros c Hc. vm_compute in Hc.
    repeat (destruct Hc as [<- | Hc]; [split; discriminate|]). contradiction. }
  assert (Hs : selection (page w) = Some (mkSelection (mkBoundary (Ref 1) 6) (mkBoundary (Ref 1) 11)))
    by (vm_compute; reflexivity).
  assert (Hc : isCodeElement (anchorElement (page w) (mkSelection (mkBoundary (Ref 1) 6) (mkBoundary (Ref 1) 11))) = false)
    by (vm_compute; reflexivity).
  destruct (@inline_code_toggle_round_trip flatLayout (ui w) (ui w1) w 1%nat
              (lit "Hello world")
              (mkSelection (mkBoundary (Ref 1) 6) (mkBoundary (Ref 1) 11))
              Hs eq_refl eq_refl Ht Hids)
    as [H1 H2]; try exact Hp; try exact Hc.
  - vm_compute. lia.
  - vm_compute. lia.
  - split.
    + unfold currentHTML, w1. rewrite H1. vm_compute. reflexivity.
    + etransitivity; [exact H2 | vm_compute; reflexivity].
Defined.

(* ===================================================================== *)
(** ** The storage service *)
(* ===================================================================== *)

Section StorageServiceFacts.

Import BlogPost.

Variable parseDate : jsstring -> option Z.
Variable toISOString : Z -> jsstring.

#[local] Abbreviation checkScheduled := (StorageService.checkScheduled parseDate toISOString).
#[local] Abbreviation getPosts := (StorageService.getPosts parseDate toISOString).
#[local] Abbreviation getPostById := (StorageService.getPostById parseDate toISOString).
#[local] Abbreviation savePost := (StorageService.savePost parseDate toISOString).
#[local] Abbreviation deletePost := (StorageService.deletePost parseDate toISOString).
#[local] Abbreviation view := (shown parseDate toISOString).
#[local] Abbreviation dueAt := (isDue parseDate).

Lemma checkScheduled_shown (now : Z) (p : BlogPost.t) :
  checkScheduled now p = (view now p, dueAt now p).
Proof.
  unfold StorageService.checkScheduled, shown, isDue.
  destruct (status p); try reflexivity.
  destruct (scheduledAt p) as [s|]; [|reflexivity].
  destruct (truthy s); [|reflexivity]. cbn [andb].
  destruct (parseDate s) as [t|]; [|reflexivity].
  destruct (Z.leb t now); reflexivity.
Qed.

Lemma shown_id (now : Z) (p : BlogPost.t) : BlogPost.id (view now p) = BlogPost.id p.
Proof.
  unfold shown. destruct (isDue parseDate now p); reflexivity.
Qed.

(** A post that has been shown at [now] is not due any more at [now]. *)
Lemma shown_settled (now : Z) (p : BlogPost.t) : dueAt now (view now p) = false.
Proof.
  unfold shown.
  destruct (isDue parseDate now p) eqn:E; [reflexivity | exact E].
Qed.

Lemma not_due_shown (now : Z) (p : BlogPost.t) : dueAt now p = false -> view now p = p.
Proof.
  unfold shown. now intros ->.
Qed.

Lemma not_scheduled_not_due (now : Z) (p : BlogPost.t) :
  status p <> SCHEDULED -> dueAt now p = false.
Proof.
  unfold isDue. destruct (status p); try reflexivity. now intros H.
Qed.

Lemma getPosts_fst (now : Z) (ls : LocalStorage) :
  fst (getPosts now ls) = map (view now) (storedPosts ls).
Proof.
  unfold StorageService.getPosts, storedPosts. cbv zeta. cbn [fst].
  rewrite map_map. apply map_ext. intros p.
  now rewrite checkScheduled_shown.
Qed.

Lemma none_due_map (now : Z) (l : list BlogPost.t) :
  existsb snd (map (checkScheduled now) l) = false -> map (view now) l = l.
Proof.
  induction l as [|p l IH]; simpl; [reflexivity|].
  intros H. apply orb_false_iff in H. destruct H as [H1 H2].
  rewrite checkScheduled_shown in H1. cbn [snd] in H1.
  rewrite (not_due_shown _ _ H1). now rewrite IH.
Qed.

(** The storage holds what [getPosts] has returned. *)
Lemma getPosts_stored (now : Z) (ls : LocalStorage) :
  storedPosts (snd (getPosts now ls)) = fst (getPosts now ls).
Proof.
  rewrite getPosts_fst.
  unfold StorageService.getPosts. cbv zeta. cbn [snd].
  fold (storedPosts ls).
  destruct (existsb snd _) eqn:E.
  - cbn. rewrite map_map. apply map_ext. intros p. now rewrite checkScheduled_shown.
  - symmetry. now apply none_due_map.
Qed.

Lemma getPosts_keeps_others (now : Z) (ls : LocalStorage) :
  let ls' := snd (getPosts now ls) in
  lumina_user ls' = lumina_user ls /\ lumina_comments ls' = lumina_comments ls /\
  nexis_theme ls' = nexis_theme ls.
Proof.
  unfold StorageService.getPosts. cbv zeta. cbn [snd].
  destruct (existsb snd _); repeat split.
Qed.

(** [getPosts] returns the stored posts in their order, each as it is stored
    except that a scheduled post whose time has come is returned published,
    with the time of the call as its time of update.  It never returns a
    scheduled post whose time has come, and the storage then holds the posts
    it has returned. *)
Theorem getPosts_publishes_due_posts :
  forall (now : Z) (ls : LocalStorage),
    let r := StorageService.getPosts parseDate toISOString now ls in
    fst r = map (fun p => if isDue parseDate now p
                          then published toISOString now p else p) (storedPosts ls) /\
    map BlogPost.id (fst r) = map BlogPost.id (storedPosts ls) /\
    (forall p, In p (fst r) -> isDue parseDate now p = false) /\
    storedPosts (snd r) = fst r.
Proof.
  intros now ls r. unfold r.
  split; [apply getPosts_fst|]. split; [|split].
  - rewrite getPosts_fst, map_map. apply map_ext. intros p. apply shown_id.
  - intros q Hq. rewrite getPosts_fst in Hq. apply in_map_iff in Hq.
    destruct Hq as [p [<- _]]. apply shown_settled.
  - apply getPosts_stored.
Qed.


Lemma getPosts_eq (now : Z) (ls : LocalStorage) :
  getPosts now ls
  = (map (view now) (storedPosts ls),
     if existsb (dueAt now) (storedPosts ls)
     then setLuminaPosts (Some (map (view now) (storedPosts ls))) ls else ls).
Proof.
  unfold StorageService.getPosts. cbv zeta. fold (storedPosts ls).
  assert (E1 : map fst (map (checkScheduled now) (storedPosts ls))
               = map (view now) (storedPosts ls)).
  { rewrite map_map. apply map_ext. intros p. now rewrite checkScheduled_shown. }
  assert (E2 : existsb snd (map (checkScheduled now) (storedPosts ls))
               = existsb (dueAt now) (storedPosts ls)).
  { clear E1. generalize (storedPosts ls) as l.
    induction l as [|p l IH]; simpl; [reflexivity|].
    rewrite checkScheduled_shown. cbn [snd]. now rewrite IH. }
  now rewrite E1, E2.
Qed.

Lemma settled_not_due (now : Z) (l : list BlogPost.t) :
  existsb (dueAt now) (map (view now) l) = false.
Proof.
  induction l as [|p l IH]; simpl; [reflexivity|].
  now rewrite shown_settled, IH.
Qed.

Lemma settled_view (now : Z) (l : list BlogPost.t) :
  map (view now) (map (view now) l) = map (view now) l.
Proof.
  rewrite map_map. apply map_ext. intros p. apply not_due_shown, shown_settled.
Qed.

(** Reading the posts again at the same time returns the same posts and
    writes nothing, and a post that a reading has returned as a draft or as
    published is returned as it is by every later reading, whatever its
    time. *)
Theorem getPosts_settles :
  forall (now now' : Z) (ls : LocalStorage),
    let r := StorageService.getPosts parseDate toISOString now ls in
    StorageService.getPosts parseDate toISOString now (snd r) = r /\
    (forall i p, nth_error (fst r) i = Some p -> status p <> SCHEDULED ->
       nth_error (fst (StorageService.getPosts parseDate toISOString now' (snd r))) i
       = Some p).
Proof.
  intros now now' ls r. split.
  - rewrite getPosts_eq. unfold r. rewrite getPosts_stored, getPosts_fst.
    rewrite settled_not_due, settled_view.
    rewrite <- getPosts_fst. now destruct (getPosts now ls).
  - intros i p Hi Hs. rewrite getPosts_fst. unfold r. rewrite getPosts_stored.
    fold r. rewrite (map_nth_error _ _ _ Hi).
    now rewrite (not_due_shown _ _ (not_scheduled_not_due now' _ Hs)).
Qed.

(** *** Saving and looking up *)

Lemma findIndex_none {A : Type} (f : A -> bool) (l : list A) :
  findIndex f l = None <-> existsb f l = false.
Proof.
  induction l as [|x l IH]; simpl; [tauto|].
  destruct (f x); simpl; [split; discriminate|].
  destruct (findIndex f l); [split; [discriminate | intros H; apply IH in H; discriminate]|].
  split; intros _; [now apply IH | reflexivity].
Qed.

Lemma findIndex_some {A : Type} (f : A -> bool) (l : list A) (i : nat) :
  findIndex f l = Some i -> existsb f l = true.
Proof.
  intros H. destruct (existsb f l) eqn:E; [reflexivity|].
  apply findIndex_none in E. congruence.
Qed.

Lemma find_assignAt {A : Type} (f : A -> bool) (x : A) (l : list A) (i : nat) :
  findIndex f l = Some i -> f x = true -> find f (assignAt i x l) = Some x.
Proof.
  revert i. induction l as [|y l IH]; intros i; simpl; [discriminate|].
  destruct (f y) eqn:Ey.
  - intros H Hx. injection H as <-. simpl. now rewrite Hx.
  - destruct (findIndex f l) as [j|]; [|discriminate].
    intros H Hx. injection H as <-. simpl. rewrite Ey. now apply IH.
Qed.

Lemma find_assignAt_other {A : Type} (f g : A -> bool) (x : A) (l : list A) (i : nat) :
  findIndex g l = Some i -> (forall y, g y = true -> f y = false) -> f x = false ->
  find f (assignAt i x l) = find f l.
Proof.
  revert i. induction l as [|y l IH]; intros i; simpl; [discriminate|].
  destruct (g y) eqn:Ey.
  - intros H Hg Hx. injection H as <-. simpl. now rewrite Hx, (Hg y Ey).
  - destruct (findIndex g l) as [j|]; [|discriminate].
    intros H Hg Hx. injection H as <-. simpl.
    destruct (f y); [reflexivity|]. now apply IH.
Qed.

Lemma length_assignAt {A : Type} (x : A) (l : list A) (i : nat) :
  length (assignAt i x l) = length l.
Proof.
  revert i. induction l as [|y l IH]; intros [|i]; simpl; auto.
Qed.

Lemma find_view (now : Z) (k : jsstring) (l : list BlogPost.t) :
  postWithId k (map (view now) l) = option_map (view now) (postWithId k l).
Proof.
  unfold postWithId. induction l as [|p l IH]; simpl; [reflexivity|].
  rewrite shown_id. destruct (streq (id p) k); [reflexivity | exact IH].
Qed.

Lemma existsb_view (now : Z) (k : jsstring) (l : list BlogPost.t) :
  existsb (fun p => streq (id p) k) (map (view now) l)
  = existsb (fun p => streq (id p) k) l.
Proof.
  induction l as [|p l IH]; simpl; [reflexivity|]. now rewrite shown_id, IH.
Qed.

Lemma getPostById_eq (now : Z) (k : jsstring) (ls : LocalStorage) :
  fst (getPostById now k ls) = option_map (view now) (postWithId k (storedPosts ls)).
Proof.
  unfold StorageService.getPostById. cbn [fst].
  rewrite getPosts_fst. apply find_view.
Qed.

Lemma savePost_stored (now stamp : Z) (post : BlogPost.t) (ls : LocalStorage) :
  storedPosts (snd (savePost now stamp post ls))
  = match findIndex (fun p => streq (id p) (id post)) (map (view now) (storedPosts ls)) with
    | Some index =>
        assignAt index (StorageService.setUpdatedAt (toISOString stamp) post)
          (map (view now) (storedPosts ls))
    | None => post :: map (view now) (storedPosts ls)
    end.
Proof.
  unfold StorageService.savePost. cbv zeta. cbn [snd]. rewrite getPosts_fst.
  reflexivity.
Qed.

(** A post that has been saved is found again under its identity: as it was
    given when no stored post had that identity, and with the time of the
    saving as its time of update when it has replaced one.  [savePost] itself
    answers the post as it was given. *)
Theorem savePost_then_getPostById :
  forall (now stamp now' : Z) (post : BlogPost.t) (ls : LocalStorage),
    let r := StorageService.savePost parseDate toISOString now stamp post ls in
    let existed := existsb (fun p => streq (id p) (id post)) (storedPosts ls) in
    let saved := if existed
                 then StorageService.setUpdatedAt (toISOString stamp) post
                 else post in
    fst r = post /\
    postWithId (id post) (storedPosts (snd r)) = Some saved /\
    fst (StorageService.getPostById parseDate toISOString now' (id post) (snd r))
    = Some (shown parseDate toISOString now' saved).
Proof.
  intros now stamp now' post ls r existed saved.
  assert (H : postWithId (id post) (storedPosts (snd r)) = Some saved).
  { unfold r. rewrite savePost_stored. unfold saved, existed.
    rewrite <- (existsb_view now).
    destruct (findIndex _ (map (view now) (storedPosts ls))) as [i|] eqn:E.
    - rewrite (findIndex_some _ _ E). unfold postWithId. apply (find_assignAt _ _ _ E).
      cbn. apply streq_refl.
    - apply findIndex_none in E. rewrite E. unfold postWithId. simpl.
      now rewrite streq_refl. }
  split; [reflexivity|]. split; [exact H|].
  rewrite getPostById_eq, H. reflexivity.
Qed.

(** Saving a post leaves the posts of every other identity as the reading at
    the time of the saving shows them, and the number of posts grows by one
    exactly when no stored post had the identity of the saved one. *)
Theorem savePost_keeps_other_posts :
  forall (now stamp : Z) (post : BlogPost.t) (ls : LocalStorage) (k : jsstring),
    k <> id post ->
    let r := StorageService.savePost parseDate toISOString now stamp post ls in
    postWithId k (storedPosts (snd r))
    = postWithId k (fst (StorageService.getPosts parseDate toISOString now ls)) /\
    length (storedPosts (snd r))
    = (length (storedPosts ls)
       + if existsb (fun p => streq (id p) (id post)) (storedPosts ls) then 0 else 1)%nat.
Proof.
  intros now stamp post ls k Hk r. unfold r. rewrite savePost_stored, getPosts_fst.
  rewrite <- (existsb_view now).
  assert (Hne : streq (id post) k = false) by (apply streq_neq; congruence).
  destruct (findIndex _ (map (view now) (storedPosts ls))) as [i|] eqn:E.
  - rewrite (findIndex_some _ _ E). split.
    + unfold postWithId. apply (find_assignAt_other _ _ _ _ E); [|exact Hne].
      intros y Hy. apply streq_eq in Hy. rewrite Hy. exact Hne.
    + rewrite length_assignAt, length_map. lia.
  - apply findIndex_none in E. rewrite E. split.
    + unfold postWithId. simpl. now rewrite Hne.
    + simpl. rewrite length_map. lia.
Qed.


(** *** Deleting *)

Lemma deletePost_stored (now : Z) (k : jsstring) (ls : LocalStorage) :
  storedPosts (deletePost now k ls)
  = filter (fun p => negb (streq (id p) k)) (map (view now) (storedPosts ls)).
Proof.
  unfold StorageService.deletePost. cbv zeta. now rewrite getPosts_fst.
Qed.

Lemma find_filter_same (k : jsstring) (l : list BlogPost.t) :
  postWithId k (filter (fun p => negb (streq (id p) k)) l) = None.
Proof.
  unfold postWithId. induction l as [|p l IH]; simpl; [reflexivity|].
  destruct (streq (id p) k) eqn:E; simpl; [exact IH|]. now rewrite E.
Qed.

Lemma find_filter_other (k k' : jsstring) (l : list BlogPost.t) :
  k' <> k ->
  postWithId k' (filter (fun p => negb (streq (id p) k)) l) = postWithId k' l.
Proof.
  intros Hk. unfold postWithId. induction l as [|p l IH]; simpl; [reflexivity|].
  destruct (streq (id p) k) eqn:E; simpl.
  - apply streq_eq in E. rewrite E.
    assert (Hn : streq k k' = false) by (apply streq_neq; congruence).
    now rewrite Hn.
  - destruct (streq (id p) k'); [reflexivity | exact IH].
Qed.

Lemma filter_twice {A : Type} (f : A -> bool) (l : list A) :
  filter f (filter f l) = filter f l.
Proof.
  induction l as [|x l IH]; simpl; [reflexivity|].
  destruct (f x) eqn:E; simpl; [now rewrite E, IH | exact IH].
Qed.

Lemma filter_settled (now : Z) (f : BlogPost.t -> bool) (l : list BlogPost.t) :
  map (view now) (filter f (map (view now) l)) = filter f (map (view now) l).
Proof.
  induction l as [|p l IH]; simpl; [reflexivity|].
  destruct (f (view now p)); simpl; [|exact IH].
  now rewrite (not_due_shown _ _ (shown_settled now p)), IH.
Qed.

Lemma filter_not_due (now : Z) (f : BlogPost.t -> bool) (l : list BlogPost.t) :
  existsb (dueAt now) (filter f (map (view now) l)) = false.
Proof.
  induction l as [|p l IH]; simpl; [reflexivity|].
  destruct (f (view now p)); simpl; [|exact IH].
  now rewrite shown_settled, IH.
Qed.

(** After [deletePost] no post with the deleted identity is stored or found
    by any later lookup; the posts of every other identity stay as the
    reading at the time of the deletion shows them, in their order; and
    deleting again at that time changes nothing. *)
Theorem deletePost_removes_the_post :
  forall (now now' : Z) (k : jsstring) (ls : LocalStorage),
    let ls' := StorageService.deletePost parseDate toISOString now k ls in
    storedPosts ls'
    = filter (fun p => negb (streq (id p) k))
        (fst (StorageService.getPosts parseDate toISOString now ls)) /\
    fst (StorageService.getPostById parseDate toISOString now' k ls') = None /\
    (forall k', k' <> k ->
       postWithId k' (storedPosts ls')
       = postWithId k' (fst (StorageService.getPosts parseDate toISOString now ls))) /\
    StorageService.deletePost parseDate toISOString now k ls' = ls'.
Proof.
  intros now now' k ls ls'. unfold ls'.
  split; [rewrite deletePost_stored, getPosts_fst; reflexivity|].
  split; [|split].
  - rewrite getPostById_eq, deletePost_stored, find_filter_same. reflexivity.
  - intros k' Hk. rewrite deletePost_stored, getPosts_fst.
    now apply find_filter_other.
  - unfold StorageService.deletePost at 1. cbv zeta.
    rewrite getPosts_eq. cbn [fst snd].
    rewrite deletePost_stored, filter_settled, filter_not_due, filter_twice.
    unfold StorageService.deletePost. cbv zeta. rewrite getPosts_fst.
    reflexivity.
Qed.

End StorageServiceFacts.

(** A draft read twice, at different times. *)
Lemma getPosts_settles_witness :
  let ls := mkLocalStorage None (Some [draft "a" "first"]) None None in
  nth_error
    (fst (StorageService.getPosts noDate blankDate 5
            (snd (StorageService.getPosts noDate blankDate 0 ls)))) 0
  = Some (draft "a" "first").
Proof.
  intros ls.
  destruct (@getPosts_settles noDate blankDate 0%Z 5%Z ls) as [_ H].
  apply H; [reflexivity | discriminate].
Defined.

(** The lookup of an identity other than the one saved, on a storage with
    two drafts. *)
Lemma savePost_keeps_other_posts_witness :
  let ls := mkLocalStorage None (Some [draft "a" "first"; draft "b" "second"]) None None in
  let r := StorageService.savePost noDate blankDate 0 0 (draft "b" "changed") ls in
  postWithId (lit "a") (storedPosts (snd r)) = Some (draft "a" "first") /\
  length (storedPosts (snd r)) = 2%nat.
Proof.
  intros ls r.
  apply (@savePost_keeps_other_posts noDate blankDate 0%Z 0%Z (draft "b" "changed") ls
           (lit "a")).
  discriminate.
Defined.

(** The lookup of an identity other than the one deleted. *)
Lemma deletePost_removes_the_post_witness :
  let ls := mkLocalStorage None (Some [draft "a" "first"; draft "b" "second"]) None None in
  postWithId (lit "a") (storedPosts (StorageService.deletePost noDate blankDate 0 (lit "b") ls))
  = Some (draft "a" "first").
Proof.
  intros ls.
  destruct (@deletePost_removes_the_post noDate blankDate 0%Z 0%Z (lit "b") ls)
    as [_ [_ [H _]]].
  apply (H (lit "a")). discriminate.
Defined.

(** *** Comments *)

(** A comment that has been added is the last of the comments of its post,
    after those that were there, and the comments of the other posts are as
    they were; [addComment] answers the comment and touches no other
    entry. *)
Theorem addComment_then_getComments :
  forall (comment : Comment.t) (postId : jsstring) (ls : LocalStorage),
    let r := StorageService.addComment comment ls in
    fst r = comment /\
    StorageService.getComments postId (snd r)
    = StorageService.getComments postId ls
      ++ (if streq (Comment.postId comment) postId then [comment] else []) /\
    lumina_posts (snd r) = lumina_posts ls /\ lumina_user (snd r) = lumina_user ls.
Proof.
  intros comment postId ls r. split; [reflexivity|]. split; [|split; reflexivity].
  unfold r, StorageService.addComment, StorageService.getComments. cbv zeta.
  cbn [snd lumina_comments setLuminaComments].
  rewrite filter_app. simpl. now destruct (streq (Comment.postId comment) postId).
Qed.

(** *** The first run *)

(** [seedData] only fills gaps: afterwards the posts and the comments both
    have an entry, an entry that was there is kept as it was, the other keys
    are not touched, and running it again, at any time, changes nothing.
    The posts it puts into an empty storage are three published posts, which
    no reading ever changes. *)
Theorem seedData_only_fills_gaps :
  forall (parseDate : jsstring -> option Z) (toISOString : Z -> jsstring)
         (now now' : Z) (ls : LocalStorage),
    let ls' := StorageService.seedData toISOString now ls in
    lumina_posts ls' = Some (match lumina_posts ls with
                             | Some l => l
                             | None => StorageService.initialPosts toISOString now
                             end) /\
    lumina_comments ls' = Some (match lumina_comments ls with
                                | Some l => l
                                | None => []
                                end) /\
    lumina_user ls' = lumina_user ls /\ nexis_theme ls' = nexis_theme ls /\
    StorageService.seedData toISOString now' ls' = ls' /\
    map BlogPost.id (StorageService.initialPosts toISOString now)
    = [lit "1"; lit "2"; lit "3"] /\
    StorageService.getPosts parseDate toISOString now'
      (StorageService.seedData toISOString now emptyStorage)
    = (StorageService.initialPosts toISOString now,
       StorageService.seedData toISOString now emptyStorage).
Proof.
  intros parseDate toISOString now now' ls ls'. unfold ls', StorageService.seedData.
  destruct ls as [u [l|] [c|] t]; cbn; repeat split.
Qed.
(* ===================================================================== *)
(** ** The store *)
(* ===================================================================== *)

Section StoreFacts.

Import UseStore.

(** *** The theme *)

(** Whatever the state before, after [toggleTheme] the theme of the store,
    the class of the root element and the stored name of the theme agree,
    and the theme is the other one; a second toggle gives the first theme
    back, and the whole state when the three agreed to begin with. *)
Theorem toggleTheme_agrees :
  forall a : App,
    let a' := toggleTheme a in
    theme (state a') <> theme (state a) /\
    rootDark a' = isDark (theme (state a')) /\
    nexis_theme (localStorage a') = Some (themeName (theme (state a'))) /\
    theme (state (toggleTheme a')) = theme (state a) /\
    (rootDark a = isDark (theme (state a)) ->
     nexis_theme (localStorage a) = Some (themeName (theme (state a))) ->
     toggleTheme a' = a).
Proof.
  intros [[u la p lp v c n t] [lu lpo lc lt] d sc]. cbv zeta.
  unfold toggleTheme; destruct t; cbn; repeat split; try discriminate;
    intros -> ->; reflexivity.
Qed.

Lemma toggleTheme_agrees_witness :
  let a := mkApp initialState (mkLocalStorage None None None (Some (lit "dark")))
             true (0, 0)%Z in
  toggleTheme (toggleTheme a) = a.
Proof.
  intros a.
  destruct (toggleTheme_agrees a) as [_ [_ [_ [_ H]]]].
  apply H; reflexivity.
Defined.

(** *** Notifications *)

Lemma markRead_unread (k : jsstring) (l : list Notification.t) :
  (unreadCount (map (fun n => if streq (Notification.id n) k then markRead n else n) l)
   + unreadWithId k l = unreadCount l)%nat.
Proof.
  unfold unreadCount, unreadWithId.
  induction l as [|n l IH]; simpl; [reflexivity|].
  destruct (streq (Notification.id n) k) eqn:E; simpl;
    destruct (Notification.read n); simpl; lia.
Qed.

(** [markNotificationRead] marks every notification of the given identity
    as read and changes nothing else: the notifications keep their order,
    identities, kinds, messages and times, those of another identity keep
    their mark, and the number of unread ones goes down by the number of
    unread ones of that identity.  Marking again changes nothing. *)
Theorem markNotificationRead_marks :
  forall (k : jsstring) (a : App),
    let before := notifications (state a) in
    let a' := markNotificationRead k a in
    let after := notifications (state a') in
    after = map (fun n => Notification.mk (Notification.id n) (Notification.type n)
                            (Notification.message n) (Notification.timestamp n)
                            (Notification.read n || streq (Notification.id n) k))
              before /\
    (unreadCount after + unreadWithId k before = unreadCount before)%nat /\
    unreadWithId k after = 0%nat /\
    markNotificationRead k a' = a' /\
    localStorage a' = localStorage a /\ user (state a') = user (state a).
Proof.
  intros k a before a' after.
  assert (E : after = map (fun n => if streq (Notification.id n) k then markRead n else n)
                        before) by reflexivity.
  split; [|split; [|split; [|split; [|split; reflexivity]]]].
  - rewrite E. apply map_ext. intros [i ty m ts rd]. cbn.
    destruct (streq i k); cbn; [now rewrite orb_true_r | now rewrite orb_false_r].
  - rewrite E. apply markRead_unread.
  - rewrite E. unfold unreadWithId. clear E.
    induction before as [|n l IH]; simpl; [reflexivity|].
    destruct (streq (Notification.id n) k) eqn:En; simpl.
    + exact IH.
    + rewrite En, andb_false_r. exact IH.
  - unfold a', markNotificationRead, set.
    cbn [state localStorage rootDark scroll]. f_equal.
    unfold setNotifications.
    cbn [user isLoadingAuth posts isLoadingPosts activeView currentPostId
         notifications theme].
    f_equal. rewrite map_map. apply map_ext. intros x.
    destruct (streq (Notification.id x) k) eqn:En; cbn; rewrite En; reflexivity.
Qed.

(** A notification that is added comes first and unread, before those that
    were there, which stay as they are: the number of unread notifications
    goes up by one, and it is zero after [clearNotifications]. *)
Theorem addNotification_unread :
  forall (id : jsstring) (now : Z) (type : Notification.Kind) (message : jsstring)
         (a : App),
    let a' := addNotification id now type message a in
    notifications (state a')
    = Notification.mk id type message now false :: notifications (state a) /\
    unreadCount (notifications (state a')) = S (unreadCount (notifications (state a))) /\
    unreadCount (notifications (state (markNotificationRead id a')))
    = (unreadCount (notifications (state a)) - unreadWithId id (notifications (state a)))%nat /\
    unreadCount (notifications (state (clearNotifications a'))) = 0%nat.
Proof.
  intros id now type message a a'. split; [reflexivity|]. split; [reflexivity|].
  split; [|reflexivity].
  pose proof (markRead_unread id (notifications (state a'))) as H.
  change (unreadCount (map _ (notifications (state a'))))
    with (unreadCount (notifications (state (markNotificationRead id a')))) in H.
  assert (U : unreadWithId id (notifications (state a'))
              = S (unreadWithId id (notifications (state a)))).
  { unfold unreadWithId. cbn. now rewrite streq_refl. }
  assert (C : unreadCount (notifications (state a'))
              = S (unreadCount (notifications (state a)))) by reflexivity.
  pose proof (markRead_unread id (notifications (state a))) as M.
  lia.
Qed.


(** *** The user *)

(** Without a user [updateUser] does nothing at all: no notification, no
    entry written.  With a user it merges the updates into it, the fields
    that the updates leave out being kept, stores the result under the key of
    the user and adds one notification. *)
Theorem updateUser_needs_a_user :
  forall (id : jsstring) (now : Z) (updates : User.partial) (a : App),
    (user (state a) = None -> updateUser id now updates a = a) /\
    (forall u, user (state a) = Some u ->
       let a' := updateUser id now updates a in
       user (state a') = Some (merge u updates) /\
       lumina_user (localStorage a') = Some (merge u updates) /\
       notifications (state a')
       = Notification.mk id Notification.success (lit "Profile updated successfully")
           now false :: notifications (state a)) /\
    (forall u, merge u (User.mkPartial None None None None None) = u) /\
    (forall u, merge (merge u updates) updates = merge u updates).
Proof.
  intros id now updates a. split; [|split; [|split]].
  - intros H. unfold updateUser. now rewrite H.
  - intros u H. unfold updateUser. rewrite H. repeat split.
  - intros [i n e av r]. reflexivity.
  - intros [i n e av r]. destruct updates as [[?|] [?|] [?|] [?|] [?|]]; reflexivity.
Qed.

Lemma updateUser_needs_a_user_witness :
  let a := mkApp initialState emptyStorage true (0, 0)%Z in
  updateUser (lit "n1") 0 (User.mkPartial None (Some (lit "Alex")) None None None) a = a.
Proof.
  intros a.
  destruct (updateUser_needs_a_user (lit "n1") 0
              (User.mkPartial None (Some (lit "Alex")) None None None) a) as [H _].
  apply H. reflexivity.
Defined.

(** *** What the actions keep *)

Section Invariants.

Variable parseDate : jsstring -> option Z.
Variable toISOString : Z -> jsstring.

Lemma act_userStored (x : Action) (a : App) :
  userStored a -> userStored (act parseDate toISOString x a).
Proof.
  unfold userStored. intros H.
  destruct x; cbn [act]; try exact H; try reflexivity.
  - unfold checkAuth. destruct (lumina_user (localStorage a)) eqn:E; cbn;
      now rewrite E.
  - unfold updateUser. destruct (user (state a)) eqn:E; [reflexivity|].
    now rewrite E.
  - unfold fetchPostsResume. cbn -[StorageService.getPosts].
    destruct (getPosts_keeps_others parseDate toISOString now (localStorage a))
      as [-> _]. exact H.
  - unfold deletePost, StorageService.deletePost. cbn -[StorageService.getPosts].
    destruct (getPosts_keeps_others parseDate toISOString now (localStorage a))
      as [-> _]. exact H.
  - unfold toggleTheme. destruct (theme (state a)); exact H.
Qed.

Lemma acts_userStored (xs : list Action) :
  forall a, userStored a -> userStored (acts parseDate toISOString xs a).
Proof.
  unfold acts. induction xs as [|x xs IH]; intros a H; simpl; [exact H|].
  apply IH, act_userStored, H.
Qed.

Lemma ids_filter (k : jsstring) (l1 l2 : list BlogPost.t) :
  map BlogPost.id l1 = map BlogPost.id l2 ->
  map BlogPost.id (filter (fun p => negb (streq (BlogPost.id p) k)) l1)
  = map BlogPost.id (filter (fun p => negb (streq (BlogPost.id p) k)) l2).
Proof.
  revert l2. induction l1 as [|p l1 IH]; intros [|q l2] H; simpl in *;
    try discriminate; [reflexivity|].
  injection H as Hp Hl. rewrite Hp.
  destruct (streq (BlogPost.id q) k); simpl; [now apply IH|].
  rewrite Hp. f_equal. now apply IH.
Qed.

Lemma act_postsStored (x : Action) (a : App) :
  postsStored a -> postsStored (act parseDate toISOString x a).
Proof.
  unfold postsStored. intros H.
  destruct x; cbn [act]; try exact H.
  - unfold checkAuth. destruct (lumina_user (localStorage a)); exact H.
  - unfold updateUser. destruct (user (state a)); exact H.
  - unfold fetchPostsResume. cbn -[StorageService.getPosts].
    now rewrite (getPosts_stored parseDate toISOString).
  - unfold deletePost. cbn -[StorageService.deletePost].
    rewrite (deletePost_stored parseDate toISOString).
    apply ids_filter. rewrite H, map_map. symmetry. apply map_ext.
    intros p. apply shown_id.
  - unfold toggleTheme. destruct (theme (state a)); exact H.
Qed.

Lemma acts_postsStored (xs : list Action) :
  forall a, postsStored a -> postsStored (acts parseDate toISOString xs a).
Proof.
  unfold acts. induction xs as [|x xs IH]; intros a H; simpl; [exact H|].
  apply IH, act_postsStored, H.
Qed.

End Invariants.

(** Once [checkAuth] has run, as it does when the application is mounted,
    the user of the store is the user kept in the storage, whatever actions
    of the store follow: loading the page again brings back the same user,
    or none after a logout. *)
Theorem store_user_survives_reload :
  forall (parseDate : jsstring -> option Z) (toISOString : Z -> jsstring)
         (xs : list Action) (a : App),
    let a' := acts parseDate toISOString xs (checkAuth a) in
    lumina_user (localStorage a') = user (state a') /\
    user (state (reload a')) = user (state a').
Proof.
  intros parseDate toISOString xs a a'.
  assert (H : userStored a').
  { apply acts_userStored. unfold userStored, checkAuth.
    destruct (lumina_user (localStorage a)) eqn:E; cbn; now rewrite E. }
  split; [exact H|].
  unfold reload, checkAuth. cbn [localStorage]. unfold userStored in H.
  rewrite H. destruct (user (state a')); reflexivity.
Qed.

(** Once the posts have been fetched, the posts of the store go by the
    identities of the stored posts, in the same order, whatever actions of
    the store follow: a deletion takes the post out of both. *)
Theorem store_posts_follow_storage :
  forall (parseDate : jsstring -> option Z) (toISOString : Z -> jsstring)
         (now : Z) (xs : list Action) (a : App),
    let a' := acts parseDate toISOString (FetchPostsResume now :: xs) a in
    map BlogPost.id (posts (state a'))
    = map BlogPost.id (storedPosts (localStorage a')) /\
    forall now' k notifId stamp,
      let d := deletePost parseDate toISOString now' k notifId stamp a' in
      postWithId k (posts (state d)) = None /\
      postWithId k (storedPosts (localStorage d)) = None.
Proof.
  intros parseDate toISOString now xs a a'.
  split.
  - apply (acts_postsStored parseDate toISOString xs). unfold postsStored.
    cbn -[StorageService.getPosts].
    now rewrite (getPosts_stored parseDate toISOString).
  - intros now' k notifId stamp d. split.
    + unfold d, deletePost. cbn -[StorageService.deletePost]. apply find_filter_same.
    + unfold d, deletePost. cbn -[StorageService.deletePost].
      rewrite (deletePost_stored parseDate toISOString). apply find_filter_same.
Qed.

End StoreFacts.

(* ===================================================================== *)
(** ** The page that hosts the editor *)
(* ===================================================================== *)

Section EditorPageFacts.

Import EditorPage.

(** *** Stripping the markup *)

Lemma stripTagsFrom_no_open (b : bool) (s : jsstring) :
  forall c, In c (stripTagsFrom b s) -> c <> 60%N.
Proof.
  revert b. induction s as [|x s IH]; intros b c; simpl; [tauto|].
  destruct b.
  - apply IH.
  - destruct (N.eqb x 60) eqn:E; [apply IH|].
    intros [<- | H]; [now apply N.eqb_neq | now apply (IH false)].
Qed.

Lemma stripTags_plain (s : jsstring) :
  (forall c, In c s -> c <> 60%N) -> stripTagsFrom false s = s.
Proof.
  induction s as [|x s IH]; intros H; simpl; [reflexivity|].
  assert (E : N.eqb x 60 = false) by (apply N.eqb_neq, H; now left).
  rewrite E. f_equal. apply IH. intros c Hc. apply H. now right.
Qed.

Lemma stripTags_app_plain (a s : jsstring) :
  (forall c, In c a -> c <> 60%N) ->
  stripTagsFrom false (a ++ s) = a ++ stripTagsFrom false s.
Proof.
  induction a as [|x a IH]; intros H; simpl; [reflexivity|].
  assert (E : N.eqb x 60 = false) by (apply N.eqb_neq, H; now left).
  rewrite E. f_equal. apply IH. intros c Hc. apply H. now right.
Qed.

Lemma stripTags_inside (t s : jsstring) :
  (forall c, In c t -> c <> 62%N) ->
  stripTagsFrom true (t ++ 62%N :: s) = stripTagsFrom false s /\
  stripTagsFrom true t = [].
Proof.
  induction t as [|x t IH]; intros H; simpl; [split; reflexivity|].
  assert (E : N.eqb x 62 = false) by (apply N.eqb_neq, H; now left).
  rewrite E. apply IH. intros c Hc. apply H. now right.
Qed.

(** The text sent to the title and tag generators, [content] without its
    markup: it has no [<] left, so stripping it again changes nothing; text
    without [<] is left as it is; a tag is taken out with the text before it
    kept and the text after it stripped in turn; and from a [<] that no [>]
    follows everything is dropped to the end. *)
Theorem stripTags_removes_markup :
  forall content : jsstring,
    (forall c, In c (stripTags content) -> c <> 60%N) /\
    stripTags (stripTags content) = stripTags content /\
    ((forall c, In c content -> c <> 60%N) -> stripTags content = content) /\
    (forall before tag after : jsstring,
       (forall c, In c before -> c <> 60%N) -> (forall c, In c tag -> c <> 62%N) ->
       stripTags (before ++ 60%N :: tag ++ 62%N :: after) = before ++ stripTags after /\
       stripTags (before ++ 60%N :: tag) = before).
Proof.
  intros content. unfold stripTags.
  split; [apply stripTagsFrom_no_open|].
  split; [apply stripTags_plain, stripTagsFrom_no_open|].
  split; [apply stripTags_plain|].
  intros before tag after Hb Ht.
  rewrite !(@stripTags_app_plain before _ Hb).
  change (stripTagsFrom false (60%N :: tag ++ 62%N :: after))
    with (stripTagsFrom true (tag ++ 62%N :: after)).
  change (stripTagsFrom false (60%N :: tag)) with (stripTagsFrom true tag).
  destruct (@stripTags_inside tag after Ht) as [-> ->].
  split; [reflexivity | apply app_nil_r].
Qed.

(** The markup of [<p>Hello <b>you</b></p>] and an unclosed [<]. *)
Lemma stripTags_removes_markup_witness :
  stripTags (lit "Hello " ++ 60%N :: lit "b" ++ 62%N :: lit "you</b>")
  = lit "Hello you" /\
  stripTags (lit "1 " ++ 60%N :: lit " 2 and more") = lit "1 ".
Proof.
  destruct (stripTags_removes_markup []) as [_ [_ [_ H]]].
  destruct (H (lit "Hello ") (lit "b") (lit "you</b>")) as [H1 _].
  { intros c Hc. simpl in Hc.
    repeat (destruct Hc as [<- | Hc]; [discriminate|]). contradiction. }
  { intros c Hc. simpl in Hc.
    repeat (destruct Hc as [<- | Hc]; [discriminate|]). contradiction. }
  destruct (H (lit "1 ") (lit " 2 and more") []) as [_ H2].
  { intros c Hc. simpl in Hc.
    repeat (destruct Hc as [<- | Hc]; [discriminate|]). contradiction. }
  { intros c Hc. simpl in Hc.
    repeat (destruct Hc as [<- | Hc]; [discriminate|]). contradiction. }
  split; [rewrite H1; reflexivity | exact H2].
Defined.


(** *** The slug *)

Lemma slugChar_not_dash (c : jschar) : isSlugChar c = true -> N.eqb c 45 = false.
Proof.
  unfold isSlugChar, isLowerAscii. intros H. apply N.eqb_neq. intros ->.
  cbn in H. discriminate.
Qed.

Lemma dashRunsFrom_chars (b : bool) (s : jsstring) :
  Forall (fun c => isSlugChar c = true \/ c = 45%N) (dashRunsFrom b s).
Proof.
  revert b. induction s as [|c s IH]; intros b; simpl; [constructor|].
  destruct (isSlugChar c) eqn:E.
  - constructor; [now left | apply IH].
  - destruct b; [apply IH|]. constructor; [now right | apply IH].
Qed.

Lemma dashRunsFrom_single (b : bool) (s : jsstring) :
  hasDoubleDash (dashRunsFrom b s) = false /\
  (b = true -> hd_error (dashRunsFrom b s) <> Some 45%N).
Proof.
  revert b. induction s as [|c s IH]; intros b; simpl.
  - split; [reflexivity | discriminate].
  - destruct (isSlugChar c) eqn:E.
    + destruct (IH false) as [I1 _]. split.
      * destruct (dashRunsFrom false s) as [|x r] eqn:Er; [reflexivity|].
        cbn [hasDoubleDash]. cbn [hasDoubleDash] in I1.
        now rewrite (slugChar_not_dash _ E).
      * intros _ H. injection H as ->. discriminate.
    + destruct b; [apply IH|].
      destruct (IH true) as [I1 I2]. split; [|discriminate].
      destruct (dashRunsFrom true s) as [|x r] eqn:Er; [reflexivity|].
      cbn [hasDoubleDash]. cbn [hasDoubleDash] in I1. rewrite I1.
      destruct (N.eqb x 45) eqn:Ex; [|reflexivity].
      apply N.eqb_eq in Ex. subst x. now elim (I2 eq_refl).
Qed.

Lemma dashRunsFrom_filter (b : bool) (s : jsstring) :
  filter isSlugChar (dashRunsFrom b s) = filter isSlugChar s.
Proof.
  revert b. induction s as [|c s IH]; intros b; simpl; [reflexivity|].
  destruct (isSlugChar c) eqn:E; simpl.
  - now rewrite E, IH.
  - destruct b; simpl; apply IH.
Qed.

Lemma dashRunsFrom_none (b : bool) (s : jsstring) :
  filter isSlugChar s = [] ->
  dashRunsFrom b s = [] \/ dashRunsFrom b s = [45%N].
Proof.
  revert b. induction s as [|c s IH]; intros b; simpl; [now left|].
  destruct (isSlugChar c) eqn:E; [discriminate|]. intros H.
  destruct b; [now apply IH|].
  right. destruct (IH true H) as [-> | E1]; [reflexivity|].
  exfalso. destruct (dashRunsFrom_single true s) as [_ I2].
  rewrite E1 in I2. now apply I2.
Qed.

(** The last character taken off when it is a dash. *)
Lemma trimDashes_last (u : jsstring) (c : jschar) :
  rev (dropDash (rev (u ++ [c]))) = if N.eqb c 45 then u else u ++ [c].
Proof.
  rewrite rev_app_distr. simpl. destruct (N.eqb c 45).
  - apply rev_involutive.
  - simpl. now rewrite rev_involutive.
Qed.

Lemma hasDoubleDash_app (u : jsstring) (c : jschar) :
  hasDoubleDash (u ++ [c]) = false -> hasDoubleDash u = false.
Proof.
  induction u as [|x u IH]; simpl; [reflexivity|].
  destruct u as [|y u]; [reflexivity|]. cbn [app hasDoubleDash] in *.
  intros H. apply orb_false_iff in H. destruct H as [H1 H2].
  rewrite H1. now apply IH.
Qed.

Lemma last_not_dash (u : jsstring) (c : jschar) :
  hasDoubleDash (u ++ [45%N]) = false -> last u c = 45%N -> u = [].
Proof.
  induction u as [|x u IH]; [reflexivity|]. intros H L. exfalso.
  destruct u as [|y u].
  - simpl in L. subst x. discriminate.
  - cbn [app hasDoubleDash] in H. apply orb_false_iff in H. destruct H as [_ H].
    assert (E : y :: u = []) by (apply IH; [exact H | exact L]).
    discriminate.
Qed.

Lemma dropDash_facts (s : jsstring) :
  hasDoubleDash s = false ->
  hasDoubleDash (dropDash s) = false /\ hd_error (dropDash s) <> Some 45%N /\
  filter isSlugChar (dropDash s) = filter isSlugChar s /\
  (forall Q : jschar -> Prop, Forall Q s -> Forall Q (dropDash s)).
Proof.
  intros H. destruct s as [|c s]; [repeat split; try discriminate; auto|].
  cbn [dropDash]. destruct (N.eqb c 45) eqn:E.
  - apply N.eqb_eq in E. subst c. split; [|split; [|split]].
    + destruct s; [reflexivity|]. cbn [hasDoubleDash] in H.
      apply orb_false_iff in H. tauto.
    + destruct s as [|y s]; [discriminate|]. cbn [hasDoubleDash] in H.
      apply orb_false_iff in H. destruct H as [H _]. simpl in H.
      intros K. injection K as ->. discriminate.
    + reflexivity.
    + intros Q HQ. now inversion HQ.
  - split; [exact H|]. split; [|split; [reflexivity | auto]].
    intros K. injection K as ->. discriminate.
Qed.

Lemma trimLast_facts (u : jsstring) :
  hasDoubleDash u = false -> hd_error u <> Some 45%N ->
  let v := rev (dropDash (rev u)) in
  hasDoubleDash v = false /\ hd_error v <> Some 45%N /\ last v 0%N <> 45%N /\
  filter isSlugChar v = filter isSlugChar u /\
  (forall Q : jschar -> Prop, Forall Q u -> Forall Q v).
Proof.
  destruct u as [|x u'] eqn:Eu; [|destruct (@exists_last _ (x :: u') ltac:(discriminate)) as [w [c Ew]]; rewrite Ew in *; clear Ew].
  - intros _ _. cbn. repeat split; try discriminate; auto.
  - clear Eu. intros H Hh. cbv zeta. rewrite trimDashes_last.
    destruct (N.eqb c 45) eqn:E.
    + apply N.eqb_eq in E. subst c.
      split; [now apply (@hasDoubleDash_app w 45%N)|].
      split; [|split; [|split]].
      * destruct w; [discriminate | exact Hh].
      * intros L. apply (@last_not_dash _ _ H) in L. subst w. now apply Hh.
      * rewrite filter_app. simpl. symmetry. apply app_nil_r.
      * intros Q HQ. apply Forall_app in HQ. tauto.
    + split; [exact H|]. split; [exact Hh|]. split; [|split; [reflexivity | auto]].
      rewrite last_last. now apply N.eqb_neq.
Qed.

Lemma dashRunsFrom_fixed (s : jsstring) :
  forall b : bool,
    Forall (fun c => isSlugChar c = true \/ c = 45%N) s ->
    hasDoubleDash s = false -> (b = true -> hd_error s <> Some 45%N) ->
    dashRunsFrom b s = s.
Proof.
  induction s as [|c s IH]; intros b HF HD Hh; [reflexivity|].
  inversion HF as [|? ? Hc HF']; subst.
  assert (HD' : hasDoubleDash s = false).
  { destruct s; [reflexivity|]. cbn [hasDoubleDash] in HD.
    apply orb_false_iff in HD. tauto. }
  cbn [dashRunsFrom]. destruct (isSlugChar c) eqn:E.
  - f_equal. apply IH; [exact HF' | exact HD' | discriminate].
  - destruct Hc as [Hc | ->]; [congruence|].
    destruct b; [now elim (Hh eq_refl)|].
    f_equal. apply IH; [exact HF' | exact HD' |].
    intros _ K. destruct s as [|y s]; [discriminate|]. injection K as ->.
    cbn [hasDoubleDash] in HD. discriminate.
Qed.

Lemma trimDashes_fixed (s : jsstring) :
  hd_error s <> Some 45%N -> last s 0%N <> 45%N -> trimDashes s = s.
Proof.
  intros Hh Hl. unfold trimDashes.
  assert (E : dropDash s = s).
  { destruct s as [|c s]; [reflexivity|]. cbn [dropDash].
    destruct (N.eqb c 45) eqn:Ec; [|reflexivity].
    apply N.eqb_eq in Ec. subst c. now elim Hh. }
  rewrite E.
  destruct s as [|x u]; [reflexivity|].
  destruct (@exists_last _ (x :: u) ltac:(discriminate)) as [w [c Ew]].
  rewrite Ew in *. rewrite trimDashes_last. rewrite last_last in Hl.
  apply N.eqb_neq in Hl. now rewrite Hl.
Qed.

(** The slug of a title, whatever the lower-case mapping: it is made of
    lower-case letters, digits and dashes, neither begins nor ends with a
    dash and has no two dashes in a row; its letters and digits are those of
    the lower-case title, in their order; it is empty exactly when that
    title has none; and a slug that the lower-case mapping leaves as it is
    is its own slug. *)
Theorem slugOf_shape :
  forall (toLowerCase : jsstring -> jsstring) (title : jsstring),
    let s := slugOf toLowerCase title in
    Forall (fun c => isSlugChar c = true \/ c = 45%N) s /\
    hd_error s <> Some 45%N /\ last s 0%N <> 45%N /\ hasDoubleDash s = false /\
    filter isSlugChar s = filter isSlugChar (toLowerCase title) /\
    (s = [] <-> filter isSlugChar (toLowerCase title) = []) /\
    (toLowerCase s = s -> slugOf toLowerCase s = s).
Proof.
  intros toLowerCase title s.
  set (d := dashRuns (toLowerCase title)).
  destruct (dashRunsFrom_single false (toLowerCase title)) as [D1 _]. fold (dashRuns (toLowerCase title)) in D1. fold d in D1.
  destruct (dropDash_facts d D1) as [A1 [A2 [A3 A4]]].
  destruct (trimLast_facts (dropDash d) A1 A2) as [B1 [B2 [B3 [B4 B5]]]].
  cbv zeta in B1, B2, B3, B4, B5.
  assert (Es : s = rev (dropDash (rev (dropDash d)))) by reflexivity.
  rewrite <- Es in B1, B2, B3, B4, B5.
  assert (HF : Forall (fun c => isSlugChar c = true \/ c = 45%N) s).
  { apply B5, A4. apply dashRunsFrom_chars. }
  assert (Hf : filter isSlugChar s = filter isSlugChar (toLowerCase title)).
  { rewrite B4, A3. apply dashRunsFrom_filter. }
  split; [exact HF|]. split; [exact B2|]. split; [exact B3|]. split; [exact B1|].
  split; [exact Hf|]. split; [split|].
  - intros E. rewrite E in Hf. now rewrite <- Hf.
  - intros E. rewrite Es. unfold d, dashRuns.
    destruct (dashRunsFrom_none false (toLowerCase title) E) as [-> | ->]; reflexivity.
  - intros E. unfold slugOf. rewrite E. unfold dashRuns.
    rewrite (@dashRunsFrom_fixed s false HF B1) by discriminate.
    now apply trimDashes_fixed.
Qed.

(** The slug of [Hello, World!] with the lower-case mapping of the ASCII
    letters, and its own slug. *)
Lemma slugOf_shape_witness :
  slugOf toLowerAscii (lit "Hello, World!") = lit "hello-world" /\
  slugOf toLowerAscii (lit "hello-world") = lit "hello-world".
Proof.
  split; [reflexivity|].
  destruct (slugOf_shape toLowerAscii (lit "Hello, World!")) as [_ [_ [_ [_ [_ [_ H]]]]]].
  apply H. reflexivity.
Defined.

(** *** Tags *)

Lemma includes_In (l : list jsstring) (x : jsstring) : includes l x = true <-> In x l.
Proof.
  unfold includes. rewrite existsb_exists. split.
  - intros [y [Hy E]]. apply streq_eq in E. now subst.
  - intros H. exists x. split; [exact H | apply streq_refl].
Qed.

Lemma includes_not_In (l : list jsstring) (x : jsstring) :
  includes l x = false <-> ~ In x l.
Proof.
  rewrite <- includes_In. destruct (includes l x); split; congruence.
Qed.

Lemma In_filter_other (t : jsstring) (l : list jsstring) (x : jsstring) :
  In x (filter (fun y => negb (streq y t)) l) <-> In x l /\ x <> t.
Proof.
  rewrite filter_In. split; intros [H1 H2]; split; try exact H1.
  - apply negb_true_iff in H2. now apply streq_neq.
  - apply negb_true_iff. now apply streq_neq.
Qed.

Lemma dedup_In (l : list jsstring) (x : jsstring) : In x (dedup l) <-> In x l.
Proof.
  induction l as [|t l IH]; simpl; [tauto|].
  rewrite In_filter_other, IH. split.
  - intros [H | [H _]]; [now left | now right].
  - intros [H | H]; [now left|].
    destruct (streq x t) eqn:E; [apply streq_eq in E; left; congruence|].
    right. split; [exact H | now apply streq_neq].
Qed.

Lemma dedup_NoDup (l : list jsstring) : NoDup (dedup l).
Proof.
  induction l as [|t l IH]; simpl; [constructor|]. constructor.
  - rewrite In_filter_other. intros [_ H]. now apply H.
  - now apply NoDup_filter.
Qed.

Lemma filter_absent (t : jsstring) (l : list jsstring) :
  ~ In t l -> filter (fun y => negb (streq y t)) l = l.
Proof.
  induction l as [|x l IH]; simpl; [reflexivity|]. intros H.
  assert (E : streq x t = false) by (apply streq_neq; intros ->; apply H; now left).
  rewrite E. simpl. f_equal. apply IH. intros K. apply H. now right.
Qed.

Lemma filter_both {A : Type} (f g : A -> bool) (l : list A) :
  filter f (filter g l) = filter (fun x => g x && f x) l.
Proof.
  induction l as [|x l IH]; simpl; [reflexivity|].
  destruct (g x); simpl; [destruct (f x); now rewrite IH | exact IH].
Qed.

Lemma dedup_prefix (old l : list jsstring) :
  NoDup old ->
  dedup (old ++ l) = old ++ filter (fun x => negb (includes old x)) (dedup l).
Proof.
  induction old as [|a old IH]; intros H; simpl.
  - symmetry. apply filter_true.
  - apply NoDup_cons_iff in H. destruct H as [Ha Hn].
    rewrite (IH Hn), filter_app, (@filter_absent a old Ha). f_equal. f_equal.
    rewrite filter_both. apply filter_ext. intros x.
    unfold includes. simpl. rewrite negb_orb. apply andb_comm.
Qed.

Lemma NoDup_removelast {A : Type} (l : list A) : NoDup l -> NoDup (removelast l).
Proof.
  induction l as [|x l IH]; intros H; [constructor|].
  destruct l as [|y l]; [constructor|].
  apply NoDup_cons_iff in H. destruct H as [Hx Hl].
  change (removelast (x :: y :: l)) with (x :: removelast (y :: l)).
  constructor; [|now apply IH].
  intros K. apply Hx.
  assert (S : forall (m : list A) z, In z (removelast m) -> In z m).
  { induction m as [|a m IHm]; intros z Hz; [exact Hz|].
    destruct m as [|b m]; [contradiction|].
    change (removelast (a :: b :: m)) with (a :: removelast (b :: m)) in Hz.
    destruct Hz as [<- | Hz]; [now left | right; now apply IHm]. }
  now apply S.
Qed.

(** The handlers of the tags keep distinct tags distinct.  A key in the tag
    box adds at most the trimmed, non-empty input; [removeTag] takes the tag
    out; and the tags that the generator suggests are merged behind the tags
    that were there, which keep their places, every tag of either list being
    there once. *)
Theorem tag_handlers_keep_tags_distinct :
  forall (w : World) (k : Stamp) (m : Metadata) (t : jsstring) (key : TagKey),
    let r := current w in
    let old := tags (ui w) in
    NoDup old ->
    (NoDup (tags (ui (handleTagKeyDown key r w))) /\
     forall x, In x (tags (ui (handleTagKeyDown key r w))) ->
               In x old \/ (x = trim (tagInput (ui w)) /\ x <> [])) /\
    (NoDup (tags (ui (removeTag t r w))) /\ ~ In t (tags (ui (removeTag t r w)))) /\
    (let new := tags (ui (handleAutoTagsResume (Fulfilled m) k r w)) in
     NoDup new /\ (forall x, In x new <-> In x old \/ In x (metaTags m)) /\
     firstn (length old) new = old).
Proof.
  intros w k m t key r old Hnd. split; [|split].
  - unfold handleTagKeyDown. cbn [seen r current render].
    fold old. set (input := trim (tagInput (ui w))).
    destruct key.
    + destruct (truthy input) eqn:Et; [|split; [exact Hnd | auto]].
      destruct (includes old input) eqn:Ei; cbn; [split; [exact Hnd | auto]|].
      split.
      * apply NoDup_app; [exact Hnd | repeat constructor; intros [] |].
        intros x Hx [<- | []]. apply includes_not_In in Ei. contradiction.
      * intros x Hx. apply in_app_iff in Hx. destruct Hx as [Hx | [<- | []]]; [now left|].
        right. split; [reflexivity|]. intros E. rewrite E in Et. discriminate.
    + destruct (negb (truthy (tagInput (ui w))) && Nat.ltb 0 (length old));
        [|split; [exact Hnd | auto]].
      cbn. split; [now apply NoDup_removelast|].
      intros x Hx. left. clear - Hx. induction old as [|a l IH]; [exact Hx|].
      destruct l as [|b l]; [contradiction|].
      change (removelast (a :: b :: l)) with (a :: removelast (b :: l)) in Hx.
      destruct Hx as [<- | Hx]; [now left | right; now apply IH].
    + split; [exact Hnd | auto].
  - cbn. fold old. split; [now apply NoDup_filter|].
    rewrite In_filter_other. intros [_ H]. now apply H.
  - cbn. fold old. split; [apply dedup_NoDup|]. split.
    + intros x. rewrite dedup_In. apply in_app_iff.
    + rewrite (dedup_prefix _ Hnd), firstn_app, Nat.sub_diag, firstn_all. simpl.
      apply app_nil_r.
Qed.

(** Two tags, and [react] typed into the box. *)
Lemma tag_handlers_keep_tags_distinct_witness :
  let w := mkWorld (setTagInput (lit " react ") (setTags [lit "ai"; lit "web"] initialState))
             (UseStore.mkApp UseStore.initialState emptyStorage true (0, 0)%Z) [] in
  tags (ui (handleTagKeyDown Enter (current w) w)) = [lit "ai"; lit "web"; lit "react"] /\
  NoDup (tags (ui (handleTagKeyDown Enter (current w) w))).
Proof.
  intros w. split; [reflexivity|].
  apply (@tag_handlers_keep_tags_distinct w (mkStamp [] 0) (mkMetadata [] []) [] Enter).
  simpl. repeat constructor; simpl; intuition discriminate.
Defined.

End EditorPageFacts.
(* ===================================================================== *)
(** ** Saving from the page *)
(* ===================================================================== *)

Section SaveFacts.

Import EditorPage.

Variable parseDate : jsstring -> option Z.
Variable toISOString : Z -> jsstring.
Variable toLowerCase : jsstring -> jsstring.
Variable format : Z -> jsstring.

#[local] Abbreviation handleSave := (handleSave parseDate toISOString toLowerCase format).
#[local] Abbreviation schedule := (schedule parseDate toISOString).
#[local] Abbreviation buildPost := (buildPost toISOString toLowerCase).

Lemma savePost_lookup (now stamp : Z) (post : BlogPost.t) (ls : LocalStorage) :
  exists p,
    postWithId (BlogPost.id post)
      (storedPosts (snd (StorageService.savePost parseDate toISOString now stamp post ls)))
    = Some p /\
    (p = post \/ p = StorageService.setUpdatedAt (toISOString stamp) post).
Proof.
  rewrite savePost_stored.
  destruct (findIndex _ _) as [i|] eqn:E.
  - eexists. split; [|right; reflexivity].
    unfold postWithId. apply (find_assignAt _ _ _ E). cbn. apply streq_refl.
  - exists post. split; [|now left]. unfold postWithId. simpl. now rewrite streq_refl.
Qed.

#[local] Abbreviation looked := (lookedUp parseDate toISOString).

Lemma schedule_storage (env : SaveEnv) (o : option BlogPost.BlogStatus) (r : Closure)
  (w w1 : World) (st : BlogPost.BlogStatus) (sch : option jsstring) :
  schedule env o r w = inr (st, sch, w1) ->
  UseStore.localStorage (app w1) = UseStore.localStorage (app w) /\
  UseStore.activeView (UseStore.state (app w1))
  = UseStore.activeView (UseStore.state (app w)) /\
  ui w1 = ui w.
Proof.
  unfold EditorPage.schedule.
  destruct o as [[| |]|]; try (intros H; injection H as <- <- <-; repeat split).
  destruct (negb (truthy (scheduleDate (seen r)))); [discriminate|].
  destruct (parseDate (scheduleDate (seen r))) as [t|]; [|discriminate].
  destruct (match parseDate (toISOString t) with Some t' => Z.leb t' (checkTime env) | None => false end);
    intros H; injection H as <- <- <-; repeat split.
Qed.

(** The run of [handleSave] that stores the post. *)
Lemma handleSave_stores (env : SaveEnv) (o : option BlogPost.BlogStatus) (r : Closure)
  (w w1 : World) (u : User.t) (m : Metadata) (st : BlogPost.BlogStatus)
  (sch : option jsstring) :
  user r = Some u -> title (seen r) <> [] ->
  schedule env o r w = inr (st, sch, w1) ->
  described env r m ->
  (st = BlogPost.SCHEDULED -> exists s t, sch = Some s /\ parseDate s = Some t) ->
  let post := buildPost env r u st sch (describedTags r m) (describedSummary r m)
                (fst (looked env r w)) in
  exists w',
    handleSave env o r w = Returned w' /\
    UseStore.localStorage (app w')
    = snd (StorageService.savePost parseDate toISOString (saveReadTime env)
             (saveStamp env) post (snd (looked env r w))) /\
    UseStore.activeView (UseStore.state (app w')) = lit "dashboard" /\
    saving (ui w') = false /\ showScheduleDialog (ui w') = false.
Proof.
  intros Hu Ht Hs Hd Ha post.
  pose proof (schedule_storage _ _ _ _ Hs) as [S1 _].
  assert (L : looked env r w1 = looked env r w).
  { unfold lookedUp. now rewrite S1. }
  unfold EditorPage.handleSave. rewrite Hu.
  destruct (title (seen r)) as [|c0 t0] eqn:Et; [now elim Ht|]. cbn [truthy].
  rewrite Hs. cbv zeta.
  assert (D : (if Nat.ltb 50 (length (content (seen r)))
               then (match tags (seen r) with
                     | [] => metaTags (generateMetadata (metadata env))
                     | _ :: _ => tags (seen r)
                     end, summary (generateMetadata (metadata env)))
               else (tags (seen r), []))
              = (describedTags r m, describedSummary r m)).
  { unfold describedTags, describedSummary.
    destruct Hd as [Hd | Hd]; rewrite Hd; [reflexivity|].
    destruct (Nat.ltb 50 (length (content (seen r)))); reflexivity. }
  rewrite D.
  change (match postId r with
          | Some (c :: id) =>
              StorageService.getPostById parseDate toISOString (lookupTime env)
                (c :: id) (UseStore.localStorage (app (upd (setSaving true) w1)))
          | _ => (None, UseStore.localStorage (app (upd (setSaving true) w1)))
          end) with (looked env r w1).
  rewrite L. fold post.
  destruct st.
  - eexists. split; [reflexivity|]. repeat split.
  - eexists. split; [reflexivity|]. repeat split.
  - destruct (Ha eq_refl) as [s [t [-> Hp]]]. rewrite Hp.
    eexists. split; [reflexivity|]. repeat split.
Qed.

Lemma buildPost_id (env : SaveEnv) (r : Closure) (u : User.t) (st : BlogPost.BlogStatus)
  (sch : option jsstring) (ft : list jsstring) (sm : jsstring) (found : option BlogPost.t) :
  BlogPost.id (buildPost env r u st sch ft sm found) = savedId env r.
Proof. reflexivity. Qed.

(** Saving as a draft or for publication.  With a user and a title, and the
    generator answering when it is asked, [handleSave] returns with the post
    stored under its identity (that of the post being edited, or else the
    random one): title, content, author and status as given, the slug of the
    title, no scheduled time, and the time of creation of the post being
    edited when that post is found with one.  The view is then the dashboard
    and the saving flag is down. *)
Theorem handleSave_stores_the_post :
  forall (env : SaveEnv) (o : option BlogPost.BlogStatus) (r : Closure) (w : World)
         (u : User.t) (m : Metadata),
    user r = Some u -> title (seen r) <> [] -> o <> Some BlogPost.SCHEDULED ->
    described env r m ->
    exists w' p,
      EditorPage.handleSave parseDate toISOString toLowerCase format env o r w
      = Returned w' /\
      storedAs (savedId env r) w' = Some p /\
      BlogPost.title p = title (seen r) /\ BlogPost.content p = content (seen r) /\
      BlogPost.slug p = slugOf toLowerCase (title (seen r)) /\
      BlogPost.status p = match o with Some s => s | None => BlogPost.DRAFT end /\
      BlogPost.scheduledAt p = None /\
      BlogPost.authorId p = User.id u /\ BlogPost.authorName p = User.name u /\
      BlogPost.tags p = describedTags r m /\ BlogPost.summary p = describedSummary r m /\
      (forall k q, postId r = Some k -> k <> [] ->
         fst (StorageService.getPostById parseDate toISOString (lookupTime env) k
                (UseStore.localStorage (app w))) = Some q ->
         BlogPost.createdAt q <> [] -> BlogPost.createdAt p = BlogPost.createdAt q) /\
      UseStore.activeView (UseStore.state (app w')) = lit "dashboard" /\
      saving (ui w') = false.
Proof.
  intros env o r w u m Hu Ht Ho Hd.
  set (st := match o with Some s => s | None => BlogPost.DRAFT end).
  assert (Hs : schedule env o r w = inr (st, None, w)).
  { unfold EditorPage.schedule, st. destruct o as [[| |]|]; try reflexivity. now elim Ho. }
  assert (Hst : st <> BlogPost.SCHEDULED).
  { unfold st. destruct o as [[| |]|]; try discriminate. now elim Ho. }
  destruct (@handleSave_stores env o r w w u m st None Hu Ht Hs Hd)
    as [w' [E [Hls [Hv [Hsv _]]]]]; [intros K; contradiction|].
  set (post := buildPost env r u st None (describedTags r m) (describedSummary r m)
                 (fst (looked env r w))) in *.
  destruct (savePost_lookup (saveReadTime env) (saveStamp env) post (snd (looked env r w)))
    as [p [Hp Hq]].
  exists w', p. split; [exact E|]. split.
  { unfold storedAs. rewrite Hls. exact Hp. }
  assert (F : forall (f : BlogPost.t -> jsstring),
            (forall x y, f (StorageService.setUpdatedAt x y) = f y) -> f p = f post).
  { intros f Hf. destruct Hq as [-> | ->]; [reflexivity | apply Hf]. }
  repeat split; try exact Hv; try exact Hsv;
    try (destruct Hq as [-> | ->]; reflexivity).
  intros k q Hk Hne Hq' Hc.
  rewrite (F BlogPost.createdAt) by reflexivity.
  unfold post, EditorPage.buildPost, lookedUp. rewrite Hk.
  destruct k as [|c k]; [now elim Hne|]. cbn [BlogPost.createdAt].
  rewrite Hq'. cbn [fst]. unfold orElse.
  destruct (BlogPost.createdAt q); [now elim Hc | reflexivity].
Qed.

(** Scheduling.  With a user, a title and a date that the browser reads as
    the time [t] and prints in a form it reads back as [t], [handleSave]
    stores the post: published at once, without scheduled time, when [t] is
    not after the clock; and otherwise scheduled for [t], in which case
    every later lookup shows it scheduled before [t] and published from [t]
    on. *)
Theorem handleSave_schedules :
  forall (env : SaveEnv) (r : Closure) (w : World) (u : User.t) (m : Metadata) (t : Z),
    user r = Some u -> title (seen r) <> [] ->
    scheduleDate (seen r) <> [] -> parseDate (scheduleDate (seen r)) = Some t ->
    parseDate (toISOString t) = Some t -> toISOString t <> [] ->
    described env r m ->
    exists w' p,
      EditorPage.handleSave parseDate toISOString toLowerCase format env
        (Some BlogPost.SCHEDULED) r w = Returned w' /\
      storedAs (savedId env r) w' = Some p /\
      ((t <= checkTime env)%Z ->
         BlogPost.status p = BlogPost.PUBLISHED /\ BlogPost.scheduledAt p = None) /\
      ((checkTime env < t)%Z ->
         BlogPost.status p = BlogPost.SCHEDULED /\
         BlogPost.scheduledAt p = Some (toISOString t) /\
         forall now : Z,
           exists q,
             fst (StorageService.getPostById parseDate toISOString now (savedId env r)
                    (UseStore.localStorage (app w'))) = Some q /\
             BlogPost.status q
             = if Z.leb t now then BlogPost.PUBLISHED else BlogPost.SCHEDULED).
Proof.
  intros env r w u m t Hu Ht Hdate Hp Hrt Hne Hd.
  destruct (Z.leb t (checkTime env)) eqn:El.
  - set (w1 := addNotification (warnStamp env) Notification.warning
                 (lit "Scheduled time is in the past. Publishing immediately.") w).
    assert (Hs : schedule env (Some BlogPost.SCHEDULED) r w
                 = inr (BlogPost.PUBLISHED, None, w1)).
    { unfold EditorPage.schedule. destruct (scheduleDate (seen r)); [now elim Hdate|].
      cbn [truthy negb]. rewrite Hp, Hrt, El. reflexivity. }
    destruct (@handleSave_stores env (Some BlogPost.SCHEDULED) r w w1 u m
                BlogPost.PUBLISHED None Hu Ht Hs Hd)
      as [w' [E [Hls _]]]; [discriminate|].
    match type of Hls with _ = snd (StorageService.savePost _ _ ?a ?b ?post ?ls) =>
      destruct (savePost_lookup a b post ls) as [p [Hq Hpq]] end.
    exists w', p. split; [exact E|]. split.
    { unfold storedAs. rewrite Hls. exact Hq. }
    split.
    + intros _. destruct Hpq as [-> | ->]; split; reflexivity.
    + intros Hlt. apply Z.leb_le in El. lia.
  - assert (Hs : schedule env (Some BlogPost.SCHEDULED) r w
                 = inr (BlogPost.SCHEDULED, Some (toISOString t), w)).
    { unfold EditorPage.schedule. destruct (scheduleDate (seen r)); [now elim Hdate|].
      cbn [truthy negb]. rewrite Hp, Hrt, El. reflexivity. }
    destruct (@handleSave_stores env (Some BlogPost.SCHEDULED) r w w u m
                BlogPost.SCHEDULED (Some (toISOString t)) Hu Ht Hs Hd)
      as [w' [E [Hls _]]]; [intros _; now exists (toISOString t), t|].
    match type of Hls with _ = snd (StorageService.savePost _ _ ?a ?b ?post ?ls) =>
      destruct (savePost_lookup a b post ls) as [p [Hq Hpq]] end.
    exists w', p. split; [exact E|]. split.
    { unfold storedAs. rewrite Hls. exact Hq. }
    split.
    + intros Hle. apply Z.leb_gt in El. lia.
    + intros _.
      assert (S1 : BlogPost.status p = BlogPost.SCHEDULED)
        by (destruct Hpq as [-> | ->]; reflexivity).
      assert (S2 : BlogPost.scheduledAt p = Some (toISOString t))
        by (destruct Hpq as [-> | ->]; reflexivity).
      split; [exact S1|]. split; [exact S2|].
      intros now. rewrite getPostById_eq, Hls.
      rewrite buildPost_id in Hq. rewrite Hq. cbn [option_map].
      eexists. split; [reflexivity|].
      unfold shown, isDue. rewrite S1, S2, Hrt.
      destruct (toISOString t) eqn:Eiso; [now elim Hne|]. cbn [truthy andb].
      destruct (Z.leb t now); [reflexivity | exact S1].
Qed.

(** What [handleSave] refuses.  Without a user or without a title it only
    adds the notification that a title is required; asked to schedule
    without a date, only the one that asks for a date; with a date that is
    not one, the exception of [toISOString] leaves it with nothing done.
    In every case the saving flag is down afterwards unless it was up
    before. *)
Theorem handleSave_refuses :
  forall (env : SaveEnv) (o : option BlogPost.BlogStatus) (r : Closure) (w : World),
    let out := EditorPage.handleSave parseDate toISOString toLowerCase format env o r w in
    (user r = None \/ title (seen r) = [] ->
     out = Returned (addNotification (errorStamp env) Notification.error
                       (lit "Title is required") w)) /\
    (user r <> None -> title (seen r) <> [] -> o = Some BlogPost.SCHEDULED ->
     (scheduleDate (seen r) = [] ->
      out = Returned (addNotification (errorStamp env) Notification.error
                        (lit "Please select a date/time to schedule") w)) /\
     (scheduleDate (seen r) <> [] -> parseDate (scheduleDate (seen r)) = None ->
      out = Threw w)) /\
    (saving (ui (outcome out)) = true -> saving (ui w) = true).
Proof.
  intros env o r w out. unfold out, EditorPage.handleSave.
  split; [|split].
  - intros [H | H]; [now rewrite H|].
    rewrite H. now destruct (user r).
  - intros Hu Ht ->. destruct (user r) as [u|]; [|now elim Hu].
    destruct (title (seen r)) as [|c0 t0]; [now elim Ht|]. cbn [truthy].
    unfold EditorPage.schedule. split.
    + now intros ->.
    + intros Hd Hp. destruct (scheduleDate (seen r)); [now elim Hd|].
      cbn [truthy negb]. now rewrite Hp.
  - destruct (user r) as [u|]; [|exact (fun H => H)].
    destruct (title (seen r)) as [|c0 t0]; [exact (fun H => H)|]. cbn [truthy].
    destruct (schedule env o r w) as [[w'|w'] | [[st sch] w1]] eqn:Hs.
    + unfold EditorPage.schedule in Hs.
      destruct o as [[| |]|]; try discriminate.
      destruct (negb (truthy (scheduleDate (seen r)))).
      * injection Hs as <-. exact (fun H => H).
      * destruct (parseDate (scheduleDate (seen r))); [|discriminate].
        destruct (match parseDate (toISOString z) with Some _ => _ | None => _ end);
          discriminate.
    + unfold EditorPage.schedule in Hs.
      destruct o as [[| |]|]; try discriminate.
      destruct (negb (truthy (scheduleDate (seen r)))); [discriminate|].
      destruct (parseDate (scheduleDate (seen r))); [|injection Hs as <-; exact (fun H => H)].
      destruct (match parseDate (toISOString z) with Some _ => _ | None => _ end);
        discriminate.
    + cbv zeta.
      repeat match goal with
             | |- context [match ?x with _ => _ end] =>
                 lazymatch x with
                 | context [match _ with _ => _ end] => fail
                 | _ => destruct x
                 end
             end; cbn; discriminate.
Qed.

(** A save does not stop at the generator.  When the content has more than
    50 characters and the request of the generator fails, [generateMetadata]
    answers with its fixed summary and tag, and [handleSave] stores the post
    with that summary, and with that tag if the page has no tags of its
    own; the view is then the dashboard and the saving flag is down. *)
Theorem handleSave_survives_the_generator :
  forall (env : SaveEnv) (o : option BlogPost.BlogStatus) (r : Closure) (w : World)
         (u : User.t),
    user r = Some u -> title (seen r) <> [] -> o <> Some BlogPost.SCHEDULED ->
    Nat.ltb 50 (length (content (seen r))) = true -> metadata env = Rejected ->
    exists w' p,
      EditorPage.handleSave parseDate toISOString toLowerCase format env o r w
      = Returned w' /\
      storedAs (savedId env r) w' = Some p /\
      BlogPost.summary p = lit "Analysis failed" /\
      BlogPost.tags p = match tags (seen r) with
                        | [] => [lit "General"]
                        | _ => tags (seen r)
                        end /\
      BlogPost.content p = content (seen r) /\
      UseStore.activeView (UseStore.state (app w')) = lit "dashboard" /\
      saving (ui w') = false.
Proof.
  intros env o r w u Hu Ht Ho Hl Hm.
  set (m := generateMetadata (metadata env)).
  set (st := match o with Some s => s | None => BlogPost.DRAFT end).
  assert (Hs : schedule env o r w = inr (st, None, w)).
  { unfold EditorPage.schedule, st. destruct o as [[| |]|]; try reflexivity. now elim Ho. }
  assert (Hd : described env r m) by (right; reflexivity).
  destruct (@handleSave_stores env o r w w u m st None Hu Ht Hs Hd)
    as [w' [E [Hls [Hv [Hsv _]]]]].
  { intros K. unfold st in K. destruct o as [[| |]|]; try discriminate. now elim Ho. }
  set (post := buildPost env r u st None (describedTags r m) (describedSummary r m)
                 (fst (looked env r w))) in *.
  destruct (savePost_lookup (saveReadTime env) (saveStamp env) post (snd (looked env r w)))
    as [p [Hp Hq]].
  exists w', p. split; [exact E|]. split.
  { unfold storedAs. rewrite Hls. exact Hp. }
  assert (Sm : BlogPost.summary p = describedSummary r m)
    by (destruct Hq as [-> | ->]; reflexivity).
  assert (Tg : BlogPost.tags p = describedTags r m)
    by (destruct Hq as [-> | ->]; reflexivity).
  assert (Ct : BlogPost.content p = content (seen r))
    by (destruct Hq as [-> | ->]; reflexivity).
  unfold describedSummary in Sm. unfold describedTags in Tg. rewrite Hl in Sm, Tg.
  unfold m in Sm, Tg. rewrite Hm in Sm, Tg.
  split; [exact Sm|]. split; [exact Tg|]. split; [exact Ct|].
  split; [exact Hv | exact Hsv].
Qed.

End SaveFacts.

(** A draft saved from the sample page. *)
Lemma handleSave_stores_the_post_witness :
  exists w' p,
    EditorPage.handleSave unaryDate unaryISO toLowerAscii (fun _ => [])
      sampleEnv (Some BlogPost.DRAFT) (current (samplePage true)) (samplePage true)
    = EditorPage.Returned w' /\
    storedAs (lit "k3x9") w' = Some p /\ BlogPost.slug p = lit "hello-world".
Proof.
  destruct (@handleSave_stores_the_post unaryDate unaryISO toLowerAscii (fun _ => [])
              sampleEnv (Some BlogPost.DRAFT) (current (samplePage true))
              (samplePage true) MOCK_AUTHOR (EditorPage.mkMetadata [] []))
    as [w' [p [E [Hs [_ [_ [Hslug _]]]]]]].
  - reflexivity.
  - discriminate.
  - discriminate.
  - left. reflexivity.
  - exists w', p. split; [exact E|]. split; [exact Hs|]. rewrite Hslug. reflexivity.
Defined.

(** The sample page scheduled for the time 10, with the clock at 5. *)
Lemma handleSave_schedules_witness :
  exists w' p,
    EditorPage.handleSave unaryDate unaryISO toLowerAscii (fun _ => [])
      sampleEnv (Some BlogPost.SCHEDULED) (current (samplePage true)) (samplePage true)
    = EditorPage.Returned w' /\
    storedAs (lit "k3x9") w' = Some p /\ BlogPost.status p = BlogPost.SCHEDULED.
Proof.
  destruct (@handleSave_schedules unaryDate unaryISO toLowerAscii (fun _ => [])
              sampleEnv (current (samplePage true)) (samplePage true) MOCK_AUTHOR
              (EditorPage.mkMetadata [] []) 10%Z)
    as [w' [p [E [Hs [_ H]]]]].
  - reflexivity.
  - discriminate.
  - discriminate.
  - reflexivity.
  - reflexivity.
  - discriminate.
  - left. reflexivity.
  - exists w', p. split; [exact E|]. split; [exact Hs|]. apply H. reflexivity.
Defined.

(** The long page saved as a draft while the request of the generator
    fails. *)
Lemma handleSave_survives_the_generator_witness :
  exists w' p,
    EditorPage.handleSave unaryDate unaryISO toLowerAscii (fun _ => [])
      sampleEnv (Some BlogPost.DRAFT) (current longPage) longPage
    = EditorPage.Returned w' /\
    storedAs (lit "k3x9") w' = Some p /\
    BlogPost.summary p = lit "Analysis failed" /\ BlogPost.tags p = [lit "General"].
Proof.
  destruct (@handleSave_survives_the_generator unaryDate unaryISO toLowerAscii
              (fun _ => []) sampleEnv (Some BlogPost.DRAFT) (current longPage) longPage
              MOCK_AUTHOR)
    as [w' [p [E [Hs [Hsum [Htags _]]]]]].
  - reflexivity.
  - discriminate.
  - discriminate.
  - reflexivity.
  - reflexivity.
  - exists w', p. split; [exact E|]. split; [exact Hs|]. split; [exact Hsum | exact Htags].
Defined.

(** The sample page without a user. *)
Lemma handleSave_refuses_witness :
  EditorPage.handleSave unaryDate unaryISO toLowerAscii (fun _ => []) sampleEnv
    (Some BlogPost.DRAFT) (current (samplePage false)) (samplePage false)
  = EditorPage.Returned
      (EditorPage.addNotification (EditorPage.mkStamp (lit "n1") 0) Notification.error
         (lit "Title is required") (samplePage false)).
Proof.
  destruct (@handleSave_refuses unaryDate unaryISO toLowerAscii (fun _ => []) sampleEnv
              (Some BlogPost.DRAFT) (current (samplePage false)) (samplePage false))
    as [H _].
  apply H. left. reflexivity.
Defined.

(* ===================================================================== *)
(** ** More of the editor *)
(* ===================================================================== *)

(** *** The active block *)



(** *** What a drop passes on *)



(** *** The block actions *)

(** The block actions on the active block [A], a child of the root between
    the children [p] and [q].  Deleting takes [A] out; moving up puts it
    before the child that was before it; moving down puts it after the child
    that was after it.  Each passes the new content on once and closes the
    block options.  Moving up and then down, or down and then up, gives the
    children their first order back. *)
Theorem block_actions_reorder :
  forall (r : State) (w : World) (A : Node) (p q : list Node),
    activeBlock r = Some (nodeId A) ->
    editor (page w) = Some (p ++ A :: q) ->
    NoDup (map nodeId (p ++ A :: q)) ->
    (forall c, In c (p ++ A :: q) -> topLevelOnly (nodeId c) (p ++ A :: q)) ->
    let gives := fun action w0 cs' =>
      exists w', handleBlockAction action r w0 = Done w' /\
                 editor (page w') = Some cs' /\
                 emitted w' = emitted w0 ++ [innerHTML cs'] /\
                 showBlockOptions (ui w') = false in
    gives ActionDelete w (p ++ q) /\
    (forall p' P, p = p' ++ [P] ->
       gives ActionUp w (p' ++ A :: P :: q) /\
       forall w1, handleBlockAction ActionUp r w = Done w1 ->
                  gives ActionDown w1 (p ++ A :: q)) /\
    (forall N q', q = N :: q' ->
       gives ActionDown w (p ++ N :: A :: q') /\
       forall w1, handleBlockAction ActionDown r w = Done w1 ->
                  gives ActionUp w1 (p ++ A :: q)).
Proof.
  intros r w A p q Ha He Hnd Htop gives.
  assert (HinA : In A (p ++ A :: q)) by (apply in_or_app; right; now left).
  split; [|split].
  - destruct (@blockAction_emits ActionDelete r w (setPage (removeNode (nodeId A) (page w)) w)
                (nodeId A) (p ++ A :: q) (p ++ q) Ha He eq_refl)
      as [w' [G1 [G2 [G3 [G4 _]]]]]; [| reflexivity |].
    + apply removeNode_child; [exact He | exact Hnd | exact (Htop A HinA)].
    + exists w'. repeat split; assumption.
  - intros p' P ->. rewrite <- app_assoc in He, Hnd, Htop, HinA. simpl in *.
    pose proof (@block_up_swaps r w P A p' q Ha He Hnd (Htop A HinA)) as U.
    split; [exact U|].
    intros w1 Hw1. destruct U as [w' [U1 [U2 _]]].
    rewrite U1 in Hw1. injection Hw1 as <-.
    rewrite <- app_assoc. simpl.
    assert (Perm : Permutation (p' ++ P :: A :: q) (p' ++ A :: P :: q)).
    { apply Permutation_app_head. apply perm_swap. }
    apply (@block_down_swaps r w' A P p' q Ha U2).
    + exact (NoDup_ids_perm Perm Hnd).
    + intros c Hc. apply (Htop P).
      * apply in_or_app. right. now left.
      * apply (Permutation_in _ (Permutation_sym Perm) Hc).
  - intros N q' ->.
    assert (HinN : In N (p ++ A :: N :: q')) by (apply in_or_app; right; right; now left).
    pose proof (@block_down_swaps r w A N p q' Ha He Hnd (Htop N HinN)) as D.
    split; [exact D|].
    intros w1 Hw1. destruct D as [w' [D1 [D2 _]]].
    rewrite D1 in Hw1. injection Hw1 as <-.
    assert (Perm : Permutation (p ++ A :: N :: q') (p ++ N :: A :: q')).
    { apply Permutation_app_head. apply perm_swap. }
    apply (@block_up_swaps r w' N A p q' Ha D2).
    + exact (NoDup_ids_perm Perm Hnd).
    + intros c Hc. apply (Htop A HinA).
      apply (Permutation_in _ (Permutation_sym Perm) Hc).
Qed.

(** The three paragraphs [A, B, C] of [threeParagraphs]. *)
Lemma threeParagraphs_editor :
  editor (page threeParagraphs)
  = Some [paragraph 0 "A"; paragraph 2 "B"; paragraph 4 "C"].
Proof. vm_compute. reflexivity. Qed.

Lemma threeParagraphs_distinct :
  NoDup (map nodeId [paragraph 0 "A"; paragraph 2 "B"; paragraph 4 "C"]).
Proof. simpl. repeat constructor; simpl; intuition discriminate. Qed.

Lemma threeParagraphs_top :
  forall c, In c [paragraph 0 "A"; paragraph 2 "B"; paragraph 4 "C"] ->
            topLevelOnly (nodeId c) [paragraph 0 "A"; paragraph 2 "B"; paragraph 4 "C"].
Proof.
  intros c [<- | [<- | [<- | []]]] x [<- | [<- | [<- | []]]] Hx;
    solve [now elim Hx | reflexivity].
Qed.

(** The blocks [A, B, C] with [B] active: deleting gives [A, C], moving up
    [B, A, C], moving down [A, C, B]. *)
Lemma block_actions_reorder_witness :
  let r := withActive 2 false None in
  (exists w', handleBlockAction ActionDelete r threeParagraphs = Done w' /\
              currentHTML w' = lit "<p>A</p><p>C</p>") /\
  (exists w', handleBlockAction ActionUp r threeParagraphs = Done w' /\
              currentHTML w' = lit "<p>B</p><p>A</p><p>C</p>") /\
  (exists w', handleBlockAction ActionDown r threeParagraphs = Done w' /\
              currentHTML w' = lit "<p>A</p><p>C</p><p>B</p>").
Proof.
  intros r.
  destruct (@block_actions_reorder r threeParagraphs (paragraph 2 "B")
              [paragraph 0 "A"] [paragraph 4 "C"] eq_refl threeParagraphs_editor
              threeParagraphs_distinct threeParagraphs_top) as [D [U Dn]].
  split; [|split].
  - destruct D as [w' [H1 [H2 _]]]. exists w'. split; [exact H1|].
    unfold currentHTML. rewrite H2. vm_compute. reflexivity.
  - destruct (U [] (paragraph 0 "A") eq_refl) as [[w' [H1 [H2 _]]] _].
    exists w'. split; [exact H1|]. unfold currentHTML. rewrite H2. vm_compute. reflexivity.
  - destruct (Dn (paragraph 4 "C") [] eq_refl) as [[w' [H1 [H2 _]]] _].
    exists w'. split; [exact H1|]. unfold currentHTML. rewrite H2. vm_compute. reflexivity.
Defined.

Lemma cloneNode_id (f : nat) (n : Node) : nodeId (fst (cloneNode f n)) = f.
Proof. destruct n; reflexivity. Qed.

Lemma cloneNode_serialize (n : Node) :
  forall (raw : bool) (f : nat), serialize raw (fst (cloneNode f n)) = serialize raw n.
Proof.
  induction n as [i d | i nm a cs IH] using Node_ind2; intros raw f; [reflexivity|].
  cbn [cloneNode fst serialize]. do 4 f_equal.
  destruct (isVoid nm); [reflexivity|]. f_equal.
  set (step := fun (acc : list Node * nat) c =>
                 (fst acc ++ [fst (cloneNode (snd acc) c)], snd (cloneNode (snd acc) c))).
  assert (G : forall acc k,
             flat_map (serialize (isRawText nm)) (fst (fold_left step cs (acc, k)))
             = flat_map (serialize (isRawText nm)) acc
               ++ flat_map (serialize (isRawText nm)) cs).
  { induction cs as [|c r IHr]; intros acc k.
    - simpl. now rewrite app_nil_r.
    - inversion IH as [|? ? IHc IHrest]; subst.
      cbn [fold_left]. unfold step at 2. cbn [fst snd].
      rewrite (IHr IHrest). rewrite flat_map_app. cbn [flat_map].
      rewrite app_nil_r, IHc, <- app_assoc. reflexivity. }
  exact (G [] (S f)).
Qed.

Lemma firstSome_none {A B : Type} (f : A -> option B) (l : list A) :
  (forall a, In a l -> f a = None) -> firstSome f l = None.
Proof.
  induction l as [|a r IH]; intros H; [reflexivity|]. simpl.
  rewrite (H a) by now left. apply IH. intros x Hx. apply H. now right.
Qed.

Lemma existsb_none {A : Type} (f : A -> bool) (l : list A) :
  (forall a, In a l -> f a = false) -> existsb f l = false.
Proof.
  induction l as [|a r IH]; intros H; [reflexivity|]. simpl.
  rewrite (H a) by now left. apply IH. intros x Hx. apply H. now right.
Qed.

(** Duplicating the active block [A], a child of the root, the next
    identifier of the page being unused: a copy of [A] with new identities
    goes right after [A], and the content passed on shows the markup of [A]
    twice in a row. *)
Theorem duplicate_repeats_the_block :
  forall (r : State) (w : World) (A : Node) (p q : list Node),
    activeBlock r = Some (nodeId A) ->
    editor (page w) = Some (p ++ A :: q) ->
    NoDup (map nodeId (p ++ A :: q)) -> topLevelOnly (nodeId A) (p ++ A :: q) ->
    nextIdUnused (page w) = true ->
    exists w' copy,
      handleBlockAction ActionDuplicate r w = Done w' /\
      editor (page w') = Some (p ++ A :: copy :: q) /\
      nodeId copy = nextId (page w) /\
      currentHTML w' = innerHTML (p ++ A :: A :: q) /\
      emitted w' = emitted w ++ [currentHTML w'].
Proof.
  intros r w A p q Ha He Hnd Htop Hunused.
  assert (Hfresh : forall c, In c (allNodes (page w)) ->
                             containsId (nextId (page w)) c = false).
  { intros c Hc. unfold nextIdUnused in Hunused. apply negb_true_iff in Hunused.
    destruct (containsId (nextId (page w)) c) eqn:E; [|reflexivity].
    assert (X : existsb (containsId (nextId (page w))) (allNodes (page w)) = true)
      by (apply existsb_exists; eauto).
    congruence. }
  clear Hunused.
  set (n := nextId (page w)) in *.
  set (copy := fst (cloneNode n A)).
  assert (HinA : In A (p ++ A :: q)) by (apply in_or_app; right; now left).
  assert (Hres : resolve (page w) (nodeId A) = Some A)
    by exact (@resolve_top (page w) _ A He Hnd Htop HinA).
  set (pg' := setNextId (snd (cloneNode n A)) (setOthers (others (page w) ++ [copy]) (page w))).
  assert (Hc : cloneOf (nodeId A) (page w) = (n, pg')).
  { unfold cloneOf. now rewrite Hres. }
  assert (He' : editor pg' = Some (p ++ A :: q)) by exact He.
  assert (Hcs : forall c, In c (p ++ A :: q) -> containsId n c = false).
  { intros c Hin. apply Hfresh. unfold allNodes, editorNodes. rewrite He.
    apply in_or_app. now left. }
  assert (Hos : forall c, In c (others (page w)) -> containsId n c = false).
  { intros c Hin. apply Hfresh. unfold allNodes. apply in_or_app. now right. }
  assert (Hrc : resolve pg' n = Some copy).
  { unfold resolve, allNodes, editorNodes. rewrite He'.
    change (others pg') with (others (page w) ++ [copy]).
    rewrite (firstSome_app (findNode n) (p ++ A :: q) (others (page w) ++ [copy])).
    rewrite (@firstSome_none _ _ (findNode n) (p ++ A :: q))
      by (intros c Hin; apply findNode_absent; now apply Hcs).
    rewrite (firstSome_app (findNode n) (others (page w)) [copy]).
    rewrite (@firstSome_none _ _ (findNode n) (others (page w)))
      by (intros c Hin; apply findNode_absent; now apply Hos).
    simpl. rewrite <- (cloneNode_id n A) at 1. fold copy. now rewrite findNode_self. }
  assert (Hun : editorNodes (unlink n pg') = p ++ A :: q).
  { unfold unlink, editorNodes. simpl. rewrite He. simpl.
    apply substForest_absent. apply existsb_none. exact Hcs. }
  assert (Hins : exists pg2,
             insertBefore n (nextSibling pg' (nodeId A)) pg' = Ok pg2 /\
             editor pg2 = Some (p ++ A :: copy :: q)).
  { rewrite (@nextSibling_at pg' A p q He' Hnd).
    unfold insertBefore. rewrite He'.
    destruct q as [|N q']; cbn [hd_error option_map].
    - cbn [negb]. rewrite Hrc. rewrite Hun. eexists. split; [reflexivity|].
      cbn [mapBoundaries setSelection setEditor editor]. rewrite insertAt_end.
      rewrite <- app_assoc. reflexivity.
    - assert (HinN : In N (p ++ A :: N :: q')) by (apply in_or_app; right; right; now left).
      rewrite (@existsb_hasId_in (nodeId N) N _ HinN eq_refl). cbn [negb].
      assert (Hne : Nat.eqb (nodeId N) n = false).
      { pose proof (containsId_hasId _ _ (Hcs N HinN)) as H. exact H. }
      rewrite Hne, Hrc, Hun. eexists. split; [reflexivity|].
      cbn [mapBoundaries setSelection setEditor editor]. f_equal.
      replace (p ++ A :: N :: q') with ((p ++ [A]) ++ N :: q') by now rewrite <- app_assoc.
      rewrite insertAt_before.
      + now rewrite <- app_assoc.
      + apply absent_hasId.
        replace (p ++ A :: N :: q') with ((p ++ [A]) ++ N :: q') in Hnd
          by now rewrite <- app_assoc.
        rewrite map_app in Hnd. simpl in Hnd.
        pose proof (NoDup_remove_2 _ _ _ Hnd) as Hni.
        intros Hin. apply Hni. apply in_or_app. now left.
      + now apply hasId_eq. }
  destruct Hins as [pg2 [I1 I2]].
  assert (Hh : innerHTML (p ++ A :: copy :: q) = innerHTML (p ++ A :: A :: q)).
  { unfold innerHTML. rewrite !flat_map_app. cbn [flat_map]. unfold copy.
    now rewrite cloneNode_serialize. }
  exists (schedule UpdateActiveBlockTask 0 r
            (upd (setShowBlockOptions false)
               (onChange (innerHTML (p ++ A :: copy :: q)) (setPage pg2 w)))), copy.
  split.
  - unfold handleBlockAction. rewrite Ha, He. cbv zeta. rewrite Hc.
    cbn [fst snd]. rewrite I1. cbn [liftPage andThen].
    unfold currentHTML. cbn [page setPage]. now rewrite I2.
  - split; [exact I2|]. split; [apply cloneNode_id|].
    assert (C : currentHTML (schedule UpdateActiveBlockTask 0 r
                  (upd (setShowBlockOptions false)
                     (onChange (innerHTML (p ++ A :: copy :: q)) (setPage pg2 w))))
                = innerHTML (p ++ A :: A :: q)).
    { unfold currentHTML. cbn [schedule upd setUi onChange page setPage].
      now rewrite I2. }
    split; [exact C|]. rewrite C, <- Hh. reflexivity.
Qed.

Lemma threeParagraphs_unused : nextIdUnused (page threeParagraphs) = true.
Proof. vm_compute. reflexivity. Qed.

(** The blocks [A, B, C] with [B] active. *)
Lemma duplicate_repeats_the_block_witness :
  exists w', handleBlockAction ActionDuplicate (withActive 2 false None) threeParagraphs
             = Done w' /\
             currentHTML w' = lit "<p>A</p><p>B</p><p>B</p><p>C</p>".
Proof.
  destruct (@duplicate_repeats_the_block (withActive 2 false None) threeParagraphs
              (paragraph 2 "B") [paragraph 0 "A"] [paragraph 4 "C"]
              eq_refl threeParagraphs_editor threeParagraphs_distinct
              (@threeParagraphs_top (paragraph 2 "B") (or_intror (or_introl eq_refl)))
              threeParagraphs_unused)
    as [w' [copy [H1 [_ [_ [H2 _]]]]]].
  exists w'. split; [exact H1|]. rewrite H2. vm_compute. reflexivity.
Defined.
